(** * CLgen: the atomizer (clgen/atomizer.py) and the kernel driver
    (clgen/cldrive.py), as a shallow embedding.

    Python values are modelled as follows.
    - [str] is [string]; [text[i:j]] is [slice], [text[i]] is [item].
    - [dict] is an insertion-ordered association list with unique keys
      ([PyDict]): [d[k] = v] overwrites in place or appends, [dict(pairs)]
      inserts the pairs from left to right.
    - [set] is a duplicate-free list; every use of a set in the source is
      insensitive to the iteration order, except where stated.
    - a number of numpy is a rational, an infinity or a NaN
      ([CLDrive.number]); storing it with a float type rounds it, storing
      it with an integer type wraps it around.
    - a raised exception is [Raise e]; [OtherError] stands for the
      exceptions of other libraries. Loops that are not bounded by their
      input are run with fuel, and [Diverged] (not a Python exception) marks
      an exhausted fuel. *)

From Stdlib Require Import List String Ascii Arith Bool Lia Permutation.
From Stdlib Require Import ZArith QArith Qround Qabs.
Import ListNotations.

Local Open Scope nat_scope.
Local Open Scope string_scope.
Local Open Scope list_scope.

(** ** Exceptions and results *)

Inductive exn : Type :=
| VocabError
| KeyError
| ValueError
| E_BAD_CODE
| E_UGLY_CODE
| E_BAD_DRIVER
| E_BAD_ARGS
| E_BAD_PROFILE
| E_NON_TERMINATING
| E_INPUT_INSENSITIVE
| E_NO_OUTPUTS
| E_NONDETERMINISTIC
| TypeError
| IndexError
| AttributeError
| OtherError
| Diverged.

Inductive result (A : Type) : Type :=
| Ok (a : A)
| Raise (e : exn).

Arguments Ok {A} a.
Arguments Raise {A} e.

Definition bind {A B : Type} (r : result A) (f : A -> result B) : result B :=
  match r with
  | Ok a => f a
  | Raise e => Raise e
  end.

Fixpoint mapM {A B : Type} (f : A -> result B) (l : list A) : result (list B) :=
  match l with
  | [] => Ok []
  | x :: l' =>
      match f x with
      | Ok y => match mapM f l' with
                | Ok ys => Ok (y :: ys)
                | Raise e => Raise e
                end
      | Raise e => Raise e
      end
  end.

(** ** Python dictionaries *)

Module PyDict.

Section Dict.

Context {K V : Type}.
Variable eqb : K -> K -> bool.

Definition dict : Type := list (K * V).

(** [d.get(k)] *)
Fixpoint get (d : dict) (k : K) : option V :=
  match d with
  | [] => None
  | (k', v) :: d' => if eqb k k' then Some v else get d' k
  end.

(** [d[k]], which raises [KeyError] on a missing key *)
Definition getitem (d : dict) (k : K) : result V :=
  match get d k with
  | Some v => Ok v
  | None => Raise KeyError
  end.

(** [d[k] = v] *)
Fixpoint set (d : dict) (k : K) (v : V) : dict :=
  match d with
  | [] => [(k, v)]
  | (k', v') :: d' =>
      if eqb k k' then (k', v) :: d' else (k', v') :: set d' k v
  end.

(** [dict(pairs)] *)
Definition of_pairs (l : list (K * V)) : dict :=
  fold_left (fun d kv => set d (fst kv) (snd kv)) l [].

Definition keys (d : dict) : list K := map fst d.
Definition values (d : dict) : list V := map snd d.
Definition items (d : dict) : list (K * V) := d.
Definition len (d : dict) : nat := List.length d.

(** A dictionary holds each key once. *)
Definition wf (d : dict) : Prop := NoDup (keys d).

End Dict.

Arguments dict : clear implicits.

End PyDict.

(** ** Strings, sorting and sets *)

(** [text[i:j]] for [0 <= i] and [0 <= j]: clamped to the text. *)
Definition slice (text : string) (i j : nat) : string :=
  substring i (j - i) text.

(** [text[i]] for [i < len(text)]: a string of one character. *)
Definition item (text : string) (i : nat) : string :=
  substring i 1 text.

(** [x.startswith(t)] *)
Definition startswith (x t : string) : bool := prefix t x.

(** [''.join(l)] *)
Definition join (l : list string) : string := String.concat "" l.

(** [list(text)]: the characters, each a string of length one. *)
Fixpoint chars (text : string) : list string :=
  match text with
  | EmptyString => []
  | String c rest => String c EmptyString :: chars rest
  end.

(** [sorted(l, key=...)]: Python's sort is stable, and a stable sort has one
    possible result; insertion from the right, before the first element that
    is not smaller, computes it. *)
Fixpoint insert_sorted {A : Type} (le : A -> A -> bool) (x : A) (l : list A)
  : list A :=
  match l with
  | [] => [x]
  | y :: l' => if le x y then x :: l else y :: insert_sorted le x l'
  end.

Definition sorted {A : Type} (le : A -> A -> bool) (l : list A) : list A :=
  fold_right (insert_sorted le) [] l.

(** [set(l)], enumerated in some order. *)
Definition pyset (l : list string) : list string := nodup string_dec l.

(** ** The seed atoms

    [string.printable]: digits, letters, punctuation and whitespace
    (space, tab, newline, carriage return, vertical tab, form feed). *)
Definition printable : string :=
  "0123456789abcdefghijklmnopqrstuvwxyzABCDEFGHIJKLMNOPQRSTUVWXYZ!"
  ++ String (ascii_of_nat 34) "#$%&'()*+,-./:;<=>?@[\]^_`{|}~ "
  ++ String (ascii_of_nat 9) (String (ascii_of_nat 10)
       (String (ascii_of_nat 13) (String (ascii_of_nat 11)
          (String (ascii_of_nat 12) EmptyString)))).

(** The list that the source turns into the set [OPENCL_ATOMS]. *)
Definition OPENCL_ATOMS_list : list string :=
  ["  "; "__assert"; "__attribute"; "__builtin_astype"; "__clc_fabs";
   "__clc_fma"; "__constant"; "__global"; "__inline"; "__kernel";
   "__local"; "__private"; "__read_only"; "__read_write"; "__write_only";
   "*/"; "/*"; "//"; "abs"; "alignas"; "alignof"; "atomic_add"; "auto";
   "barrier"; "bool"; "break"; "case"; "char"; "clamp"; "complex"; "const";
   "constant"; "continue"; "default"; "define"; "defined"; "do"; "double";
   "elif"; "else"; "endif"; "enum"; "error"; "event_t"; "extern"; "fabs";
   "false"; "float"; "for"; "get_global_id"; "get_global_size";
   "get_local_id"; "get_local_size"; "get_num_groups"; "global"; "goto";
   "half"; "if"; "ifdef"; "ifndef"; "image1d_array_t"; "image1d_buffer_t";
   "image1d_t"; "image2d_array_t"; "image2d_t"; "image3d_t"; "imaginary";
   "include"; "inline"; "int"; "into"; "kernel"; "line"; "local"; "long";
   "noreturn"; "pragma"; "private"; "quad"; "read_only"; "read_write";
   "register"; "restrict"; "return"; "sampler_t"; "short"; "shuffle";
   "signed"; "size_t"; "sizeof"; "sqrt"; "static"; "struct"; "switch";
   "true"; "typedef"; "u32"; "uchar"; "uint"; "ulong"; "undef"; "union";
   "unsigned"; "void"; "volatile"; "while"; "wide"; "write_only"]
  ++ chars printable.

Definition OPENCL_ATOMS : list string := pyset OPENCL_ATOMS_list.

(** [range(n)] and [zip] *)
Definition range (n : nat) : list nat := seq 0 n.
Definition zip {A B : Type} (l : list A) (l' : list B) : list (A * B) :=
  combine l l'.

(** ** Atomizer *)

Module Atomizer.

Record t : Type := {
  vocab : PyDict.dict string nat;
  vocab_size : nat;
  decoder : PyDict.dict nat string
}.

(** [Atomizer.__init__] *)
Definition init (vocab : PyDict.dict string nat) : t :=
  {| vocab := vocab;
     vocab_size := PyDict.len vocab;
     decoder :=
       PyDict.of_pairs Nat.eqb
         (map (fun kv => (snd kv, fst kv)) (PyDict.items vocab)) |}.

Definition atoms (self : t) : list string :=
  sorted String.leb (PyDict.keys (vocab self)).

Definition indices (self : t) : list nat :=
  sorted Nat.leb (PyDict.values (vocab self)).

(** [tokenize]; [atomize] is the method of the subclass. A [KeyError] from
    the decoder is not caught here. *)
Definition tokenize (atomize : string -> result (list nat)) (self : t)
  (text : string) : result (list string) :=
  bind (atomize text) (mapM (PyDict.getitem Nat.eqb (decoder self))).

(** [deatomize]: a [KeyError] becomes [VocabError]. *)
Definition deatomize (self : t) (encoded : list nat) : result string :=
  match mapM (PyDict.getitem Nat.eqb (decoder self)) encoded with
  | Ok atoms => Ok (join atoms)
  | Raise KeyError => Raise VocabError
  | Raise e => Raise e
  end.

End Atomizer.

(** ** GreedyAtomizer *)

Module GreedyAtomizer.

Record t : Type := {
  base : Atomizer.t;
  lookup : PyDict.dict string (list string)
}.

Definition vocab (self : t) := Atomizer.vocab (base self).
Definition decoder (self : t) := Atomizer.decoder (base self).

(** [GreedyAtomizer.__init__] *)
Definition init (vocab : PyDict.dict string nat) : t :=
  let b := Atomizer.init vocab in
  let multichars :=
    pyset (filter (fun k => (1 <? String.length k)%nat) (Atomizer.atoms b)) in
  let first_chars := pyset (map (fun a => item a 0) multichars) in
  {| base := b;
     lookup :=
       PyDict.of_pairs String.eqb
         (map (fun c => (c, filter (fun a => item a 0 =? c) multichars))
              first_chars) |}.

(** The scanner's variables: the anchor [i], the trial end [j] and the
    indices appended so far. *)
Record scan : Type := {
  si : nat;
  sj : nat;
  out : list nat
}.

(** [indices.append(self.vocab[a]); i = i'; j = j + 2], the [KeyError]
    already turned into [VocabError]. *)
Definition emit (self : t) (a : string) (i' j : nat) (acc : list nat)
  : result scan :=
  match PyDict.get String.eqb (vocab self) a with
  | Some v => Ok {| si := i'; sj := j + 2; out := acc ++ [v] |}
  | None => Raise VocabError
  end.

(** The inner [while j > i + 1: ... else: ...] loop. *)
Fixpoint shrink (self : t) (text : string) (cands : list string)
  (i j : nat) (acc : list nat) {struct j} : result scan :=
  match j with
  | 0 => emit self (item text i) (i + 1) j acc
  | S j' =>
      if (i + 1 <? j)%nat then
        if existsb (fun x => x =? slice text i j) cands
        then emit self (slice text i j) j j acc
        else shrink self text cands i j' acc
      else emit self (item text i) (i + 1) j acc
  end.

(** One pass of the outer [while i < len(text)] loop. *)
Definition step (self : t) (text : string) (s : scan) : result scan :=
  let i := si s in
  let j := sj s in
  match PyDict.get String.eqb (lookup self) (item text i) with
  | Some (c :: cs) =>
      let cands := c :: cs in
      if (j <=? String.length text)%nat
         && existsb (fun x => startswith x (slice text i j)) cands
      then Ok {| si := i; sj := j + 1; out := out s |}
      else shrink self text cands i j (out s)
  | _ => emit self (item text i) (i + 1) j (out s)
  end.

Fixpoint loop (fuel : nat) (self : t) (text : string) (s : scan)
  : result (list nat) :=
  if (si s <? String.length text)%nat then
    match fuel with
    | 0 => Raise Diverged
    | S fuel' =>
        match step self text s with
        | Ok s' => loop fuel' self text s'
        | Raise e => Raise e
        end
    end
  else Ok (out s).

(** A number of passes that always suffices. *)
Definition fuel_for (text : string) : nat :=
  let n := String.length text in n * (n + 2) + (n + 1).

Definition atomize (self : t) (text : string) : result (list nat) :=
  loop (fuel_for text) self text {| si := 0; sj := 2; out := [] |}.

Definition tokenize (self : t) (text : string) : result (list string) :=
  Atomizer.tokenize (atomize self) (base self) text.

Definition deatomize (self : t) (encoded : list nat) : result string :=
  Atomizer.deatomize (base self) encoded.

End GreedyAtomizer.

Module GreedyAtomizerFromText.

(** [dict(zip(OPENCL_ATOMS, range(len(OPENCL_ATOMS))))], where [order] is the
    order in which the set [OPENCL_ATOMS] is iterated. *)
Definition opencl_vocab (order : list string) : PyDict.dict string nat :=
  PyDict.of_pairs String.eqb (zip order (range (List.length order))).

(** [GreedyAtomizer.from_text] *)
Definition from_text (order : list string) (text : string)
  : result GreedyAtomizer.t :=
  let c := GreedyAtomizer.init (opencl_vocab order) in
  bind (GreedyAtomizer.tokenize c text) (fun toks =>
    let tokens := sorted String.leb (pyset toks) in
    let vocab :=
      PyDict.of_pairs String.eqb (zip tokens (range (List.length tokens))) in
    Ok (GreedyAtomizer.init vocab)).

End GreedyAtomizerFromText.

(** ** CharacterAtomizer *)

Module CharacterAtomizer.

(** [CharacterAtomizer.atomize] *)
Definition atomize (self : Atomizer.t) (text : string) : result (list nat) :=
  match mapM (PyDict.getitem String.eqb (Atomizer.vocab self)) (chars text) with
  | Ok l => Ok l
  | Raise KeyError => Raise VocabError
  | Raise e => Raise e
  end.

(** [collections.Counter(text)]: each character bumps its count, a new
    character enters at the end. *)
Definition Counter (text : string) : PyDict.dict string nat :=
  fold_left
    (fun d c =>
       PyDict.set String.eqb d c
         (match PyDict.get String.eqb d c with
          | Some n => n + 1
          | None => 1
          end))
    (chars text) [].

(** [CharacterAtomizer.from_text]. Unzipping [count_pairs] into
    [atoms, _] unpacks two tuples when there is at least one pair, and raises
    [ValueError] when there is none. *)
Definition from_text (text : string) : result Atomizer.t :=
  let counter := Counter text in
  let count_pairs :=
    sorted (fun x y => (snd y <=? snd x)%nat) (PyDict.items counter) in
  match count_pairs with
  | [] => Raise ValueError
  | _ :: _ =>
      let atoms := map fst count_pairs in
      Ok (Atomizer.init
            (PyDict.of_pairs String.eqb
               (zip atoms (range (List.length atoms)))))
  end.

End CharacterAtomizer.

(** ** The kernel driver (clgen/cldrive.py) *)

Module CLDrive.

(** *** numpy *)

Inductive dtype : Type :=
| int8 | uint8 | int16 | uint16 | int32 | uint32 | int64 | uint64
| float32 | float64.

Definition itemsize (t : dtype) : nat :=
  match t with
  | int8 | uint8 => 1
  | int16 | uint16 => 2
  | int32 | uint32 | float32 => 4
  | int64 | uint64 | float64 => 8
  end.

(** A number as an array or a numpy scalar holds it: a rational, an infinity
    or a NaN. An integer type holds integers only, a float type the numbers
    of its IEEE 754 format. *)
Inductive number : Type :=
| Finite (q : Q)
| Infinity (negative : bool)
| NaN.

(** [x != y] on numbers: a NaN differs from every number, itself
    included. *)
Definition number_ne (x y : number) : bool :=
  match x, y with
  | Finite p, Finite q => negb (Qeq_bool p q)
  | Infinity s, Infinity s' => xorb s s'
  | _, _ => true
  end.

(** A one-dimensional array. *)
Record ndarray : Type := {
  dt : dtype;
  elems : list number
}.

Definition nbytes (a : ndarray) : nat :=
  List.length (elems a) * itemsize (dt a).

(** The integer nearest to [q], the even one of the two when [q] lies
    halfway. *)
Definition round_half_even (q : Q) : Z :=
  let f := Qfloor q in
  match Qcompare (q - inject_Z f) (1 # 2) with
  | Lt => f
  | Gt => (f + 1)%Z
  | Eq => if Z.even f then f else (f + 1)%Z
  end.

(** The largest [k] with [2 ^ k <= q], for [q > 0]. *)
Definition Qlog2 (q : Q) : Z :=
  let k := (Z.log2 (Qnum q) - Z.log2 (Zpos (Qden q)))%Z in
  if Qle_bool (Qpower 2 k) q then k else (k - 1)%Z.

(** Rounding to the binary format with [prec] bits of precision and exponents
    from [emin] to [emax]: to the nearest number of the format, to the one
    with an even mantissa when halfway, to an infinity beyond the largest. *)
Definition round_float (prec emin emax : Z) (q : Q) : number :=
  if Qeq_bool q 0 then Finite 0
  else
    let a := Qabs q in
    let e := Z.max (Qlog2 a) emin in
    let quantum := Qpower 2 (e - (prec - 1)) in
    let r := Qred (inject_Z (round_half_even (a / quantum)) * quantum) in
    let negative := negb (Qle_bool 0 q) in
    if Qle_bool (Qpower 2 (emax + 1)) r then Infinity negative
    else Finite (if negative then Qred (- r) else r).

(** The value of [x] once stored with type [t]. A float type rounds. An
    integer type cuts the fraction off and wraps around, as C does for the
    numbers that the driver converts: the integers of [np.arange], the
    numbers below one of [np.random.rand] and the payload size. The
    conversion of an infinity or a NaN to an integer type, which C leaves
    undefined and the driver never asks for, gives zero here. *)
Definition cast (t : dtype) (x : number) : number :=
  let integer (signed : bool) (bits : Z) :=
    match x with
    | Finite q =>
        let z := Z.quot (Qnum q) (Zpos (Qden q)) in
        if signed then
          Finite
            (inject_Z ((z + 2 ^ (bits - 1)) mod 2 ^ bits - 2 ^ (bits - 1)))
        else Finite (inject_Z (z mod 2 ^ bits))
    | _ => Finite 0
    end in
  let float (prec emin emax : Z) :=
    match x with
    | Finite q => round_float prec emin emax q
    | _ => x
    end in
  match t with
  | int8 => integer true 8%Z
  | uint8 => integer false 8%Z
  | int16 => integer true 16%Z
  | uint16 => integer false 16%Z
  | int32 => integer true 32%Z
  | uint32 => integer false 32%Z
  | int64 => integer true 64%Z
  | uint64 => integer false 64%Z
  | float32 => float 24%Z (-126)%Z 127%Z
  | float64 => float 53%Z (-1022)%Z 1023%Z
  end.

(** [t(n)] for a Python integer [n], as in [dtype(size)]: numpy takes the
    integer through a C long for an integer type, which then wraps around,
    and through a C double for a float type. This is for an integer within
    the range of a C long, as every size of a payload is; beyond, Python
    raises [OverflowError], which is not modelled. *)
Definition of_int (t : dtype) (n : Z) : number :=
  match t with
  | float32 | float64 => cast t (cast float64 (Finite (inject_Z n)))
  | _ => cast t (Finite (inject_Z n))
  end.

(** [a.astype(t)] *)
Definition astype (a : ndarray) (t : dtype) : ndarray :=
  {| dt := t; elems := map (cast t) (elems a) |}.

(** [np.arange(n)] *)
Definition arange (n : nat) : ndarray :=
  {| dt := int64;
     elems := map (fun k => Finite (inject_Z (Z.of_nat k))) (seq 0 n) |}.

(** *** OpenCL objects *)

(** What [arg.devdata] holds: a numpy scalar, a [cl.Buffer] or a
    [cl.LocalMemory]. The two OpenCL objects carry the identity of the Python
    object; the contents of a buffer live in the device memory. *)
Inductive devval : Type :=
| Scalar (t : dtype) (v : number)
| Buffer (id : nat)
| LocalMemory (id : nat) (size : nat).

(** [cl.mem_flags] *)
Definition READ_WRITE : Z := 1.
Definition READ_ONLY : Z := 4.
Definition COPY_HOST_PTR : Z := 32.

Definition devmem : Type := PyDict.dict nat (list number).

Inductive command : Type :=
| Flush
| CopyHostToDevice (buffer : nat) (data : list number)
| CopyDeviceToHost (buffer : nat)
| Launch (name : string) (global : list nat) (local : nat)
    (kargs : list (option devval)).

(** A compiled kernel: its name, whether [set_args] accepts a list of
    arguments, and what a launch does to the device memory ([None]: the
    launch raises). The first argument of [launch] is the number of the event,
    so that a kernel may behave differently from run to run. *)
Record Kernel : Type := {
  FUNCTION_NAME : string;
  set_args : list (option devval) -> bool;
  launch : nat -> list nat -> nat -> list (option devval) -> devmem
           -> option devmem
}.

(** *** Kernel arguments *)

(** Modelled from the spec: [clutil.KernelArg] is not among the sources. The
    first six fields are the parsed descriptor ([numpy_type] is [None] where
    the property raises); the last four are the attributes that the driver
    attaches to an argument, [None] while an attribute is not set. *)
Record KernelArg : Type := {
  string_ : string;
  numpy_type : option dtype;
  vector_width : nat;
  is_pointer : bool;
  is_local : bool;
  is_const : bool;
  hostdata : option ndarray;
  devdata : option devval;
  bufsize : option nat;
  flags : option Z
}.

(** [clutil.KernelArg(a.string)]: the same descriptor, nothing attached. *)
Definition KernelArg_of_string (a : KernelArg) : KernelArg :=
  {| string_ := string_ a;
     numpy_type := numpy_type a;
     vector_width := vector_width a;
     is_pointer := is_pointer a;
     is_local := is_local a;
     is_const := is_const a;
     hostdata := None;
     devdata := None;
     bufsize := None;
     flags := None |}.

Definition set_hostdata (a : KernelArg) (h : option ndarray) : KernelArg :=
  {| string_ := string_ a; numpy_type := numpy_type a;
     vector_width := vector_width a; is_pointer := is_pointer a;
     is_local := is_local a; is_const := is_const a;
     hostdata := h; devdata := devdata a; bufsize := bufsize a;
     flags := flags a |}.

Definition set_devdata (a : KernelArg) (d : devval) : KernelArg :=
  {| string_ := string_ a; numpy_type := numpy_type a;
     vector_width := vector_width a; is_pointer := is_pointer a;
     is_local := is_local a; is_const := is_const a;
     hostdata := hostdata a; devdata := Some d; bufsize := bufsize a;
     flags := flags a |}.

Definition set_bufsize (a : KernelArg) (n : nat) : KernelArg :=
  {| string_ := string_ a; numpy_type := numpy_type a;
     vector_width := vector_width a; is_pointer := is_pointer a;
     is_local := is_local a; is_const := is_const a;
     hostdata := hostdata a; devdata := devdata a; bufsize := Some n;
     flags := flags a |}.

Definition set_flags (a : KernelArg) (f : Z) : KernelArg :=
  {| string_ := string_ a; numpy_type := numpy_type a;
     vector_width := vector_width a; is_pointer := is_pointer a;
     is_local := is_local a; is_const := is_const a;
     hostdata := hostdata a; devdata := devdata a; bufsize := bufsize a;
     flags := Some f |}.

(** *** The platform: what the driver takes from numpy, pyopencl and
    clutil. *)
Record Platform : Type := {
  (** [cl.Program(ctx, src).build().all_kernels()]; [None]: the build fails *)
  build : string -> option (list Kernel);
  (** [clutil.KernelPrototype.from_source(src).args] *)
  from_source : string -> list KernelArg;
  (** the numbers of the [k]-th call of [np.random.rand(n)] *)
  random_rand : nat -> nat -> list Q;
  (** start and end of the [k]-th event, in nanoseconds; [None]: the
      profiling API fails *)
  profiling_info : nat -> option (Z * Z);
  (** whether a buffer of that many bytes can be created *)
  buffer_ok : nat -> bool;
  (** whether [queue.flush()] goes through, after that many commands were
      given to the queue *)
  flush_ok : nat -> bool
}.

(** *** Objects and state *)

Record KernelPayload : Type := {
  p_ctx : nat;
  p_args : list KernelArg;
  p_ndrange : list nat;
  p_transfersize : nat
}.

Record KernelDriver : Type := {
  d_ctx : nat;
  d_src : string;
  d_program : list Kernel;
  d_prototype : list KernelArg;
  d_kernel : Kernel;
  d_name : string;
  d_wgsizes : list nat;
  d_transfers : list nat;
  d_runtimes : list Q
}.

(** The driver [self], the objects made so far, the device memory, the events
    and the calls of the random generator so far, and the commands given to
    the queue. *)
Record machine : Type := {
  driver : KernelDriver;
  next_object : nat;
  memory : devmem;
  events : nat;
  rand_calls : nat;
  queue : list command
}.

(** A computation on the machine; the state survives an exception. *)
Definition M (A : Type) : Type := machine -> result A * machine.

Definition ret {A : Type} (a : A) : M A := fun m => (Ok a, m).

Definition raise {A : Type} (e : exn) : M A := fun m => (Raise e, m).

Definition bindM {A B : Type} (c : M A) (k : A -> M B) : M B :=
  fun m =>
    match c m with
    | (Ok a, m') => k a m'
    | (Raise e, m') => (Raise e, m')
    end.

(** [try: c except Exception: raise e] *)
Definition except_all {A : Type} (c : M A) (e : exn) : M A :=
  fun m =>
    match c m with
    | (Ok a, m') => (Ok a, m')
    | (Raise _, m') => (Raise e, m')
    end.

Definition read : M machine := fun m => (Ok m, m).

Definition write (m : machine) : M unit := fun _ => (Ok tt, m).

Definition lift {A : Type} (r : result A) : M A := fun m => (r, m).

Declare Scope cl_scope.
Delimit Scope cl_scope with cl.
Notation "x <- c ;; k" := (bindM c (fun x => k))
  (at level 61, c at next level, right associativity) : cl_scope.
Notation "c ;;; k" := (bindM c (fun _ => k))
  (at level 61, right associativity) : cl_scope.
Local Open Scope cl_scope.

(** A [for] loop that rebuilds a list. *)
Fixpoint for_each {A B : Type} (f : A -> M B) (l : list A) : M (list B) :=
  match l with
  | [] => ret []
  | x :: l' => y <- f x ;; ys <- for_each f l' ;; ret (y :: ys)
  end.

Section Operations.

Variable P : Platform.

(** *** OpenCL primitives *)

Definition new_object : M nat :=
  fun m =>
    (Ok (next_object m),
     {| driver := driver m; next_object := S (next_object m);
        memory := memory m; events := events m;
        rand_calls := rand_calls m; queue := queue m |}).

Definition store (id : nat) (data : list number) : M unit :=
  fun m =>
    (Ok tt,
     {| driver := driver m; next_object := next_object m;
        memory := PyDict.set Nat.eqb (memory m) id data;
        events := events m; rand_calls := rand_calls m;
        queue := queue m |}).

(** A command enters the queue; the result is its event. *)
Definition enqueue (c : command) : M nat :=
  fun m =>
    (Ok (events m),
     {| driver := driver m; next_object := next_object m;
        memory := memory m; events := S (events m);
        rand_calls := rand_calls m; queue := queue m ++ [c] |}).

(** [queue.flush()]: the flush is given to the queue, and raises when the
    platform does not let it through. *)
Definition flush : M unit :=
  fun m =>
    (if flush_ok P (List.length (queue m)) then Ok tt else Raise OtherError,
     {| driver := driver m; next_object := next_object m;
        memory := memory m; events := events m;
        rand_calls := rand_calls m; queue := queue m ++ [Flush] |}).

(** [cl.Buffer(ctx, flags, hostbuf=h)], the flags holding [COPY_HOST_PTR] *)
Definition Buffer_new (ctx : nat) (fl : Z) (h : ndarray) : M devval :=
  if buffer_ok P (nbytes h) then
    id <- new_object ;;
    store id (elems h) ;;;
    ret (Buffer id)
  else raise OtherError.

(** [cl.LocalMemory(size)] *)
Definition LocalMemory_new (size : nat) : M devval :=
  id <- new_object ;; ret (LocalMemory id size).

(** [cl.enqueue_copy(queue, arg.devdata, arg.hostdata, is_blocking=False)] *)
Definition enqueue_copy_to_device (d : option devval) (h : ndarray) : M nat :=
  match d with
  | Some (Buffer id) =>
      store id (elems h) ;;;
      enqueue (CopyHostToDevice id (elems h))
  | _ => raise OtherError
  end.

(** [cl.enqueue_copy(queue, arg.hostdata, arg.devdata, is_blocking=False)]:
    the host array is overwritten; the result is the event and the array. *)
Definition enqueue_copy_to_host (h : ndarray) (d : option devval)
  : M (nat * ndarray) :=
  match d with
  | Some (Buffer id) =>
      m <- read ;;
      match PyDict.get Nat.eqb (memory m) id with
      | Some data =>
          ev <- enqueue (CopyDeviceToHost id) ;;
          ret (ev, {| dt := dt h; elems := data |})
      | None => raise OtherError
      end
  | _ => raise OtherError
  end.

(** [get_event_time] *)
Definition get_event_time (event : nat) : M Q :=
  match profiling_info P event with
  | Some (tstart, tend) =>
      ret (inject_Z (tend - tstart) / inject_Z 1000000)%Q
  | None => raise E_BAD_PROFILE
  end.

(** [np.arange] and [np.random.rand] as array generators; the random
    numbers are doubles. *)
Definition np_arange (n : nat) : M ndarray := ret (arange n).

Definition np_random_rand (n : nat) : M ndarray :=
  fun m =>
    (Ok {| dt := float64;
           elems := map (fun q => cast float64 (Finite q))
                        (random_rand P (rand_calls m) n) |},
     {| driver := driver m; next_object := next_object m;
        memory := memory m; events := events m;
        rand_calls := S (rand_calls m); queue := queue m |}).

(** *** KernelPayload *)

(** Reading an attribute that may not be set. *)
Definition attribute {A : Type} (x : option A) : M A :=
  match x with
  | Some a => ret a
  | None => raise AttributeError
  end.

(** [copy.deepcopy(src.devdata)]: a numpy scalar is copied. The payloads of
    the generators never reach the other cases: an OpenCL object cannot be
    copied. *)
Definition deepcopy_devdata (d : option devval) : M devval :=
  match d with
  | Some (Scalar t v) => ret (Scalar t v)
  | Some _ => raise OtherError
  | None => raise AttributeError
  end.

(** The body of the loop of [KernelPayload.__deepcopy__]. *)
Definition deepcopy_arg (ctx : nat) (src : KernelArg) : M KernelArg :=
  let dst := KernelArg_of_string src in
  match hostdata src with
  | None =>
      if is_local src then
        let dst := set_hostdata dst None in
        size <- attribute (bufsize src) ;;
        let dst := set_bufsize dst size in
        d <- LocalMemory_new size ;;
        ret (set_devdata dst d)
      else
        let dst := set_hostdata dst None in
        d <- deepcopy_devdata (devdata src) ;;
        ret (set_devdata dst d)
  | Some h =>
      let copy := {| dt := dt h; elems := elems h |} in
      let dst := set_hostdata dst (Some copy) in
      fl <- attribute (flags src) ;;
      let dst := set_flags dst fl in
      d <- Buffer_new ctx fl copy ;;
      ret (set_devdata dst d)
  end.

(** [KernelPayload.__deepcopy__] *)
Definition deepcopy (self : KernelPayload) : M KernelPayload :=
  args <- for_each (deepcopy_arg (p_ctx self)) (p_args self) ;;
  ret {| p_ctx := p_ctx self; p_args := args;
         p_ndrange := p_ndrange self;
         p_transfersize := p_transfersize self |}.

(** [x.devdata != y.devdata]: numpy scalars compare by value;
    [cl.Buffer] and [cl.LocalMemory] define no comparison, so two of them
    differ unless they are the same object. *)
Definition devdata_ne (x y : option devval) : bool :=
  match x, y with
  | Some (Scalar _ v), Some (Scalar _ w) => number_ne v w
  | Some (Buffer i), Some (Buffer j) => negb (i =? j)%nat
  | Some (LocalMemory i _), Some (LocalMemory j _) => negb (i =? j)%nat
  | None, None => false
  | _, _ => true
  end.

(** The loop of [KernelPayload.__eq__] over [zip(self.args, other.args)].
    Both arguments are instances of [KernelArg], so the comparison of their
    types never returns. [len(None)] raises [TypeError]. *)
Fixpoint args_eq (xs ys : list KernelArg) : result bool :=
  match xs, ys with
  | x :: xs', y :: ys' =>
      match hostdata x with
      | None =>
          if devdata_ne (devdata x) (devdata y) then Ok false
          else args_eq xs' ys'
      | Some hx =>
          match hostdata y with
          | None => Raise TypeError
          | Some hy =>
              if negb (List.length (elems hx) =? List.length (elems hy))%nat
              then Ok false
              else if existsb (fun e => number_ne (fst e) (snd e))
                              (zip (elems hx) (elems hy))
              then Ok false
              else args_eq xs' ys'
          end
      end
  | _, _ => Ok true
  end.

(** [KernelPayload.__eq__] *)
Definition payload_eq (self other : KernelPayload) : result bool :=
  if negb (p_ctx self =? p_ctx other)%nat then Ok false
  else if negb (List.length (p_args self) =? List.length (p_args other))%nat
  then Ok false
  else args_eq (p_args self) (p_args other).

(** [KernelPayload.__ne__] *)
Definition payload_ne (self other : KernelPayload) : result bool :=
  bind (payload_eq self other) (fun b => Ok (negb b)).

(** [KernelPayload.kargs] *)
Definition kargs (self : KernelPayload) : list (option devval) :=
  map devdata (p_args self).

(** The loop of [host_to_device], [elapsed] being the time so far. *)
Fixpoint host_to_device_loop (args : list KernelArg) (elapsed : Q) : M Q :=
  match args with
  | [] => ret elapsed
  | arg :: rest =>
      match hostdata arg with
      | None => host_to_device_loop rest elapsed
      | Some h =>
          event <- enqueue_copy_to_device (devdata arg) h ;;
          t <- get_event_time event ;;
          host_to_device_loop rest (elapsed + t)%Q
      end
  end.

(** [KernelPayload.host_to_device] *)
Definition host_to_device (self : KernelPayload) : M Q :=
  host_to_device_loop (p_args self) 0%Q.

(** The loop of [device_to_host]: the time of the event is read and dropped,
    [elapsed] is never updated. The arguments come back with the host arrays
    that the copies have overwritten. *)
Fixpoint device_to_host_loop (args : list KernelArg) (elapsed : Q)
  : M (Q * list KernelArg) :=
  match args with
  | [] => ret (elapsed, [])
  | arg :: rest =>
      match hostdata arg with
      | None =>
          r <- device_to_host_loop rest elapsed ;;
          ret (fst r, arg :: snd r)
      | Some h =>
          if is_const arg then
            r <- device_to_host_loop rest elapsed ;;
            ret (fst r, arg :: snd r)
          else
            eh <- enqueue_copy_to_host h (devdata arg) ;;
            _ <- get_event_time (fst eh) ;;
            r <- device_to_host_loop rest elapsed ;;
            ret (fst r, set_hostdata arg (Some (snd eh)) :: snd r)
      end
  end.

(** [KernelPayload.device_to_host]: what it returns, and the payload after
    the copies. *)
Definition device_to_host (self : KernelPayload) : M (Q * KernelPayload) :=
  r <- device_to_host_loop (p_args self) 0%Q ;;
  ret (fst r,
       {| p_ctx := p_ctx self; p_args := snd r;
          p_ndrange := p_ndrange self;
          p_transfersize := p_transfersize self |}).

(** The body of the loop of [_create_payload]: the argument with its data,
    and what it adds to [transfer]. *)
Definition create_arg (nparray : nat -> M ndarray) (ctx : nat) (size : nat)
  (arg : KernelArg) : M (KernelArg * nat) :=
  let arg := set_hostdata arg None in
  match numpy_type arg with
  | None => raise OtherError
  | Some dtype =>
      let veclength := size * vector_width arg in
      if is_pointer arg && is_local arg then
        nonbuf <- nparray veclength ;;
        let arg := set_bufsize arg (nbytes nonbuf) in
        d <- LocalMemory_new (nbytes nonbuf) ;;
        ret (set_devdata arg d, 0)
      else if is_pointer arg then
        a <- nparray veclength ;;
        let h := astype a dtype in
        let arg := set_hostdata arg (Some h) in
        let fl := COPY_HOST_PTR in
        let fl := Z.lor fl (if is_const arg then READ_ONLY else READ_WRITE) in
        let arg := set_flags arg fl in
        d <- Buffer_new ctx fl h ;;
        let arg := set_devdata arg d in
        ret (arg, if is_const arg then nbytes h else 2 * nbytes h)
      else
        ret (set_devdata arg (Scalar dtype (of_int dtype (Z.of_nat size))), 0)
  end.

(** [KernelPayload._create_payload] *)
Definition _create_payload (nparray : nat -> M ndarray) (size : nat)
  : M KernelPayload :=
  m <- read ;;
  let args := map KernelArg_of_string (d_prototype (driver m)) in
  made <- except_all
            (for_each (create_arg nparray (d_ctx (driver m)) size) args)
            E_BAD_ARGS ;;
  let transfer := fold_left (fun t r => t + snd r) made 0 in
  ret {| p_ctx := d_ctx (driver m); p_args := map fst made;
         p_ndrange := [size]; p_transfersize := transfer |}.

Definition create_sequential (size : nat) : M KernelPayload :=
  _create_payload np_arange size.

Definition create_random (size : nat) : M KernelPayload :=
  _create_payload np_random_rand size.

(** *** KernelDriver *)

(** [KernelDriver.__init__] *)
Definition KernelDriver_init (ctx : nat) (source : string)
  : result KernelDriver :=
  match build P source with
  | None => Raise E_BAD_CODE
  | Some kernels =>
      let prototype := from_source P source in
      match kernels with
      | [kernel] =>
          Ok {| d_ctx := ctx; d_src := source; d_program := kernels;
                d_prototype := prototype; d_kernel := kernel;
                d_name := FUNCTION_NAME kernel;
                d_wgsizes := []; d_transfers := []; d_runtimes := [] |}
      | _ => Raise E_UGLY_CODE
      end
  end.

(** [self.kernel(queue, ndrange, (local_size_x,), *kargs)] *)
Definition launch_kernel (ndrange : list nat) (local_size_x : nat)
  (ka : list (option devval)) : M nat :=
  m <- read ;;
  let k := d_kernel (driver m) in
  match launch k (events m) ndrange local_size_x ka (memory m) with
  | Some mem' =>
      write {| driver := driver m; next_object := next_object m;
               memory := mem'; events := events m;
               rand_calls := rand_calls m; queue := queue m |} ;;;
      enqueue (Launch (FUNCTION_NAME k) ndrange local_size_x ka)
  | None => raise OtherError
  end.

(** The three [append]s at the end of [__call__]. *)
Definition record (local_size_x : nat) (elapsed : Q) (transfersize : nat)
  : M unit :=
  fun m =>
    let d := driver m in
    (Ok tt,
     {| driver :=
          {| d_ctx := d_ctx d; d_src := d_src d; d_program := d_program d;
             d_prototype := d_prototype d; d_kernel := d_kernel d;
             d_name := d_name d;
             d_wgsizes := d_wgsizes d ++ [local_size_x];
             d_transfers := d_transfers d ++ [transfersize];
             d_runtimes := d_runtimes d ++ [elapsed] |};
        next_object := next_object m; memory := memory m;
        events := events m; rand_calls := rand_calls m;
        queue := queue m |}).

(** [KernelDriver.__call__] *)
Definition call (payload : KernelPayload) : M KernelPayload :=
  flush ;;;
  let elapsed := 0%Q in
  output <- deepcopy payload ;;
  let ka := kargs output in
  t <- host_to_device output ;;
  let elapsed := (elapsed + t)%Q in
  m <- read ;;
  (if set_args (d_kernel (driver m)) ka then ret tt else raise E_BAD_ARGS) ;;;
  x <- lift (match p_ndrange output with
             | x :: _ => Ok x
             | [] => Raise IndexError
             end) ;;
  let local_size_x := Nat.min x 256 in
  event <- launch_kernel (p_ndrange output) local_size_x ka ;;
  t <- get_event_time event ;;
  let elapsed := (elapsed + t)%Q in
  r <- device_to_host output ;;
  let elapsed := (elapsed + fst r)%Q in
  let output := snd r in
  record local_size_x elapsed (p_transfersize payload) ;;;
  flush ;;;
  ret output.

(** [assert_constraint] of [validate] *)
Definition assert_constraint (constraint : bool) (err : exn) : M unit :=
  if constraint then ret tt else raise err.

(** [while B1in == A1in: B1in = create_random(self, size)] *)
Fixpoint regenerate (fuel : nat) (size : nat) (A1in B1in : KernelPayload)
  : M KernelPayload :=
  same <- lift (payload_eq B1in A1in) ;;
  if same then
    match fuel with
    | 0 => raise Diverged
    | S fuel' =>
        B1in' <- create_random size ;;
        regenerate fuel' size A1in B1in'
    end
  else ret B1in.

(** [KernelDriver.validate] *)
Definition validate (fuel : nat) (size : nat) : M unit :=
  A1in <- create_sequential size ;;
  A2in <- deepcopy A1in ;;
  B1in <- create_random size ;;
  B1in <- regenerate fuel size A1in B1in ;;
  B2in <- deepcopy B1in ;;
  c <- lift (payload_eq A1in A2in) ;;
  assert_constraint c E_BAD_DRIVER ;;;
  c <- lift (payload_eq B1in B2in) ;;
  assert_constraint c E_BAD_DRIVER ;;;
  A1out <- call A1in ;;
  B1out <- call B1in ;;
  A2out <- call A2in ;;
  B2out <- call B2in ;;
  c <- lift (payload_ne A1in A1out) ;;
  assert_constraint c E_NO_OUTPUTS ;;;
  c <- lift (payload_ne B1in B1out) ;;
  assert_constraint c E_NO_OUTPUTS ;;;
  c <- lift (payload_eq A1out A2out) ;;
  assert_constraint c E_NONDETERMINISTIC ;;;
  c <- lift (payload_eq B1out B2out) ;;
  assert_constraint c E_NONDETERMINISTIC ;;;
  m <- read ;;
  if existsb (fun x => negb (is_const x)) (d_prototype (driver m)) then
    c <- lift (payload_ne A1out B1out) ;;
    assert_constraint c E_INPUT_INSENSITIVE
  else ret tt.

End Operations.

End CLDrive.

(** ** Example platforms

    Small kernels and platforms on which the driver can be run. *)

Module Demo.

Import CLDrive.

Definition arg (text : string) (t : dtype) (pointer loc const : bool)
  : KernelArg :=
  {| string_ := text; numpy_type := Some t; vector_width := 1;
     is_pointer := pointer; is_local := loc; is_const := const;
     hostdata := None; devdata := None; bufsize := None; flags := None |}.

(** [__global int* a, const int n] *)
Definition args_inc : list KernelArg :=
  [arg "__global int* a" int32 true false false;
   arg "const int n" int32 false false true].

(** [__global float* a, __local int* c] *)
Definition args_local : list KernelArg :=
  [arg "__global float* a" float32 true false false;
   arg "__local int* c" int32 true true false].

(** The buffers among the arguments. *)
Definition buffers (ka : list (option devval)) : list nat :=
  flat_map (fun d => match d with Some (Buffer id) => [id] | _ => [] end) ka.

(** One more, as the kernel computes it. *)
Definition plus_one (x : number) : number :=
  match x with
  | Finite q => Finite (Qred (q + 1))
  | _ => x
  end.

(** A kernel that adds one to every element of its first buffer. *)
Definition inc_body (ka : list (option devval)) (mem : devmem) : devmem :=
  match buffers ka with
  | id :: _ =>
      match PyDict.get Nat.eqb mem id with
      | Some data =>
          PyDict.set Nat.eqb mem id (map plus_one data)
      | None => mem
      end
  | [] => mem
  end.

Definition kernel_inc : Kernel :=
  {| FUNCTION_NAME := "A";
     set_args := fun _ => true;
     launch := fun _ _ _ ka mem => Some (inc_body ka mem) |}.

(** A kernel with an empty body. *)
Definition kernel_empty : Kernel :=
  {| FUNCTION_NAME := "A";
     set_args := fun _ => true;
     launch := fun _ _ _ _ mem => Some mem |}.

(** Every event takes three milliseconds; the random numbers are all one
    half. *)
Definition platform (k : Kernel) (args : list KernelArg) : Platform :=
  {| build := fun _ => Some [k];
     from_source := fun _ => args;
     random_rand := fun _ n => repeat (1 # 2)%Q n;
     profiling_info := fun _ => Some (0%Z, 3000000%Z);
     buffer_ok := fun n => (0 <? n)%nat;
     flush_ok := fun _ => true |}.

Definition boot (P : Platform) (src : string) : machine :=
  {| driver :=
       match KernelDriver_init P 0 src with
       | Ok d => d
       | Raise _ =>
           {| d_ctx := 0; d_src := src; d_program := [];
              d_prototype := []; d_kernel := kernel_empty; d_name := "";
              d_wgsizes := []; d_transfers := []; d_runtimes := [] |}
       end;
     next_object := 0; memory := []; events := 0; rand_calls := 0;
     queue := [] |}.

(** The value of a computation that is known to return. *)
Definition value {A : Type} (default : A) (r : result A * machine) : A :=
  match fst r with
  | Ok a => a
  | Raise _ => default
  end.

Definition no_payload : KernelPayload :=
  {| p_ctx := 0; p_args := []; p_ndrange := []; p_transfersize := 0 |}.

(** The incrementing kernel on [__global int* a, const int n], and the
    sequential payload of size 4 made on the fresh machine. *)
Definition P_inc : Platform := platform kernel_inc args_inc.
Definition m0_inc : machine := boot P_inc "A".
Definition A1_inc : KernelPayload :=
  value no_payload (create_sequential P_inc 4 m0_inc).
Definition m1_inc : machine := snd (create_sequential P_inc 4 m0_inc).

(** The same with the empty kernel. *)
Definition P_empty : Platform := platform kernel_empty args_inc.

(** The incrementing kernel on a platform that lets a flush through on an
    empty queue only: the device is lost once it has been given work. *)
Definition P_lost : Platform :=
  {| build := build P_inc;
     from_source := from_source P_inc;
     random_rand := random_rand P_inc;
     profiling_info := profiling_info P_inc;
     buffer_ok := buffer_ok P_inc;
     flush_ok := fun k => (k =? 0)%nat |}.

(** The steps of [validate] with fuel 3 and size 4 on a fresh machine, one
    after the other: the result of each step and the machine after it. *)
Definition v_A1in (P : Platform) := create_sequential P 4 (boot P "A").
Definition v_A2in (P : Platform) :=
  deepcopy P (value no_payload (v_A1in P)) (snd (v_A1in P)).
Definition v_B0 (P : Platform) := create_random P 4 (snd (v_A2in P)).
Definition v_B1in (P : Platform) :=
  regenerate P 3 4 (value no_payload (v_A1in P))
    (value no_payload (v_B0 P)) (snd (v_B0 P)).
Definition v_B2in (P : Platform) :=
  deepcopy P (value no_payload (v_B1in P)) (snd (v_B1in P)).
Definition v_A1out (P : Platform) :=
  call P (value no_payload (v_A1in P)) (snd (v_B2in P)).
Definition v_B1out (P : Platform) :=
  call P (value no_payload (v_B1in P)) (snd (v_A1out P)).
Definition v_A2out (P : Platform) :=
  call P (value no_payload (v_A2in P)) (snd (v_B1out P)).
Definition v_B2out (P : Platform) :=
  call P (value no_payload (v_B2in P)) (snd (v_A2out P)).

(** A kernel with a pointer to local memory. *)
Definition P_local : Platform := platform kernel_inc args_local.
Definition m0_local : machine := boot P_local "AB".
Definition A1_local : KernelPayload :=
  value no_payload (create_sequential P_local 4 m0_local).
Definition m1_local : machine := snd (create_sequential P_local 4 m0_local).

(** A kernel with scalar arguments only: [const int n, const float x]. *)
Definition args_scalar : list KernelArg :=
  [arg "const int n" int32 false false true;
   arg "const float x" float32 false false true].
Definition P_scalar : Platform := platform kernel_empty args_scalar.
Definition m0_scalar : machine := boot P_scalar "A".

End Demo.

(* ================================================================= *)
(** * Properties *)

(** ** Results *)

Lemma mapM_app {A B : Type} (f : A -> result B) (l1 l2 : list A) ys1 ys2 :
  mapM f l1 = Ok ys1 -> mapM f l2 = Ok ys2 ->
  mapM f (l1 ++ l2) = Ok (ys1 ++ ys2).
Proof.
  revert ys1; induction l1 as [|x l1 IH]; intros ys1 H1 H2; simpl in *.
  - injection H1 as <-. exact H2.
  - destruct (f x) as [y|e]; [|discriminate].
    destruct (mapM f l1) as [ys|e]; [|discriminate].
    injection H1 as <-. rewrite (IH ys eq_refl H2). reflexivity.
Qed.

Lemma mapM_map {A B C : Type} (f : A -> result B) (g : C -> A) (h : C -> B)
  (l : list C) :
  (forall x, In x l -> f (g x) = Ok (h x)) ->
  mapM f (map g l) = Ok (map h l).
Proof.
  induction l as [|x l IH]; intros H; simpl; [reflexivity|].
  rewrite (H x (or_introl eq_refl)), IH; [reflexivity|].
  intros y Hy; apply H; right; exact Hy.
Qed.

(** ** Dictionaries *)

Section DictFacts.

Context {K V : Type}.
Variable eqb : K -> K -> bool.
Hypothesis eqb_spec : forall x y, reflect (x = y) (eqb x y).

Lemma get_In (d : PyDict.dict K V) k v :
  PyDict.get eqb d k = Some v -> In (k, v) d.
Proof.
  induction d as [|[k' v'] d IH]; simpl; [discriminate|].
  destruct (eqb_spec k k') as [->|Hne]; intros H.
  - injection H as ->. left; reflexivity.
  - right; apply IH, H.
Qed.

Lemma get_None (d : PyDict.dict K V) k :
  PyDict.get eqb d k = None <-> ~ In k (PyDict.keys d).
Proof.
  induction d as [|[k' v'] d IH]; simpl; [tauto|].
  destruct (eqb_spec k k') as [->|Hne].
  - split; [discriminate|]. intros H; exfalso; apply H; left; reflexivity.
  - rewrite IH. split; intros H; [intros [E|E]; [congruence|tauto]|tauto].
Qed.

Lemma get_Some_key (d : PyDict.dict K V) k :
  In k (PyDict.keys d) -> exists v, PyDict.get eqb d k = Some v.
Proof.
  intros H. destruct (PyDict.get eqb d k) as [v|] eqn:E; [eauto|].
  apply get_None in E; contradiction.
Qed.

Lemma In_get (d : PyDict.dict K V) k v :
  PyDict.wf d -> In (k, v) d -> PyDict.get eqb d k = Some v.
Proof.
  unfold PyDict.wf, PyDict.keys.
  induction d as [|[k' v'] d IH]; simpl; intros Hnd Hin; [contradiction|].
  inversion Hnd as [|? ? Hk Hnd']; subst.
  destruct Hin as [E|Hin].
  - injection E as -> ->. destruct (eqb_spec k k); congruence.
  - destruct (eqb_spec k k') as [->|Hne]; [|apply IH; assumption].
    exfalso; apply Hk. change k' with (fst (k', v)). apply in_map, Hin.
Qed.

Lemma set_fresh (d : PyDict.dict K V) k v :
  ~ In k (PyDict.keys d) -> PyDict.set eqb d k v = d ++ [(k, v)].
Proof.
  induction d as [|[k' v'] d IH]; simpl; intros H; [reflexivity|].
  destruct (eqb_spec k k') as [->|Hne]; [tauto|].
  rewrite IH; tauto.
Qed.

Lemma of_pairs_app (l : list (K * V)) (acc : PyDict.dict K V) :
  NoDup (map fst (acc ++ l)) ->
  fold_left (fun d kv => PyDict.set eqb d (fst kv) (snd kv)) l acc = acc ++ l.
Proof.
  revert acc; induction l as [|[k v] l IH]; intros acc Hnd; simpl.
  - rewrite app_nil_r; reflexivity.
  - assert (Hk : ~ In k (PyDict.keys acc)).
    { unfold PyDict.keys. rewrite map_app in Hnd; simpl in Hnd.
      apply NoDup_remove_2 in Hnd. intros Hin; apply Hnd.
      apply in_or_app; left; exact Hin. }
    rewrite (set_fresh _ _ _ Hk), IH; rewrite <- app_assoc; simpl; auto.
Qed.

(** [dict(pairs)] keeps a list of pairs with distinct keys as it is. *)
Lemma of_pairs_nodup (l : list (K * V)) :
  NoDup (map fst l) -> PyDict.of_pairs eqb l = l.
Proof.
  intros H. unfold PyDict.of_pairs. rewrite of_pairs_app; auto.
Qed.

End DictFacts.

Lemma map_fst_combine {A B : Type} (l : list A) (l' : list B) :
  List.length l = List.length l' -> map fst (combine l l') = l.
Proof.
  revert l'; induction l as [|x l IH]; intros [|y l'] H; simpl in *;
    try discriminate; [reflexivity|].
  f_equal; apply IH; lia.
Qed.

Lemma map_snd_combine {A B : Type} (l : list A) (l' : list B) :
  List.length l = List.length l' -> map snd (combine l l') = l'.
Proof.
  revert l'; induction l as [|x l IH]; intros [|y l'] H; simpl in *;
    try discriminate; [reflexivity|].
  f_equal; apply IH; lia.
Qed.

(** [dict(zip(l, range(len(l))))] for distinct [l]. *)
Lemma zip_range_dict (l : list string) :
  NoDup l ->
  let d := PyDict.of_pairs String.eqb (zip l (range (List.length l))) in
  d = combine l (seq 0 (List.length l))
  /\ PyDict.keys d = l /\ PyDict.values d = seq 0 (List.length l).
Proof.
  intros Hnd d. unfold d, zip, range.
  assert (Hl : List.length l = List.length (seq 0 (List.length l)))
    by (rewrite length_seq; reflexivity).
  rewrite (of_pairs_nodup String.eqb String.eqb_spec).
  - unfold PyDict.keys, PyDict.values.
    rewrite map_fst_combine, map_snd_combine by exact Hl. auto.
  - rewrite map_fst_combine by exact Hl. exact Hnd.
Qed.

(** ** Strings *)

Lemma substring_nil n m : substring n m "" = "".
Proof. destruct n, m; reflexivity. Qed.

Lemma substring_split (s : string) (i j : nat) :
  i <= j -> (substring 0 i s ++ substring i (j - i) s)%string = substring 0 j s.
Proof.
  revert i j; induction s as [|c s IH]; intros i j Hij.
  - rewrite !substring_nil; reflexivity.
  - destruct i as [|i].
    + rewrite Nat.sub_0_r. reflexivity.
    + destruct j as [|j]; [lia|]. simpl.
      rewrite IH by lia. reflexivity.
Qed.

Lemma substring_all (s : string) (n : nat) :
  String.length s <= n -> substring 0 n s = s.
Proof.
  revert n; induction s as [|c s IH]; intros n H.
  - apply substring_nil.
  - destruct n as [|n]; simpl in *; [lia|]. rewrite IH by lia. reflexivity.
Qed.

Lemma append_nil_r (s : string) : (s ++ "")%string = s.
Proof. induction s as [|c s IH]; simpl; [|rewrite IH]; reflexivity. Qed.

Lemma append_assoc (a b c : string) :
  ((a ++ b) ++ c = a ++ (b ++ c))%string.
Proof. induction a as [|x a IH]; simpl; [|rewrite IH]; reflexivity. Qed.

Lemma join_snoc (l : list string) (a : string) :
  join (l ++ [a]) = (join l ++ a)%string.
Proof.
  unfold join. induction l as [|x l IH]; simpl; [reflexivity|].
  destruct l as [|y l].
  - simpl. reflexivity.
  - change ((y :: l) ++ [a])%list with (y :: (l ++ [a]))%list in *.
    rewrite IH. simpl. rewrite append_assoc. reflexivity.
Qed.

(** ** The decoder inverts an injective vocabulary *)

Lemma decoder_get (vocab : PyDict.dict string nat) k v :
  PyDict.wf vocab -> NoDup (PyDict.values vocab) ->
  PyDict.get String.eqb vocab k = Some v ->
  PyDict.get Nat.eqb (Atomizer.decoder (Atomizer.init vocab)) v = Some k.
Proof.
  intros Hwf Hinj Hget. simpl. unfold PyDict.items.
  assert (Hfst : map fst (map (fun kv : string * nat => (snd kv, fst kv)) vocab)
                 = PyDict.values vocab)
    by (unfold PyDict.values; rewrite map_map; reflexivity).
  rewrite (of_pairs_nodup Nat.eqb Nat.eqb_spec) by (rewrite Hfst; exact Hinj).
  apply (In_get Nat.eqb Nat.eqb_spec).
  - unfold PyDict.wf, PyDict.keys. rewrite Hfst. exact Hinj.
  - apply (get_In String.eqb String.eqb_spec) in Hget.
    change (v, k) with ((fun kv : string * nat => (snd kv, fst kv)) (k, v)).
    apply in_map, Hget.
Qed.

(** ** The greedy scan always advances *)

Section GreedyProgress.

Variable self : GreedyAtomizer.t.
Variable text : string.

Let n := String.length text.

(** The passes that remain are bounded by this measure. *)
Definition scan_measure (s : GreedyAtomizer.scan) : nat :=
  (String.length text - GreedyAtomizer.si s) * (String.length text + 2)
  + (String.length text + 1 - GreedyAtomizer.sj s).

Lemma emit_shape a i' j acc s' :
  GreedyAtomizer.emit self a i' j acc = Ok s' ->
  GreedyAtomizer.si s' = i' /\ GreedyAtomizer.sj s' = j + 2.
Proof.
  unfold GreedyAtomizer.emit.
  destruct (PyDict.get _ _ _); [|discriminate].
  intros H; injection H as <-; simpl; auto.
Qed.

Lemma emit_not_diverged a i' j acc :
  GreedyAtomizer.emit self a i' j acc <> Raise Diverged.
Proof.
  unfold GreedyAtomizer.emit. destruct (PyDict.get _ _ _); discriminate.
Qed.

(** The shrink loop ends with the anchor moved on, after decreasing [j] down
    to a match or to [i + 1]. *)
Lemma shrink_progress cands i j acc s' :
  GreedyAtomizer.shrink self text cands i j acc = Ok s' ->
  i < GreedyAtomizer.si s' /\
  (GreedyAtomizer.si s' = i + 1 \/
   (i + 1 < GreedyAtomizer.si s' /\ GreedyAtomizer.si s' <= j)).
Proof.
  induction j as [|j IH]; simpl.
  - intros H; apply emit_shape in H; lia.
  - destruct (i + 1 <? S j)%nat eqn:Hlt.
    + apply Nat.ltb_lt in Hlt.
      destruct (existsb _ cands).
      * intros H; apply emit_shape in H; lia.
      * intros H; apply IH in H; lia.
    + intros H; apply emit_shape in H; lia.
Qed.

Lemma shrink_not_diverged cands i j acc :
  GreedyAtomizer.shrink self text cands i j acc <> Raise Diverged.
Proof.
  induction j as [|j IH]; simpl.
  - apply emit_not_diverged.
  - destruct (i + 1 <? S j)%nat; [|apply emit_not_diverged].
    destruct (existsb _ cands); [apply emit_not_diverged|exact IH].
Qed.

Lemma step_progress s s' :
  GreedyAtomizer.step self text s = Ok s' ->
  GreedyAtomizer.si s < GreedyAtomizer.si s' \/
  (GreedyAtomizer.si s' = GreedyAtomizer.si s /\
   GreedyAtomizer.sj s' = GreedyAtomizer.sj s + 1 /\
   GreedyAtomizer.sj s <= String.length text).
Proof.
  unfold GreedyAtomizer.step.
  destruct (PyDict.get _ _ _) as [[|c cs]|].
  - intros H; apply emit_shape in H; lia.
  - destruct (GreedyAtomizer.sj s <=? String.length text)%nat eqn:Hj;
      cbn [andb].
    + destruct (existsb _ (c :: cs)).
      * intros H; injection H as <-; simpl.
        apply Nat.leb_le in Hj. right; auto.
      * intros H; apply shrink_progress in H; lia.
    + intros H; apply shrink_progress in H; lia.
  - intros H; apply emit_shape in H; lia.
Qed.

Lemma step_not_diverged s :
  GreedyAtomizer.step self text s <> Raise Diverged.
Proof.
  unfold GreedyAtomizer.step.
  destruct (PyDict.get _ _ _) as [[|c cs]|]; try apply emit_not_diverged.
  destruct (_ && _); [discriminate|apply shrink_not_diverged].
Qed.

Lemma step_measure s s' :
  GreedyAtomizer.si s < String.length text ->
  GreedyAtomizer.step self text s = Ok s' ->
  scan_measure s' < scan_measure s.
Proof.
  intros Hi Hstep. apply step_progress in Hstep. unfold scan_measure.
  destruct Hstep as [Hlt|(Ei & Ej & Hle)].
  - assert (String.length text - GreedyAtomizer.si s'
            <= String.length text - GreedyAtomizer.si s - 1) by lia.
    assert (String.length text - GreedyAtomizer.si s >= 1) by lia.
    nia.
  - rewrite Ei, Ej. lia.
Qed.

(** With fuel above the measure the loop ends, and any further fuel is not
    used. *)
Lemma loop_enough_fuel fuel s :
  scan_measure s <= fuel ->
  GreedyAtomizer.loop fuel self text s <> Raise Diverged /\
  forall extra,
    GreedyAtomizer.loop (fuel + extra) self text s
    = GreedyAtomizer.loop fuel self text s.
Proof.
  revert s; induction fuel as [|fuel IH]; intros s Hm.
  - assert (Hdone : (GreedyAtomizer.si s <? String.length text)%nat = false).
    { apply Nat.ltb_ge. unfold scan_measure in Hm.
      destruct (Nat.le_gt_cases (String.length text) (GreedyAtomizer.si s));
        [assumption|]. nia. }
    split.
    + simpl. rewrite Hdone. discriminate.
    + intros extra. destruct extra; simpl; rewrite Hdone; reflexivity.
  - simpl.
    destruct (GreedyAtomizer.si s <? String.length text)%nat eqn:Hi.
    + apply Nat.ltb_lt in Hi.
      destruct (GreedyAtomizer.step self text s) as [s'|e] eqn:Hstep.
      * pose proof (step_measure s s' Hi Hstep) as Hdec.
        destruct (IH s' ltac:(lia)) as [Hnd Hext]. split; [exact Hnd|].
        intros extra. apply Hext.
      * split; [|reflexivity].
        intros E; injection E as ->. exact (step_not_diverged s Hstep).
    + split; [discriminate|reflexivity].
Qed.

Lemma init_measure :
  scan_measure {| GreedyAtomizer.si := 0; GreedyAtomizer.sj := 2;
                  GreedyAtomizer.out := [] |}
  <= GreedyAtomizer.fuel_for text.
Proof. unfold scan_measure, GreedyAtomizer.fuel_for; simpl. lia. Qed.

Lemma atomize_not_diverged :
  GreedyAtomizer.atomize self text <> Raise Diverged.
Proof.
  unfold GreedyAtomizer.atomize.
  apply (loop_enough_fuel _ _ init_measure).
Qed.

End GreedyProgress.

(** ** The emitted atoms spell the scanned text *)

Section GreedyRoundTrip.

Variable vocab : PyDict.dict string nat.
Variable lookup : PyDict.dict string (list string).
Variable text : string.

Hypothesis vocab_wf : PyDict.wf vocab.
Hypothesis vocab_inj : NoDup (PyDict.values vocab).

Let self : GreedyAtomizer.t :=
  {| GreedyAtomizer.base := Atomizer.init vocab;
     GreedyAtomizer.lookup := lookup |}.

Let decode : nat -> result string :=
  PyDict.getitem Nat.eqb (Atomizer.decoder (Atomizer.init vocab)).

(** The indices in [acc] decode to atoms that spell [text[0:i]]. *)
Definition spells (acc : list nat) (i : nat) : Prop :=
  exists atoms, mapM decode acc = Ok atoms /\ join atoms = substring 0 i text.

Lemma emit_spells a i i' j acc s' :
  spells acc i ->
  (substring 0 i text ++ a)%string = substring 0 i' text ->
  GreedyAtomizer.emit self a i' j acc = Ok s' ->
  spells (GreedyAtomizer.out s') (GreedyAtomizer.si s').
Proof.
  intros (atoms & Hdec & Hjoin) Happ. unfold GreedyAtomizer.emit.
  change (GreedyAtomizer.vocab self) with vocab.
  destruct (PyDict.get String.eqb vocab a) as [v|] eqn:Hget; [|discriminate].
  intros H; injection H as <-; simpl.
  exists (atoms ++ [a]). split.
  - apply mapM_app; [exact Hdec|]. simpl. unfold decode, PyDict.getitem.
    rewrite (decoder_get vocab a v vocab_wf vocab_inj Hget). reflexivity.
  - rewrite join_snoc, Hjoin. exact Happ.
Qed.

Lemma item_spells i :
  (substring 0 i text ++ item text i)%string = substring 0 (i + 1) text.
Proof.
  unfold item. replace 1 with (i + 1 - i) at 1 by lia.
  apply substring_split. lia.
Qed.

Lemma shrink_spells cands i j acc s' :
  spells acc i ->
  GreedyAtomizer.shrink self text cands i j acc = Ok s' ->
  spells (GreedyAtomizer.out s') (GreedyAtomizer.si s').
Proof.
  intros Hsp. induction j as [|j IH]; simpl.
  - apply (emit_spells _ i); [exact Hsp|apply item_spells].
  - destruct (i + 1 <? S j)%nat eqn:Hlt.
    + apply Nat.ltb_lt in Hlt. destruct (existsb _ cands); [|exact IH].
      apply (emit_spells _ i); [exact Hsp|].
      unfold slice. apply substring_split. lia.
    + apply (emit_spells _ i); [exact Hsp|apply item_spells].
Qed.

Lemma step_spells s s' :
  spells (GreedyAtomizer.out s) (GreedyAtomizer.si s) ->
  GreedyAtomizer.step self text s = Ok s' ->
  spells (GreedyAtomizer.out s') (GreedyAtomizer.si s').
Proof.
  intros Hsp. unfold GreedyAtomizer.step.
  change (GreedyAtomizer.lookup self) with lookup.
  destruct (PyDict.get String.eqb lookup _) as [[|c cs]|].
  - apply (emit_spells _ (GreedyAtomizer.si s)); [exact Hsp|apply item_spells].
  - destruct (_ && _).
    + intros H; injection H as <-; simpl. exact Hsp.
    + apply shrink_spells, Hsp.
  - apply (emit_spells _ (GreedyAtomizer.si s)); [exact Hsp|apply item_spells].
Qed.

Lemma loop_spells fuel s idx :
  spells (GreedyAtomizer.out s) (GreedyAtomizer.si s) ->
  GreedyAtomizer.loop fuel self text s = Ok idx ->
  exists atoms, mapM decode idx = Ok atoms /\ join atoms = text.
Proof.
  revert s; induction fuel as [|fuel IH]; intros s Hsp; simpl;
    destruct (GreedyAtomizer.si s <? String.length text)%nat eqn:Hi;
    try discriminate.
  - intros H; injection H as <-. destruct Hsp as (atoms & Hd & Hj).
    exists atoms; split; [exact Hd|]. rewrite Hj.
    apply substring_all. apply Nat.ltb_ge, Hi.
  - destruct (GreedyAtomizer.step self text s) as [s1|e] eqn:Hstep;
      [|discriminate].
    apply IH. apply (step_spells s s1 Hsp Hstep).
  - intros H; injection H as <-. destruct Hsp as (atoms & Hd & Hj).
    exists atoms; split; [exact Hd|]. rewrite Hj.
    apply substring_all. apply Nat.ltb_ge, Hi.
Qed.

Lemma atomize_spells idx :
  GreedyAtomizer.atomize self text = Ok idx ->
  exists atoms, mapM decode idx = Ok atoms /\ join atoms = text.
Proof.
  apply loop_spells. exists []. split; [reflexivity|].
  simpl. destruct text; reflexivity.
Qed.

End GreedyRoundTrip.

(** ** The scan raises nothing but [VocabError] *)

Section GreedyErrors.

Variable self : GreedyAtomizer.t.
Variable text : string.

Lemma emit_raises a i' j acc e :
  GreedyAtomizer.emit self a i' j acc = Raise e -> e = VocabError.
Proof.
  unfold GreedyAtomizer.emit. destruct (PyDict.get _ _ _); congruence.
Qed.

Lemma shrink_raises cands i j acc e :
  GreedyAtomizer.shrink self text cands i j acc = Raise e -> e = VocabError.
Proof.
  induction j as [|j IH]; simpl; [apply emit_raises|].
  destruct (i + 1 <? S j)%nat; [|apply emit_raises].
  destruct (existsb _ cands); [apply emit_raises|exact IH].
Qed.

Lemma step_raises s e :
  GreedyAtomizer.step self text s = Raise e -> e = VocabError.
Proof.
  unfold GreedyAtomizer.step.
  destruct (PyDict.get _ _ _) as [[|c cs]|]; try apply emit_raises.
  destruct (_ && _); [discriminate|apply shrink_raises].
Qed.

Lemma loop_raises fuel s e :
  GreedyAtomizer.loop fuel self text s = Raise e ->
  e = VocabError \/ e = Diverged.
Proof.
  revert s; induction fuel as [|fuel IH]; intros s; simpl;
    destruct (GreedyAtomizer.si s <? String.length text)%nat;
    try discriminate.
  - intros H; injection H as <-; auto.
  - destruct (GreedyAtomizer.step self text s) as [s1|e1] eqn:Hstep.
    + apply IH.
    + intros H; injection H as <-. left. apply (step_raises s e1 Hstep).
Qed.

Lemma atomize_cases :
  (exists idx, GreedyAtomizer.atomize self text = Ok idx)
  \/ GreedyAtomizer.atomize self text = Raise VocabError.
Proof.
  destruct (GreedyAtomizer.atomize self text) as [idx|e] eqn:E; [eauto|].
  right. unfold GreedyAtomizer.atomize in E.
  destruct (loop_raises _ _ _ E) as [->| ->]; [reflexivity|].
  exfalso. exact (atomize_not_diverged self text E).
Qed.

End GreedyErrors.

(** ** Two vocabularies over the same atoms tokenize alike *)

Definition cands_of (self : GreedyAtomizer.t) (c : string) : list string :=
  match PyDict.get String.eqb (GreedyAtomizer.lookup self) c with
  | Some l => l
  | None => []
  end.

Lemma step_cands (self : GreedyAtomizer.t) text s :
  GreedyAtomizer.step self text s =
  let i := GreedyAtomizer.si s in
  let j := GreedyAtomizer.sj s in
  let cands := cands_of self (item text i) in
  match cands with
  | [] => GreedyAtomizer.emit self (item text i) (i + 1) j (GreedyAtomizer.out s)
  | _ :: _ =>
      if (j <=? String.length text)%nat
         && existsb (fun x => startswith x (slice text i j)) cands
      then Ok {| GreedyAtomizer.si := i; GreedyAtomizer.sj := j + 1;
                 GreedyAtomizer.out := GreedyAtomizer.out s |}
      else GreedyAtomizer.shrink self text cands i j (GreedyAtomizer.out s)
  end.
Proof.
  unfold GreedyAtomizer.step, cands_of.
  destruct (PyDict.get _ _ _) as [[|c cs]|]; reflexivity.
Qed.

Lemma existsb_same {A : Type} (f : A -> bool) (l1 l2 : list A) :
  (forall x, In x l1 <-> In x l2) -> existsb f l1 = existsb f l2.
Proof.
  intros H. apply eq_true_iff_eq. rewrite !existsb_exists.
  split; intros (x & Hin & Hf); exists x; split; auto; apply H; exact Hin.
Qed.

Section GreedySimulation.

Variables A1 A2 : GreedyAtomizer.t.
Variable text : string.

Hypothesis same_cands :
  forall c x, In x (cands_of A1 c) <-> In x (cands_of A2 c).
Hypothesis same_keys :
  forall a, PyDict.get String.eqb (GreedyAtomizer.vocab A1) a = None <->
            PyDict.get String.eqb (GreedyAtomizer.vocab A2) a = None.
Hypothesis dec1 :
  forall a v, PyDict.get String.eqb (GreedyAtomizer.vocab A1) a = Some v ->
              PyDict.get Nat.eqb (GreedyAtomizer.decoder A1) v = Some a.
Hypothesis dec2 :
  forall a v, PyDict.get String.eqb (GreedyAtomizer.vocab A2) a = Some v ->
              PyDict.get Nat.eqb (GreedyAtomizer.decoder A2) v = Some a.

Let decode1 := PyDict.getitem Nat.eqb (GreedyAtomizer.decoder A1).
Let decode2 := PyDict.getitem Nat.eqb (GreedyAtomizer.decoder A2).

Definition same_atoms (acc1 acc2 : list nat) : Prop :=
  exists atoms, mapM decode1 acc1 = Ok atoms /\ mapM decode2 acc2 = Ok atoms.

Definition sim_scan (r1 r2 : result GreedyAtomizer.scan) : Prop :=
  match r1, r2 with
  | Ok s1, Ok s2 =>
      GreedyAtomizer.si s1 = GreedyAtomizer.si s2 /\
      GreedyAtomizer.sj s1 = GreedyAtomizer.sj s2 /\
      same_atoms (GreedyAtomizer.out s1) (GreedyAtomizer.out s2)
  | Raise e1, Raise e2 => e1 = e2
  | _, _ => False
  end.

Lemma emit_sim a i' j acc1 acc2 :
  same_atoms acc1 acc2 ->
  sim_scan (GreedyAtomizer.emit A1 a i' j acc1)
           (GreedyAtomizer.emit A2 a i' j acc2).
Proof.
  intros (atoms & H1 & H2). unfold GreedyAtomizer.emit.
  destruct (PyDict.get String.eqb (GreedyAtomizer.vocab A1) a) as [v1|] eqn:E1;
    destruct (PyDict.get String.eqb (GreedyAtomizer.vocab A2) a) as [v2|] eqn:E2;
    simpl.
  - repeat split. exists (atoms ++ [a]). split; apply mapM_app; auto; simpl.
    + unfold decode1, PyDict.getitem. rewrite (dec1 _ _ E1). reflexivity.
    + unfold decode2, PyDict.getitem. rewrite (dec2 _ _ E2). reflexivity.
  - apply same_keys in E2. congruence.
  - apply same_keys in E1. congruence.
  - reflexivity.
Qed.

Lemma shrink_sim c1 c2 i j acc1 acc2 :
  (forall x, In x c1 <-> In x c2) ->
  same_atoms acc1 acc2 ->
  sim_scan (GreedyAtomizer.shrink A1 text c1 i j acc1)
           (GreedyAtomizer.shrink A2 text c2 i j acc2).
Proof.
  intros Hc Hacc. induction j as [|j IH]; simpl.
  - apply emit_sim, Hacc.
  - destruct (i + 1 <? S j)%nat; [|apply emit_sim, Hacc].
    rewrite (existsb_same _ c1 c2 Hc).
    destruct (existsb _ c2); [apply emit_sim, Hacc|exact IH].
Qed.

Lemma step_sim s1 s2 :
  sim_scan (Ok s1) (Ok s2) ->
  sim_scan (GreedyAtomizer.step A1 text s1) (GreedyAtomizer.step A2 text s2).
Proof.
  intros (Ei & Ej & Hacc). rewrite !step_cands. cbv zeta.
  rewrite <- Ei, <- Ej.
  pose proof (same_cands (item text (GreedyAtomizer.si s1))) as Hc.
  destruct (cands_of A1 _) as [|x1 l1] eqn:C1;
    destruct (cands_of A2 _) as [|x2 l2] eqn:C2.
  - apply emit_sim, Hacc.
  - exfalso. apply (proj2 (Hc x2)). left; reflexivity.
  - exfalso. apply (proj1 (Hc x1)). left; reflexivity.
  - rewrite (existsb_same _ _ _ Hc).
    destruct (_ && _).
    + simpl. auto.
    + apply shrink_sim; assumption.
Qed.

Lemma loop_sim fuel s1 s2 :
  sim_scan (Ok s1) (Ok s2) ->
  bind (GreedyAtomizer.loop fuel A1 text s1) (mapM decode1)
  = bind (GreedyAtomizer.loop fuel A2 text s2) (mapM decode2).
Proof.
  revert s1 s2; induction fuel as [|fuel IH]; intros s1 s2 Hsim;
    pose proof Hsim as (Ei & Ej & (atoms & H1 & H2)); simpl; rewrite <- Ei;
    destruct (GreedyAtomizer.si s1 <? String.length text)%nat;
    simpl; try congruence.
  pose proof (step_sim s1 s2 Hsim) as Hstep.
  destruct (GreedyAtomizer.step A1 text s1) as [s1'|e1];
    destruct (GreedyAtomizer.step A2 text s2) as [s2'|e2];
    simpl in Hstep; try contradiction.
  - apply IH. exact Hstep.
  - simpl. congruence.
Qed.

Lemma tokenize_sim :
  GreedyAtomizer.tokenize A1 text = GreedyAtomizer.tokenize A2 text.
Proof.
  unfold GreedyAtomizer.tokenize, Atomizer.tokenize, GreedyAtomizer.atomize.
  apply loop_sim. simpl. repeat split. exists []. split; reflexivity.
Qed.

End GreedySimulation.

(** ** The lookup built by [GreedyAtomizer.__init__] *)

Lemma insert_sorted_In {A : Type} (le : A -> A -> bool) x y (l : list A) :
  In y (insert_sorted le x l) <-> y = x \/ In y l.
Proof.
  induction l as [|z l IH]; simpl.
  - intuition congruence.
  - destruct (le x z); simpl; rewrite ?IH; intuition congruence.
Qed.

Lemma sorted_In {A : Type} (le : A -> A -> bool) y (l : list A) :
  In y (sorted le l) <-> In y l.
Proof.
  unfold sorted. induction l as [|x l IH]; simpl; [tauto|].
  rewrite insert_sorted_In, IH. intuition congruence.
Qed.

Lemma get_map_key {V : Type} (f : string -> V) (l : list string) c :
  PyDict.get String.eqb (map (fun c => (c, f c)) l) c
  = if in_dec string_dec c l then Some (f c) else None.
Proof.
  induction l as [|x l IH]; simpl; [reflexivity|].
  destruct (String.eqb_spec c x) as [->|Hne].
  - destruct (string_dec x x); [reflexivity|congruence].
  - rewrite IH. destruct (string_dec x c); [congruence|].
    destruct (in_dec string_dec c l); reflexivity.
Qed.

(** The candidates for a head [c] are the multi-character keys that start
    with [c]. *)
Lemma init_cands (vocab : PyDict.dict string nat) c x :
  In x (cands_of (GreedyAtomizer.init vocab) c) <->
  In x (PyDict.keys vocab) /\ 1 < String.length x /\ item x 0 = c.
Proof.
  unfold cands_of, GreedyAtomizer.init; simpl.
  set (multichars :=
         pyset (filter (fun k => (1 <? String.length k)%nat)
                       (Atomizer.atoms (Atomizer.init vocab)))).
  assert (Hm : forall a, In a multichars <->
                         In a (PyDict.keys vocab) /\ 1 < String.length a).
  { intros a. unfold multichars, pyset, Atomizer.atoms. simpl.
    rewrite nodup_In, filter_In, sorted_In, Nat.ltb_lt. tauto. }
  rewrite (of_pairs_nodup String.eqb String.eqb_spec).
  2:{ rewrite map_map. simpl. rewrite map_id. apply NoDup_nodup. }
  rewrite get_map_key.
  destruct (in_dec string_dec c _) as [Hin|Hout].
  - rewrite filter_In, Hm, String.eqb_eq. tauto.
  - split; [contradiction|]. intros (Hk & Hl & Hc). exfalso. apply Hout.
    unfold pyset. rewrite nodup_In, in_map_iff. exists x. split; [exact Hc|].
    apply Hm; auto.
Qed.

Lemma init_tokenize_same_keys (v1 v2 : PyDict.dict string nat) text :
  PyDict.wf v1 -> NoDup (PyDict.values v1) ->
  PyDict.wf v2 -> NoDup (PyDict.values v2) ->
  (forall a, In a (PyDict.keys v1) <-> In a (PyDict.keys v2)) ->
  GreedyAtomizer.tokenize (GreedyAtomizer.init v1) text
  = GreedyAtomizer.tokenize (GreedyAtomizer.init v2) text.
Proof.
  intros W1 I1 W2 I2 Hk. apply tokenize_sim.
  - intros c x. rewrite !init_cands, Hk. tauto.
  - intros a. change (GreedyAtomizer.vocab (GreedyAtomizer.init v1)) with v1.
    change (GreedyAtomizer.vocab (GreedyAtomizer.init v2)) with v2.
    rewrite !(get_None String.eqb String.eqb_spec), Hk. tauto.
  - intros a v. apply decoder_get; assumption.
  - intros a v. apply decoder_get; assumption.
Qed.

(** ** Numbers *)

(** [np.float32(16777217)] is [16777216.0], the nearest number with 24 bits;
    halfway between two of them the even one is taken; beyond the largest
    number of the type the result is an infinity; [np.int32(2 ** 31)] wraps
    around; a third becomes the nearest float. *)
Lemma of_int_rounds :
  CLDrive.of_int CLDrive.float32 16777217 = CLDrive.Finite 16777216
  /\ CLDrive.of_int CLDrive.float32 16777219 = CLDrive.Finite 16777220
  /\ CLDrive.of_int CLDrive.float32 (2 ^ 128) = CLDrive.Infinity false
  /\ CLDrive.of_int CLDrive.int32 (2 ^ 31) = CLDrive.Finite (-2147483648)
  /\ CLDrive.cast CLDrive.float32 (CLDrive.Finite (1 # 3))
     = CLDrive.Finite (11184811 # 33554432).
Proof. repeat split; vm_compute; reflexivity. Qed.

(** ** The driver: which computations touch the measurement vectors *)

Section DriverState.

Import CLDrive.
Local Open Scope cl_scope.

Variable P : Platform.

(** [c] leaves the driver object as it is, whether it returns or raises. *)
Definition unchanged {A : Type} (c : M A) : Prop :=
  forall m, driver (snd (c m)) = driver m.

Lemma unchanged_ret {A : Type} (a : A) : unchanged (ret a).
Proof. intros m; reflexivity. Qed.

Lemma unchanged_raise {A : Type} (e : exn) : unchanged (@raise A e).
Proof. intros m; reflexivity. Qed.

Lemma unchanged_lift {A : Type} (r : result A) : unchanged (lift r).
Proof. intros m; reflexivity. Qed.

Lemma unchanged_read : unchanged read.
Proof. intros m; reflexivity. Qed.

Lemma unchanged_bind {A B : Type} (c : M A) (k : A -> M B) :
  unchanged c -> (forall a, unchanged (k a)) -> unchanged (bindM c k).
Proof.
  intros Hc Hk m. unfold bindM. specialize (Hc m).
  destruct (c m) as [[a|e] m1]; simpl in *; [|exact Hc].
  rewrite Hk. exact Hc.
Qed.

Lemma unchanged_except {A : Type} (c : M A) (e : exn) :
  unchanged c -> unchanged (except_all c e).
Proof.
  intros Hc m. unfold except_all. specialize (Hc m).
  destruct (c m) as [[a|e'] m1]; exact Hc.
Qed.

Lemma unchanged_for_each {A B : Type} (f : A -> M B) (l : list A) :
  (forall a, unchanged (f a)) -> unchanged (for_each f l).
Proof.
  intros Hf. induction l as [|x l IH]; simpl.
  - apply unchanged_ret.
  - apply unchanged_bind; [apply Hf|]. intros y.
    apply unchanged_bind; [exact IH|]. intros ys. apply unchanged_ret.
Qed.

Lemma unchanged_new_object : unchanged new_object.
Proof. intros m; reflexivity. Qed.

Lemma unchanged_store id data : unchanged (store id data).
Proof. intros m; reflexivity. Qed.

Lemma unchanged_enqueue c : unchanged (enqueue c).
Proof. intros m; reflexivity. Qed.

Lemma unchanged_flush : unchanged (flush P).
Proof. intros m; reflexivity. Qed.

Lemma unchanged_np_arange n : unchanged (np_arange n).
Proof. intros m; reflexivity. Qed.

Lemma unchanged_np_random_rand n : unchanged (np_random_rand P n).
Proof. intros m; reflexivity. Qed.

Lemma unchanged_get_event_time ev : unchanged (get_event_time P ev).
Proof.
  unfold get_event_time. destruct (profiling_info P ev) as [[a b]|].
  - apply unchanged_ret.
  - apply unchanged_raise.
Qed.

Create HintDb unchanged.

Hint Resolve unchanged_ret unchanged_raise unchanged_lift unchanged_read
  unchanged_new_object unchanged_store unchanged_enqueue unchanged_flush
  unchanged_np_arange unchanged_np_random_rand unchanged_get_event_time
  : unchanged.

(** Goes through a computation made of [bindM], [if] and [match]. *)
Ltac unchanged_tac :=
  repeat first
    [ progress auto with unchanged
    | apply unchanged_bind; [|intros ?]
    | apply unchanged_except
    | apply unchanged_for_each; intros ?
    | match goal with
      | |- unchanged (if ?b then _ else _) => destruct b
      | |- unchanged (match ?x with _ => _ end) => destruct x
      | |- unchanged (let _ := _ in _) => cbv zeta
      end ].

Lemma unchanged_Buffer_new ctx fl h : unchanged (Buffer_new P ctx fl h).
Proof. unfold Buffer_new. unchanged_tac. Qed.

Lemma unchanged_LocalMemory_new n : unchanged (LocalMemory_new n).
Proof. unfold LocalMemory_new. unchanged_tac. Qed.

Lemma unchanged_copy_to_device d h : unchanged (enqueue_copy_to_device d h).
Proof. unfold enqueue_copy_to_device. unchanged_tac. Qed.

Lemma unchanged_copy_to_host h d : unchanged (enqueue_copy_to_host h d).
Proof. unfold enqueue_copy_to_host. unchanged_tac. Qed.

Hint Resolve unchanged_Buffer_new unchanged_LocalMemory_new
  unchanged_copy_to_device unchanged_copy_to_host : unchanged.

Lemma unchanged_attribute {A : Type} (x : option A) : unchanged (attribute x).
Proof. destruct x; simpl; auto with unchanged. Qed.

Hint Resolve unchanged_attribute : unchanged.

Lemma unchanged_deepcopy_arg ctx src : unchanged (deepcopy_arg P ctx src).
Proof. unfold deepcopy_arg, deepcopy_devdata. unchanged_tac. Qed.

Hint Resolve unchanged_deepcopy_arg : unchanged.

Lemma unchanged_deepcopy p : unchanged (deepcopy P p).
Proof. unfold deepcopy. unchanged_tac. Qed.

Lemma unchanged_host_to_device_loop args elapsed :
  unchanged (host_to_device_loop P args elapsed).
Proof.
  revert elapsed; induction args as [|a args IH]; intros elapsed; simpl.
  - apply unchanged_ret.
  - destruct (hostdata a); [|apply IH].
    apply unchanged_bind; [auto with unchanged|]. intros ev.
    apply unchanged_bind; [auto with unchanged|]. intros t. apply IH.
Qed.

Lemma unchanged_host_to_device p : unchanged (host_to_device P p).
Proof. apply unchanged_host_to_device_loop. Qed.

Lemma unchanged_device_to_host_loop args elapsed :
  unchanged (device_to_host_loop P args elapsed).
Proof.
  induction args as [|a args IH]; simpl.
  - apply unchanged_ret.
  - destruct (hostdata a); [destruct (is_const a)|]; unchanged_tac.
Qed.

Hint Resolve unchanged_deepcopy unchanged_host_to_device
  unchanged_device_to_host_loop : unchanged.

Lemma unchanged_device_to_host p : unchanged (device_to_host P p).
Proof. unfold device_to_host. unchanged_tac. Qed.

Lemma unchanged_launch_kernel nd l ka : unchanged (launch_kernel nd l ka).
Proof.
  intros m. unfold launch_kernel, bindM, read, write, enqueue. simpl.
  destruct (launch _ _ _ _ _ _); reflexivity.
Qed.

Lemma unchanged_create_arg nparray ctx size a :
  (forall n, unchanged (nparray n)) ->
  unchanged (create_arg P nparray ctx size a).
Proof. intros H. unfold create_arg. unchanged_tac; apply H. Qed.

Lemma unchanged_create_payload nparray size :
  (forall n, unchanged (nparray n)) ->
  unchanged (_create_payload P nparray size).
Proof.
  intros H. unfold _create_payload. unchanged_tac.
  apply unchanged_create_arg, H.
Qed.

Lemma unchanged_create_sequential size : unchanged (create_sequential P size).
Proof. apply unchanged_create_payload, unchanged_np_arange. Qed.

Lemma unchanged_create_random size : unchanged (create_random P size).
Proof. apply unchanged_create_payload, unchanged_np_random_rand. Qed.

Hint Resolve unchanged_device_to_host unchanged_launch_kernel
  unchanged_create_sequential unchanged_create_random : unchanged.

(** The vectors of [d'] are those of [d] with one element more each. *)
Definition appended (d d' : KernelDriver) : Prop :=
  exists w t e,
    d_wgsizes d' = d_wgsizes d ++ [w] /\
    d_transfers d' = d_transfers d ++ [t] /\
    d_runtimes d' = d_runtimes d ++ [e].

(** The last command given to the queue is a flush that raised. *)
Definition flush_failed (m : machine) : Prop :=
  exists q, queue m = q ++ [Flush] /\ flush_ok P (List.length q) = false.

(** What one call does to the vectors: one element more in each when it
    returns; when it raises, nothing, or one element more in each where it
    is a flush that raised. *)
Definition call_effect {A : Type} (m : machine) (r : result A * machine)
  : Prop :=
  match fst r with
  | Ok _ => appended (driver m) (driver (snd r))
  | Raise _ =>
      driver (snd r) = driver m \/
      (appended (driver m) (driver (snd r)) /\ flush_failed (snd r))
  end.

Lemma call_effect_bind {A B : Type} (c : M A) (k : A -> M B) m :
  unchanged c ->
  (forall a m1, call_effect m1 (k a m1)) ->
  call_effect m (bindM c k m).
Proof.
  intros Hc Hk. unfold bindM. specialize (Hc m).
  destruct (c m) as [[a|e] m1] eqn:E; simpl in Hc.
  - specialize (Hk a m1). unfold call_effect in *. rewrite <- Hc. exact Hk.
  - left. exact Hc.
Qed.

Lemma call_call_effect payload m : call_effect m (call P payload m).
Proof.
  unfold call.
  apply call_effect_bind; [auto with unchanged|]. intros _ m1.
  apply call_effect_bind; [auto with unchanged|]. intros output m2.
  apply call_effect_bind; [auto with unchanged|]. intros t m3.
  apply call_effect_bind; [auto with unchanged|]. intros mr m4.
  apply call_effect_bind; [destruct (set_args _ _); auto with unchanged|].
  intros _ m5.
  apply call_effect_bind; [auto with unchanged|]. intros x m6.
  apply call_effect_bind; [auto with unchanged|]. intros ev m7.
  apply call_effect_bind; [auto with unchanged|]. intros t2 m8.
  apply call_effect_bind; [auto with unchanged|]. intros r m9.
  unfold call_effect, bindM, record, flush, ret. simpl.
  destruct (flush_ok P (List.length (queue m9))) eqn:Hf; simpl.
  - do 3 eexists. repeat split; reflexivity.
  - right. split; [do 3 eexists; repeat split; reflexivity|].
    eexists. split; [reflexivity|exact Hf].
Qed.

End DriverState.

(** ** Reading a computation that returned *)

Section DriverInversion.

Import CLDrive.
Local Open Scope cl_scope.

Lemma bindM_Ok {A B : Type} (c : M A) (k : A -> M B) m b m' :
  bindM c k m = (Ok b, m') ->
  exists a m1, c m = (Ok a, m1) /\ k a m1 = (Ok b, m').
Proof.
  unfold bindM. destruct (c m) as [[a|e] m1]; [eauto|discriminate].
Qed.

Lemma bindM_run {A B : Type} (c : M A) (k : A -> M B) m a m1 :
  c m = (Ok a, m1) -> bindM c k m = k a m1.
Proof. unfold bindM. intros ->. reflexivity. Qed.

Lemma except_all_Ok {A : Type} (c : M A) e m a m' :
  except_all c e m = (Ok a, m') -> c m = (Ok a, m').
Proof.
  unfold except_all. destruct (c m) as [[a'|e'] m1]; congruence.
Qed.

Lemma ret_Ok {A : Type} (a b : A) m m' :
  ret a m = (Ok b, m') -> a = b /\ m = m'.
Proof. unfold ret. intros H; injection H; auto. Qed.

(** A [for] loop that returned ran its body on every element. *)
Lemma for_each_Ok {A B : Type} (f : A -> M B) (R : A -> B -> Prop) :
  (forall x m y m', f x m = (Ok y, m') -> R x y) ->
  forall l m ys m', for_each f l m = (Ok ys, m') -> Forall2 R l ys.
Proof.
  intros Hf. induction l as [|x l IH]; simpl; intros m ys m' H.
  - apply ret_Ok in H as [<- _]. constructor.
  - apply bindM_Ok in H as (y & m1 & Hy & H).
    apply bindM_Ok in H as (ys' & m2 & Hys & H).
    apply ret_Ok in H as [<- _]. constructor; eauto.
Qed.

End DriverInversion.

(** Peels the binds of a computation that returned. *)
Ltac invert_run H :=
  repeat first
    [ let a := fresh "a" in let m := fresh "m" in
      let H1 := fresh "Hrun" in
      apply bindM_Ok in H as (a & m & H1 & H)
    | apply ret_Ok in H as [? ?]
    | apply except_all_Ok in H ].

(** ** The measurement vectors *)

(** A sequence of single-shot executions; the result counts those that
    returned. *)
Fixpoint calls (P : CLDrive.Platform) (payloads : list CLDrive.KernelPayload)
  (m : CLDrive.machine) : nat * CLDrive.machine :=
  match payloads with
  | [] => (0, m)
  | p :: rest =>
      match CLDrive.call P p m with
      | (Ok _, m') => let r := calls P rest m' in (S (fst r), snd r)
      | (Raise _, m') => calls P rest m'
      end
  end.

(** The three vectors have [n] elements each. *)
Definition vectors_have (n : nat) (d : CLDrive.KernelDriver) : Prop :=
  List.length (CLDrive.d_wgsizes d) = n /\
  List.length (CLDrive.d_transfers d) = n /\
  List.length (CLDrive.d_runtimes d) = n.

Lemma appended_vectors d d' n :
  appended d d' -> vectors_have n d -> vectors_have (S n) d'.
Proof.
  intros (w & t & e & Ew & Et & Ee) (Hw & Ht & Hr). unfold vectors_have.
  rewrite Ew, Et, Ee, !length_app; simpl. lia.
Qed.

Lemma call_vectors P payload m n :
  vectors_have n (CLDrive.driver m) ->
  match CLDrive.call P payload m with
  | (Ok _, m') => vectors_have (S n) (CLDrive.driver m')
  | (Raise _, m') =>
      vectors_have n (CLDrive.driver m') \/
      (vectors_have (S n) (CLDrive.driver m') /\ flush_failed P m')
  end.
Proof.
  intros Hn. pose proof (call_call_effect P payload m) as H.
  unfold call_effect in H.
  destruct (CLDrive.call P payload m) as [[out|e] m']; simpl in H.
  - apply (appended_vectors _ _ n H Hn).
  - destruct H as [H|[H Hf]].
    + left. rewrite H. exact Hn.
    + right. split; [apply (appended_vectors _ _ n H Hn)|exact Hf].
Qed.

Lemma calls_vectors P payloads m n :
  vectors_have n (CLDrive.driver m) ->
  exists k,
    vectors_have (n + k) (CLDrive.driver (snd (calls P payloads m))) /\
    fst (calls P payloads m) <= k <= List.length payloads.
Proof.
  revert m n; induction payloads as [|p rest IH]; intros m n Hn; simpl.
  - exists 0. rewrite Nat.add_0_r. split; [exact Hn|lia].
  - pose proof (call_vectors P p m n Hn) as Hc.
    destruct (CLDrive.call P p m) as [[out|e] m1]; simpl.
    + destruct (IH m1 (S n) Hc) as (k & Hk & Hle). exists (S k).
      replace (n + S k) with (S n + k) by lia. split; [exact Hk|lia].
    + destruct Hc as [Hc|[Hc _]].
      * destruct (IH m1 n Hc) as (k & Hk & Hle). exists k.
        split; [exact Hk|lia].
      * destruct (IH m1 (S n) Hc) as (k & Hk & Hle). exists (S k).
        replace (n + S k) with (S n + k) by lia. split; [exact Hk|lia].
Qed.

Lemma init_vectors P ctx source d :
  CLDrive.KernelDriver_init P ctx source = Ok d -> vectors_have 0 d.
Proof.
  unfold CLDrive.KernelDriver_init.
  destruct (CLDrive.build P source) as [[|k [|k' ks]]|]; try discriminate.
  intros H; injection H as <-. repeat split.
Qed.

(** Whatever [validate] does, the vectors keep equal lengths. *)
Definition aligned (d : CLDrive.KernelDriver) : Prop :=
  exists n, vectors_have n d.

Definition keeps_aligned {A : Type} (c : CLDrive.M A) : Prop :=
  forall m, aligned (CLDrive.driver m) ->
            aligned (CLDrive.driver (snd (c m))).

Lemma unchanged_keeps {A : Type} (c : CLDrive.M A) :
  unchanged c -> keeps_aligned c.
Proof. intros H m Hm. rewrite H. exact Hm. Qed.

Lemma keeps_bind {A B : Type} (c : CLDrive.M A) (k : A -> CLDrive.M B) :
  keeps_aligned c -> (forall a, keeps_aligned (k a)) ->
  keeps_aligned (CLDrive.bindM c k).
Proof.
  intros Hc Hk m Hm. unfold CLDrive.bindM. specialize (Hc m Hm).
  destruct (c m) as [[a|e] m1]; simpl in *; [|exact Hc].
  apply Hk, Hc.
Qed.

Lemma keeps_call P payload : keeps_aligned (CLDrive.call P payload).
Proof.
  intros m (n & Hn). pose proof (call_vectors P payload m n Hn) as H.
  destruct (CLDrive.call P payload m) as [[out|e] m']; simpl.
  - eexists; exact H.
  - destruct H as [H|[H _]]; eexists; exact H.
Qed.

Lemma keeps_regenerate P fuel size A B :
  keeps_aligned (CLDrive.regenerate P fuel size A B).
Proof.
  revert B; induction fuel as [|fuel IH]; intros B; simpl.
  - apply keeps_bind; [apply unchanged_keeps, unchanged_lift|].
    intros []; apply unchanged_keeps;
      [apply unchanged_raise|apply unchanged_ret].
  - apply keeps_bind; [apply unchanged_keeps, unchanged_lift|].
    intros []; [|apply unchanged_keeps, unchanged_ret].
    apply keeps_bind; [apply unchanged_keeps, unchanged_create_random|].
    intros B'. apply IH.
Qed.

Lemma keeps_assert c e : keeps_aligned (CLDrive.assert_constraint c e).
Proof.
  apply unchanged_keeps. destruct c; [apply unchanged_ret|apply unchanged_raise].
Qed.

Lemma keeps_validate P fuel size : keeps_aligned (CLDrive.validate P fuel size).
Proof.
  unfold CLDrive.validate.
  repeat first
    [ apply keeps_assert
    | apply keeps_call
    | apply keeps_regenerate
    | apply unchanged_keeps;
      first [ apply unchanged_lift | apply unchanged_read | apply unchanged_ret
            | apply unchanged_create_sequential | apply unchanged_create_random
            | apply unchanged_deepcopy ]
    | apply keeps_bind; [|intros ?]
    | match goal with
      | |- keeps_aligned (if ?b then _ else _) => destruct b
      end ].
Qed.

(** ** The transfer size of a generated payload *)

(** What an argument adds to the transfer size: a pointer that is not local
    is copied to the device, and copied back unless it is const. *)
Definition contribution (a : CLDrive.KernelArg) : nat :=
  if CLDrive.is_pointer a && negb (CLDrive.is_local a) then
    match CLDrive.hostdata a with
    | Some h =>
        if CLDrive.is_const a then CLDrive.nbytes h
        else 2 * CLDrive.nbytes h
    | None => 0
    end
  else 0.

(** An argument as the generators leave it: a host array exactly on the
    pointers that are not local. *)
Definition generated_arg (a : CLDrive.KernelArg) : Prop :=
  match CLDrive.hostdata a with
  | Some h =>
      CLDrive.is_pointer a = true /\ CLDrive.is_local a = false /\
      exists id, CLDrive.devdata a = Some (CLDrive.Buffer id)
  | None =>
      (CLDrive.is_pointer a = true /\ CLDrive.is_local a = true /\
       exists id size, CLDrive.devdata a
                       = Some (CLDrive.LocalMemory id size))
      \/ (CLDrive.is_pointer a = false /\
          exists t v, CLDrive.devdata a = Some (CLDrive.Scalar t v))
  end.

Lemma LocalMemory_new_Ok n m d m' :
  CLDrive.LocalMemory_new n m = (Ok d, m') ->
  d = CLDrive.LocalMemory (CLDrive.next_object m) n.
Proof.
  unfold CLDrive.LocalMemory_new, CLDrive.bindM, CLDrive.new_object,
    CLDrive.ret.
  intros H; injection H as <- _. reflexivity.
Qed.

Lemma Buffer_new_Ok P ctx fl h m d m' :
  CLDrive.Buffer_new P ctx fl h m = (Ok d, m') ->
  d = CLDrive.Buffer (CLDrive.next_object m).
Proof.
  unfold CLDrive.Buffer_new.
  destruct (CLDrive.buffer_ok P _); [|discriminate].
  unfold CLDrive.bindM, CLDrive.new_object, CLDrive.store, CLDrive.ret.
  intros H; injection H as <- _. reflexivity.
Qed.

Lemma create_arg_Ok P nparray ctx size a m a' t m' :
  CLDrive.create_arg P nparray ctx size a m = (Ok (a', t), m') ->
  t = contribution a' /\ generated_arg a'.
Proof.
  unfold CLDrive.create_arg. simpl.
  destruct (CLDrive.numpy_type a) as [dtype|]; [|discriminate].
  destruct (CLDrive.is_pointer a) eqn:Hp;
    destruct (CLDrive.is_local a) eqn:Hl; simpl; intros H.
  - apply bindM_Ok in H as (nonbuf & m1 & _ & H).
    apply bindM_Ok in H as (d & m2 & Hd & H).
    apply LocalMemory_new_Ok in Hd. apply ret_Ok in H as [H _].
    injection H as <- <-. subst d.
    unfold contribution, generated_arg; simpl. rewrite Hp, Hl; simpl.
    split; [reflexivity|]. left. eauto.
  - apply bindM_Ok in H as (arr & m1 & _ & H).
    apply bindM_Ok in H as (d & m2 & Hd & H).
    apply Buffer_new_Ok in Hd. apply ret_Ok in H as [H _].
    injection H as <- <-. subst d.
    unfold contribution, generated_arg; simpl. rewrite Hp, Hl; simpl.
    split; [reflexivity|]. eauto.
  - apply ret_Ok in H as [H _]. injection H as <- <-.
    unfold contribution, generated_arg; simpl. rewrite Hp; simpl.
    split; [reflexivity|]. right. eauto.
  - apply ret_Ok in H as [H _]. injection H as <- <-.
    unfold contribution, generated_arg; simpl. rewrite Hp; simpl.
    split; [reflexivity|]. right. eauto.
Qed.

Lemma fold_left_sum {A : Type} (f : A -> nat) (l : list A) (acc : nat) :
  fold_left (fun t r => t + f r) l acc = acc + list_sum (map f l).
Proof.
  revert acc; induction l as [|x l IH]; intros acc; simpl; [lia|].
  rewrite IH. lia.
Qed.

Lemma create_args_Ok P nparray ctx size args m made m' :
  CLDrive.for_each (CLDrive.create_arg P nparray ctx size) args m
  = (Ok made, m') ->
  Forall (fun r : CLDrive.KernelArg * nat =>
            snd r = contribution (fst r) /\ generated_arg (fst r)) made.
Proof.
  revert m made m'; induction args as [|x args IH]; simpl; intros m made m' H.
  - apply ret_Ok in H as [<- _]. constructor.
  - apply bindM_Ok in H as ([a' t] & m1 & Hx & H).
    apply bindM_Ok in H as (ys & m2 & Hys & H).
    apply ret_Ok in H as [<- _]. constructor.
    + simpl. eapply create_arg_Ok, Hx.
    + eapply IH, Hys.
Qed.

Lemma create_payload_Ok P nparray size m p m' :
  CLDrive._create_payload P nparray size m = (Ok p, m') ->
  CLDrive.p_transfersize p = list_sum (map contribution (CLDrive.p_args p))
  /\ Forall generated_arg (CLDrive.p_args p)
  /\ CLDrive.p_ctx p = CLDrive.d_ctx (CLDrive.driver m)
  /\ CLDrive.p_ndrange p = [size].
Proof.
  unfold CLDrive._create_payload. intros H.
  apply bindM_Ok in H as (m0 & m1 & Hread & H).
  apply ret_Ok in Hread as [<- <-].
  apply bindM_Ok in H as (made & m2 & Hmade & H).
  apply ret_Ok in H as [<- _]. simpl.
  apply except_all_Ok, create_args_Ok in Hmade.
  repeat split.
  - rewrite fold_left_sum. simpl. rewrite map_map.
    induction Hmade as [|r l [Hr _] _ IH]; simpl; [reflexivity|].
    rewrite Hr, IH. reflexivity.
  - induction Hmade as [|r l [_ Hr] _ IH]; simpl; constructor; auto.
Qed.

(** ** What the generators make of a prototype *)

(** An array generator as those of numpy that the driver uses: the array has
    as many elements as were asked for, of eight bytes each. *)
Definition numpy_generator (nparray : nat -> CLDrive.M CLDrive.ndarray)
  : Prop :=
  forall n m a m',
    nparray n m = (Ok a, m') ->
    List.length (CLDrive.elems a) = n /\
    CLDrive.itemsize (CLDrive.dt a) = 8.

(** The two arguments were parsed from the same text. *)
Definition same_descriptor (x y : CLDrive.KernelArg) : Prop :=
  CLDrive.string_ y = CLDrive.string_ x /\
  CLDrive.numpy_type y = CLDrive.numpy_type x /\
  CLDrive.vector_width y = CLDrive.vector_width x /\
  CLDrive.is_pointer y = CLDrive.is_pointer x /\
  CLDrive.is_local y = CLDrive.is_local x /\
  CLDrive.is_const y = CLDrive.is_const x.

(** The argument [a] that a generator makes for the argument [proto] of the
    prototype, for a payload of the given size. *)
Definition generated_from (size : nat) (proto a : CLDrive.KernelArg) : Prop :=
  same_descriptor proto a /\
  exists t,
    CLDrive.numpy_type proto = Some t /\
    let veclength := size * CLDrive.vector_width proto in
    if CLDrive.is_pointer proto && CLDrive.is_local proto then
      CLDrive.hostdata a = None /\
      CLDrive.bufsize a = Some (veclength * 8) /\
      exists id,
        CLDrive.devdata a = Some (CLDrive.LocalMemory id (veclength * 8))
    else if CLDrive.is_pointer proto then
      (exists h id,
         CLDrive.hostdata a = Some h /\ CLDrive.dt h = t /\
         List.length (CLDrive.elems h) = veclength /\
         CLDrive.devdata a = Some (CLDrive.Buffer id)) /\
      CLDrive.flags a
      = Some (Z.lor CLDrive.COPY_HOST_PTR
                (if CLDrive.is_const proto then CLDrive.READ_ONLY
                 else CLDrive.READ_WRITE))
    else
      CLDrive.hostdata a = None /\
      CLDrive.devdata a
      = Some (CLDrive.Scalar t (CLDrive.of_int t (Z.of_nat size))).

(** The bytes that an argument of the prototype adds to the transfer size of
    a payload of the given size. *)
Definition expected_bytes (size : nat) (proto : CLDrive.KernelArg) : nat :=
  match CLDrive.numpy_type proto with
  | Some t =>
      if CLDrive.is_pointer proto && negb (CLDrive.is_local proto) then
        (if CLDrive.is_const proto then 1 else 2)
        * (size * CLDrive.vector_width proto * CLDrive.itemsize t)
      else 0
  | None => 0
  end.

Lemma same_descriptor_of_string a :
  same_descriptor a (CLDrive.KernelArg_of_string a).
Proof. repeat split. Qed.

Lemma create_arg_shape P nparray ctx size proto m a t m' :
  numpy_generator nparray ->
  CLDrive.create_arg P nparray ctx size (CLDrive.KernelArg_of_string proto) m
  = (Ok (a, t), m') ->
  generated_from size proto a /\ t = expected_bytes size proto.
Proof.
  intros Hgen. unfold CLDrive.create_arg, generated_from, expected_bytes.
  simpl.
  destruct (CLDrive.numpy_type proto) as [dtype|] eqn:Ht; [|discriminate].
  destruct (CLDrive.is_pointer proto) eqn:Hp;
    destruct (CLDrive.is_local proto) eqn:Hl; simpl; intros H.
  - apply bindM_Ok in H as (nonbuf & m1 & Hn & H).
    apply bindM_Ok in H as (d & m2 & Hd & H).
    apply LocalMemory_new_Ok in Hd. apply ret_Ok in H as [H _].
    injection H as <- <-. subst d.
    destruct (Hgen _ _ _ _ Hn) as [Hlen Hsz].
    unfold CLDrive.nbytes. rewrite Hlen, Hsz. simpl.
    split; [|reflexivity].
    split; [unfold same_descriptor; simpl; auto 10|].
    exists dtype. split; [reflexivity|]. eauto.
  - apply bindM_Ok in H as (arr & m1 & Hn & H).
    apply bindM_Ok in H as (d & m2 & Hd & H).
    apply Buffer_new_Ok in Hd. apply ret_Ok in H as [H _].
    injection H as <- <-. subst d.
    destruct (Hgen _ _ _ _ Hn) as [Hlen _].
    split.
    + split; [unfold same_descriptor; simpl; auto 10|].
      exists dtype. split; [reflexivity|]. simpl. split; [|reflexivity].
      do 2 eexists. split; [reflexivity|]. split; [reflexivity|].
      split; [|reflexivity]. simpl. rewrite length_map. exact Hlen.
    + unfold CLDrive.nbytes. simpl. rewrite length_map, Hlen.
      destruct (CLDrive.is_const proto); lia.
  - apply ret_Ok in H as [H _]. injection H as <- <-.
    split; [|reflexivity].
    split; [unfold same_descriptor; simpl; auto 10|].
    exists dtype. split; [reflexivity|]. simpl. auto.
  - apply ret_Ok in H as [H _]. injection H as <- <-.
    split; [|reflexivity].
    split; [unfold same_descriptor; simpl; auto 10|].
    exists dtype. split; [reflexivity|]. simpl. auto.
Qed.

Lemma create_args_shape P nparray ctx size :
  numpy_generator nparray ->
  forall protos m made m',
    CLDrive.for_each (CLDrive.create_arg P nparray ctx size)
      (map CLDrive.KernelArg_of_string protos) m = (Ok made, m') ->
    Forall2 (generated_from size) protos (map fst made) /\
    list_sum (map snd made) = list_sum (map (expected_bytes size) protos).
Proof.
  intros Hgen. induction protos as [|x protos IH]; simpl;
    intros m made m' H.
  - apply ret_Ok in H as [<- _]. split; [constructor|reflexivity].
  - apply bindM_Ok in H as ([a t] & m1 & Hx & H).
    apply bindM_Ok in H as (ys & m2 & Hys & H).
    apply ret_Ok in H as [<- _].
    apply (create_arg_shape P nparray ctx size x m a t m1 Hgen) in Hx
      as [Ha ->].
    apply IH in Hys as [Hs Hsum]. simpl. split; [constructor; assumption|].
    rewrite Hsum. reflexivity.
Qed.

Lemma create_payload_shape P nparray size m p m' :
  numpy_generator nparray ->
  CLDrive._create_payload P nparray size m = (Ok p, m') ->
  CLDrive.p_ctx p = CLDrive.d_ctx (CLDrive.driver m) /\
  CLDrive.p_ndrange p = [size] /\
  Forall2 (generated_from size)
    (CLDrive.d_prototype (CLDrive.driver m)) (CLDrive.p_args p) /\
  CLDrive.p_transfersize p
  = list_sum (map (expected_bytes size)
                (CLDrive.d_prototype (CLDrive.driver m))).
Proof.
  intros Hgen H. unfold CLDrive._create_payload in H.
  apply bindM_Ok in H as (m0 & m1 & Hread & H).
  apply ret_Ok in Hread as [<- <-].
  apply bindM_Ok in H as (made & m2 & Hmade & H).
  apply ret_Ok in H as [<- _]. simpl.
  apply except_all_Ok in Hmade.
  apply (create_args_shape P nparray _ size Hgen) in Hmade as [Hs Hsum].
  repeat split; [exact Hs|].
  rewrite fold_left_sum. simpl. exact Hsum.
Qed.

Lemma arange_generator : numpy_generator CLDrive.np_arange.
Proof.
  intros n m a m' H. apply ret_Ok in H as [<- _]. simpl.
  rewrite length_map, length_seq. auto.
Qed.

Lemma random_generator P :
  (forall k n, List.length (CLDrive.random_rand P k n) = n) ->
  numpy_generator (CLDrive.np_random_rand P).
Proof.
  intros Hlen n m a m' H. unfold CLDrive.np_random_rand in H.
  injection H as <- _. cbn [CLDrive.elems CLDrive.dt].
  rewrite length_map. auto.
Qed.

Lemma create_arg_descriptor P nparray ctx size proto m a t m' :
  CLDrive.create_arg P nparray ctx size (CLDrive.KernelArg_of_string proto) m
  = (Ok (a, t), m') ->
  same_descriptor proto a.
Proof.
  unfold CLDrive.create_arg. simpl.
  destruct (CLDrive.numpy_type proto) as [dtype|]; [|discriminate].
  destruct (CLDrive.is_pointer proto); destruct (CLDrive.is_local proto);
    simpl; intros H.
  - apply bindM_Ok in H as (nonbuf & m1 & Hn & H).
    apply bindM_Ok in H as (d & m2 & Hd & H).
    apply ret_Ok in H as [H _]. injection H as <- _.
    unfold same_descriptor; simpl; auto 10.
  - apply bindM_Ok in H as (arr & m1 & Hn & H).
    apply bindM_Ok in H as (d & m2 & Hd & H).
    apply ret_Ok in H as [H _]. injection H as <- _.
    unfold same_descriptor; simpl; auto 10.
  - apply ret_Ok in H as [H _]. injection H as <- _.
    unfold same_descriptor; simpl; auto 10.
  - apply ret_Ok in H as [H _]. injection H as <- _.
    unfold same_descriptor; simpl; auto 10.
Qed.

Lemma create_args_descriptor P nparray ctx size :
  forall protos m made m',
    CLDrive.for_each (CLDrive.create_arg P nparray ctx size)
      (map CLDrive.KernelArg_of_string protos) m = (Ok made, m') ->
    Forall2 same_descriptor protos (map fst made).
Proof.
  induction protos as [|x protos IH]; simpl; intros m made m' H.
  - apply ret_Ok in H as [<- _]. constructor.
  - apply bindM_Ok in H as ([a t] & m1 & Hx & H).
    apply bindM_Ok in H as (ys & m2 & Hys & H).
    apply ret_Ok in H as [<- _]. simpl. constructor.
    + apply (create_arg_descriptor _ _ _ _ _ _ _ _ _ Hx).
    + apply (IH _ _ _ Hys).
Qed.

Lemma create_payload_descriptor P nparray size m p m' :
  CLDrive._create_payload P nparray size m = (Ok p, m') ->
  Forall2 same_descriptor (CLDrive.d_prototype (CLDrive.driver m))
    (CLDrive.p_args p).
Proof.
  intros H. unfold CLDrive._create_payload in H.
  apply bindM_Ok in H as (m0 & m1 & Hread & H).
  apply ret_Ok in Hread as [<- <-].
  apply bindM_Ok in H as (made & m2 & Hmade & H).
  apply ret_Ok in H as [<- _]. simpl.
  apply except_all_Ok in Hmade.
  apply (create_args_descriptor P nparray _ size _ _ _ _ Hmade).
Qed.

(* ================================================================= *)
(** * The claims about the atomizer *)

(** C1. Round trip of the greedy atomizer. For a vocabulary that is a
    dictionary with pairwise distinct indices, and a text on which [atomize]
    does not raise [VocabError] (every atom that the scan produces is in the
    vocabulary), [atomize] returns, and [deatomize] of its result is the
    text. *)
Theorem greedy_deatomize_atomize (vocab : PyDict.dict string nat)
  (text : string) :
  PyDict.wf vocab ->
  NoDup (PyDict.values vocab) ->
  GreedyAtomizer.atomize (GreedyAtomizer.init vocab) text <> Raise VocabError ->
  exists idx,
    GreedyAtomizer.atomize (GreedyAtomizer.init vocab) text = Ok idx /\
    GreedyAtomizer.deatomize (GreedyAtomizer.init vocab) idx = Ok text.
Proof.
  intros Hwf Hinj Hok.
  destruct (atomize_cases (GreedyAtomizer.init vocab) text)
    as [(idx & Hidx)|Herr]; [|contradiction].
  exists idx. split; [exact Hidx|].
  destruct (atomize_spells vocab _ text Hwf Hinj idx Hidx)
    as (atoms & Hdec & Hjoin).
  unfold GreedyAtomizer.deatomize, Atomizer.deatomize. simpl in *.
  rewrite Hdec, Hjoin. reflexivity.
Qed.

Lemma greedy_deatomize_atomize_witness :
  exists idx,
    GreedyAtomizer.atomize
      (GreedyAtomizer.init [("ab", 0); ("a", 1); ("b", 2); ("c", 3)]) "abcab"
    = Ok idx /\
    GreedyAtomizer.deatomize
      (GreedyAtomizer.init [("ab", 0); ("a", 1); ("b", 2); ("c", 3)]) idx
    = Ok "abcab".
Proof.
  apply (greedy_deatomize_atomize
           [("ab", 0); ("a", 1); ("b", 2); ("c", 3)] "abcab").
  - unfold PyDict.wf; simpl.
    repeat (constructor; [simpl; intuition discriminate|]). constructor.
  - simpl. repeat (constructor; [simpl; intuition discriminate|]). constructor.
  - vm_compute. discriminate.
Defined.

(** [k] passes of the outer loop, one after the other. *)
Fixpoint steps (k : nat) (self : GreedyAtomizer.t) (text : string)
  (s : GreedyAtomizer.scan) : result GreedyAtomizer.scan :=
  match k with
  | 0 => Ok s
  | S k' => bind (GreedyAtomizer.step self text s) (steps k' self text)
  end.

(** The head [text[i]] starts a multi-character atom of the vocabulary. *)
Definition heads_atom (vocab : PyDict.dict string nat) (text : string)
  (i : nat) : Prop :=
  exists a, In a (PyDict.keys vocab) /\ 1 < String.length a /\
            item a 0 = item text i.

(** What the code tests before it advances [j]: [j <= len(text)] and
    [text[i:j]] is a prefix of a multi-character atom for this head. *)
Definition is_prefix_of_atom (vocab : PyDict.dict string nat) (text : string)
  (i j : nat) : Prop :=
  j <= String.length text /\
  exists x, In x (PyDict.keys vocab) /\ 1 < String.length x /\
            item x 0 = item text i /\ prefix (slice text i j) x = true.

(** What the specification words: [j <= len(text)] and a multi-character
    atom for this head is a proper prefix of [text[i:j]]. *)
Definition atom_is_proper_prefix (vocab : PyDict.dict string nat)
  (text : string) (i j : nat) : Prop :=
  j <= String.length text /\
  exists x, In x (PyDict.keys vocab) /\ 1 < String.length x /\
            item x 0 = item text i /\ prefix x (slice text i j) = true /\
            x <> slice text i j.

Lemma extension_test (vocab : PyDict.dict string nat) text i j :
  (j <=? String.length text)%nat
  && existsb (fun x => startswith x (slice text i j))
       (cands_of (GreedyAtomizer.init vocab) (item text i)) = true
  <-> is_prefix_of_atom vocab text i j.
Proof.
  unfold is_prefix_of_atom, startswith.
  rewrite andb_true_iff, Nat.leb_le, existsb_exists.
  split; intros [Hj (x & Hx & Hp)]; (split; [exact Hj|]); exists x.
  - apply init_cands in Hx. tauto.
  - split; [apply init_cands|]; tauto.
Qed.

Lemma heads_cands (vocab : PyDict.dict string nat) text i :
  heads_atom vocab text i ->
  cands_of (GreedyAtomizer.init vocab) (item text i) <> [].
Proof.
  intros (a & Ha) E.
  apply (init_cands vocab (item text i) a) in Ha. rewrite E in Ha. exact Ha.
Qed.

(** One pass on a head of a multi-character atom: [j] moves on when the test
    holds, the shrink loop runs when it does not. *)
Lemma step_on_head (vocab : PyDict.dict string nat) text i j acc :
  heads_atom vocab text i ->
  let self := GreedyAtomizer.init vocab in
  let s := {| GreedyAtomizer.si := i; GreedyAtomizer.sj := j;
              GreedyAtomizer.out := acc |} in
  (is_prefix_of_atom vocab text i j ->
   GreedyAtomizer.step self text s
   = Ok {| GreedyAtomizer.si := i; GreedyAtomizer.sj := j + 1;
           GreedyAtomizer.out := acc |})
  /\ (~ is_prefix_of_atom vocab text i j ->
      GreedyAtomizer.step self text s
      = GreedyAtomizer.shrink self text (cands_of self (item text i)) i j acc).
Proof.
  intros Hh self s. pose proof (heads_cands vocab text i Hh) as Hne.
  pose proof (extension_test vocab text i j) as Ht.
  rewrite step_cands. cbv zeta. simpl GreedyAtomizer.si.
  simpl GreedyAtomizer.sj. simpl GreedyAtomizer.out. fold self in Hne, Ht |- *.
  destruct (cands_of self (item text i)) as [|c cs] eqn:Ec; [congruence|].
  split; intros H.
  - apply Ht in H. rewrite H. reflexivity.
  - destruct (_ && _) eqn:E; [|reflexivity].
    exfalso. apply H, Ht. reflexivity.
Qed.

(** C2, as amended. On a head of a multi-character atom, [j] is advanced by
    one exactly while [j <= len(text)] and [text[i:j]] is a prefix of a
    multi-character atom for this head: if the test holds at
    [j, ..., j + k - 1] and fails at [j + k], then [k] passes lead from
    [(i, j)] to [(i, j + k)] with nothing appended, and the next pass is the
    shrink loop started at [j + k]. *)
Theorem greedy_extension (vocab : PyDict.dict string nat) (text : string)
  (i j k : nat) (acc : list nat) :
  heads_atom vocab text i ->
  (forall d, d < k -> is_prefix_of_atom vocab text i (j + d)) ->
  ~ is_prefix_of_atom vocab text i (j + k) ->
  let self := GreedyAtomizer.init vocab in
  steps k self text
    {| GreedyAtomizer.si := i; GreedyAtomizer.sj := j;
       GreedyAtomizer.out := acc |}
  = Ok {| GreedyAtomizer.si := i; GreedyAtomizer.sj := j + k;
          GreedyAtomizer.out := acc |}
  /\ GreedyAtomizer.step self text
       {| GreedyAtomizer.si := i; GreedyAtomizer.sj := j + k;
          GreedyAtomizer.out := acc |}
     = GreedyAtomizer.shrink self text (cands_of self (item text i))
         i (j + k) acc.
Proof.
  intros Hh Hwhile Hhalt self. split.
  - clear Hhalt. revert j Hwhile. induction k as [|k IH]; intros j Hwhile.
    + simpl. rewrite Nat.add_0_r. reflexivity.
    + simpl.
      destruct (step_on_head vocab text i j acc Hh) as [Hgo _].
      fold self in Hgo. rewrite Hgo.
      2:{ specialize (Hwhile 0 ltac:(lia)). rewrite Nat.add_0_r in Hwhile.
          exact Hwhile. }
      simpl. rewrite IH.
      * replace (j + 1 + k) with (j + S k) by lia. reflexivity.
      * intros d Hd. replace (j + 1 + d) with (j + S d) by lia.
        apply Hwhile. lia.
  - destruct (step_on_head vocab text i (j + k) acc Hh) as [_ Hstop].
    apply Hstop, Hhalt.
Qed.

Lemma greedy_extension_witness :
  let vocab := [("ab", 0); ("a", 1); ("b", 2); ("c", 3)] in
  let self := GreedyAtomizer.init vocab in
  steps 1 self "abc"
    {| GreedyAtomizer.si := 0; GreedyAtomizer.sj := 2;
       GreedyAtomizer.out := [] |}
  = Ok {| GreedyAtomizer.si := 0; GreedyAtomizer.sj := 2 + 1;
          GreedyAtomizer.out := [] |}
  /\ GreedyAtomizer.step self "abc"
       {| GreedyAtomizer.si := 0; GreedyAtomizer.sj := 2 + 1;
          GreedyAtomizer.out := [] |}
     = GreedyAtomizer.shrink self "abc" (cands_of self (item "abc" 0))
         0 (2 + 1) [].
Proof.
  apply (greedy_extension
           [("ab", 0); ("a", 1); ("b", 2); ("c", 3)] "abc" 0 2 1 []).
  - exists "ab". simpl. repeat split; auto.
  - intros d Hd. assert (d = 0) as -> by lia. split; [simpl; lia|].
    exists "ab". simpl. repeat split; auto.
  - intros (_ & x & Hin & Hlen & _ & Hp). simpl in Hin.
    destruct Hin as [<-|[<-|[<-|[<-|[]]]]]; vm_compute in Hp; simpl in Hlen;
      try discriminate; lia.
Defined.

(** C2, as stated, fails. With the atoms [ab], [a] and [b] and the text
    [ab], the first pass advances [j] from 2 to 3 although no atom is a
    proper prefix of [text[0:2]]; with the text [abc], the atom [ab] is a
    proper prefix of [text[0:3]] and [3 <= len(text)], yet the pass at
    [j = 3] does not advance [j]: it shrinks and emits [ab]. *)
Lemma greedy_extension_not_proper_prefix :
  let vocab := [("ab", 0); ("a", 1); ("b", 2); ("c", 3)] in
  let self := GreedyAtomizer.init vocab in
  (GreedyAtomizer.step self "ab"
     {| GreedyAtomizer.si := 0; GreedyAtomizer.sj := 2;
        GreedyAtomizer.out := [] |}
   = Ok {| GreedyAtomizer.si := 0; GreedyAtomizer.sj := 3;
           GreedyAtomizer.out := [] |}
   /\ ~ atom_is_proper_prefix vocab "ab" 0 2)
  /\ (atom_is_proper_prefix vocab "abc" 0 3
      /\ GreedyAtomizer.step self "abc"
           {| GreedyAtomizer.si := 0; GreedyAtomizer.sj := 3;
              GreedyAtomizer.out := [] |}
         = Ok {| GreedyAtomizer.si := 2; GreedyAtomizer.sj := 4;
                 GreedyAtomizer.out := [0] |}).
Proof.
  cbv zeta. split; split.
  - vm_compute. reflexivity.
  - intros (_ & x & Hin & Hlen & _ & Hp & Hne). simpl in Hin.
    destruct Hin as [<-|[<-|[<-|[<-|[]]]]]; vm_compute in Hp; simpl in Hlen;
      try discriminate; try lia. apply Hne. reflexivity.
  - split; [simpl; lia|]. exists "ab". simpl.
    repeat split; auto. discriminate.
  - vm_compute. reflexivity.
Qed.

(** C3. Whatever the order in which the set [OPENCL_ATOMS] is enumerated
    when the seed vocabulary is built, [tokenize] turns
    [__kernel void f] into the five atoms [__kernel], a space, [void], a
    space and [f]. *)
Theorem tokenize_kernel_void_f (order : list string) :
  Permutation OPENCL_ATOMS order ->
  GreedyAtomizer.tokenize
    (GreedyAtomizer.init (GreedyAtomizerFromText.opencl_vocab order))
    "__kernel void f"
  = Ok ["__kernel"; " "; "void"; " "; "f"].
Proof.
  intros Hperm.
  assert (Hnd0 : NoDup OPENCL_ATOMS) by apply NoDup_nodup.
  assert (Hnd : NoDup order) by (eapply Permutation_NoDup; eassumption).
  destruct (zip_range_dict order Hnd) as (_ & Hk & Hv).
  destruct (zip_range_dict OPENCL_ATOMS Hnd0) as (_ & Hk0 & Hv0).
  rewrite (init_tokenize_same_keys
             (GreedyAtomizerFromText.opencl_vocab order)
             (GreedyAtomizerFromText.opencl_vocab OPENCL_ATOMS)).
  - vm_compute. reflexivity.
  - unfold PyDict.wf, GreedyAtomizerFromText.opencl_vocab.
    rewrite Hk. exact Hnd.
  - unfold GreedyAtomizerFromText.opencl_vocab. rewrite Hv. apply seq_NoDup.
  - unfold PyDict.wf, GreedyAtomizerFromText.opencl_vocab.
    rewrite Hk0. exact Hnd0.
  - unfold GreedyAtomizerFromText.opencl_vocab. rewrite Hv0. apply seq_NoDup.
  - intros a. unfold GreedyAtomizerFromText.opencl_vocab. rewrite Hk, Hk0.
    split; intros H.
    + eapply Permutation_in; [apply Permutation_sym, Hperm|exact H].
    + eapply Permutation_in; [exact Hperm|exact H].
Qed.

Lemma tokenize_kernel_void_f_witness :
  GreedyAtomizer.tokenize
    (GreedyAtomizer.init
       (GreedyAtomizerFromText.opencl_vocab (rev OPENCL_ATOMS)))
    "__kernel void f"
  = Ok ["__kernel"; " "; "void"; " "; "f"].
Proof.
  apply (tokenize_kernel_void_f (rev OPENCL_ATOMS)).
  apply Permutation_rev.
Defined.

(** C10. [atomize] ends on every text, for every atomizer: the fuel that
    the model gives the loop is never exhausted and more fuel changes
    nothing; every pass either moves the anchor [i] forward or adds one to
    [j] while [j <= len(text)]; the shrink loop ends with [i] moved
    forward, to [i + 1] or to a match at most at [j]. *)
Theorem greedy_atomize_terminates (self : GreedyAtomizer.t) (text : string) :
  GreedyAtomizer.atomize self text <> Raise Diverged
  /\ (forall extra,
        GreedyAtomizer.loop (GreedyAtomizer.fuel_for text + extra) self text
          {| GreedyAtomizer.si := 0; GreedyAtomizer.sj := 2;
             GreedyAtomizer.out := [] |}
        = GreedyAtomizer.atomize self text)
  /\ (forall s,
        match GreedyAtomizer.step self text s with
        | Ok s' =>
            GreedyAtomizer.si s < GreedyAtomizer.si s' \/
            (GreedyAtomizer.si s' = GreedyAtomizer.si s /\
             GreedyAtomizer.sj s' = GreedyAtomizer.sj s + 1 /\
             GreedyAtomizer.sj s <= String.length text)
        | Raise e => e = VocabError
        end)
  /\ (forall cands i j acc,
        match GreedyAtomizer.shrink self text cands i j acc with
        | Ok s' =>
            GreedyAtomizer.si s' = i + 1 \/
            (i + 1 < GreedyAtomizer.si s' /\ GreedyAtomizer.si s' <= j)
        | Raise e => e = VocabError
        end).
Proof.
  split; [apply atomize_not_diverged|]. split; [|split].
  - intros extra. unfold GreedyAtomizer.atomize.
    apply (loop_enough_fuel self text _ _ (init_measure text)).
  - intros s.
    destruct (GreedyAtomizer.step self text s) as [s'|e] eqn:E.
    + apply (step_progress self text s s' E).
    + apply (step_raises self text s e E).
  - intros cands i j acc.
    destruct (GreedyAtomizer.shrink self text cands i j acc) as [s'|e] eqn:E.
    + apply (shrink_progress self text cands i j acc s' E).
    + apply (shrink_raises self text cands i j acc e E).
Qed.

(* ================================================================= *)
(** * The claims about the kernel driver *)




(** The host array of the argument, if it has one, holds
    [size * vector_width] elements of the type of the argument. *)
Definition sized (size : nat) (a : CLDrive.KernelArg) : Prop :=
  forall h,
    CLDrive.hostdata a = Some h ->
    CLDrive.numpy_type a = Some (CLDrive.dt h) /\
    List.length (CLDrive.elems h) = size * CLDrive.vector_width a.

Lemma generated_from_sized size proto a :
  generated_from size proto a -> sized size a.
Proof.
  intros [(_ & Ht & Hw & _) (t & Hpt & H)] h Hh. cbv zeta in H.
  rewrite Ht, Hw, Hpt.
  destruct (CLDrive.is_pointer proto && CLDrive.is_local proto).
  - destruct H as (H & _). congruence.
  - destruct (CLDrive.is_pointer proto).
    + destruct H as ((h' & id & Hh' & Hdt & Hlen & _) & _).
      assert (h' = h) as -> by congruence. rewrite Hdt. auto.
    + destruct H as (H & _). congruence.
Qed.

Lemma host_array_iff (a : CLDrive.KernelArg) :
  generated_arg a ->
  CLDrive.hostdata a <> None <->
  CLDrive.is_pointer a && negb (CLDrive.is_local a) = true.
Proof.
  intros Ha. unfold generated_arg in Ha.
  destruct (CLDrive.hostdata a) as [h|].
  - destruct Ha as (-> & -> & _). split; [reflexivity|discriminate].
  - destruct Ha as [(-> & -> & _)|(-> & _)]; simpl;
      split; intros; congruence.
Qed.

(** C6. A payload that a generator returns for a driver has one argument
    for every argument of the prototype of the driver, in order and with the
    same descriptor; the arguments with a host array are exactly the
    pointers that are not local; and the transfer size recorded is the sum
    over the arguments of: the bytes of the host array for a const pointer
    that is not local, twice the bytes for such a pointer that is not const,
    and nothing for a local pointer or a scalar. The host arrays hold
    [size * vector_width] elements of the type of their argument, so that
    the transfer size is the sum over the prototype of
    [size * vector_width * itemsize], counted twice unless const, for the
    pointers that are not local; for the random generator this needs
    [np.random.rand] to return arrays of the length asked for. *)
Theorem transfersize_formula (P : CLDrive.Platform)
  (generator : nat -> CLDrive.M CLDrive.KernelPayload) (size : nat)
  (m m' : CLDrive.machine) (p : CLDrive.KernelPayload) :
  generator = CLDrive.create_sequential P \/
  generator = CLDrive.create_random P ->
  generator size m = (Ok p, m') ->
  Forall2 same_descriptor
    (CLDrive.d_prototype (CLDrive.driver m)) (CLDrive.p_args p)
  /\ Forall (fun a =>
               CLDrive.hostdata a <> None <->
               CLDrive.is_pointer a && negb (CLDrive.is_local a) = true)
            (CLDrive.p_args p)
  /\ CLDrive.p_transfersize p = list_sum (map contribution (CLDrive.p_args p))
  /\ (generator = CLDrive.create_sequential P \/
      (forall k n, List.length (CLDrive.random_rand P k n) = n) ->
      Forall (sized size) (CLDrive.p_args p) /\
      CLDrive.p_transfersize p
      = list_sum (map (expected_bytes size)
                    (CLDrive.d_prototype (CLDrive.driver m)))).
Proof.
  intros Hgen Hrun.
  assert (H : exists nparray,
             CLDrive._create_payload P nparray size m = (Ok p, m')).
  { destruct Hgen as [-> | ->]; eexists; exact Hrun. }
  destruct H as (nparray & H).
  split; [apply (create_payload_descriptor P nparray size m p m' H)|].
  pose proof (create_payload_Ok _ _ _ _ _ _ H) as (Ht & Hg & _).
  split; [|split; [exact Ht|]].
  { eapply Forall_impl; [|exact Hg]. intros a. apply host_array_iff. }
  clear nparray H Ht Hg. intros Hlen.
  assert (H : exists nparray,
             numpy_generator nparray /\
             CLDrive._create_payload P nparray size m = (Ok p, m')).
  { destruct Hlen as [-> | Hlen].
    - eexists. split; [apply arange_generator|exact Hrun].
    - destruct Hgen as [-> | ->]; eexists; (split; [|exact Hrun]).
      + apply arange_generator.
      + apply (random_generator P Hlen). }
  destruct H as (nparray & Hnp & H).
  apply (create_payload_shape P nparray size m p m' Hnp) in H
    as (_ & _ & Hfrom & Hsum).
  split; [|exact Hsum]. clear Hsum.
  induction Hfrom as [|proto a protos args Ha _ IH]; constructor;
    [apply (generated_from_sized size proto a Ha)|exact IH].
Qed.

Lemma transfersize_formula_witness :
  let protos := CLDrive.d_prototype (CLDrive.driver Demo.m0_inc) in
  let p := Demo.A1_inc in
  Forall2 same_descriptor protos (CLDrive.p_args p)
  /\ Forall (fun a =>
               CLDrive.hostdata a <> None <->
               CLDrive.is_pointer a && negb (CLDrive.is_local a) = true)
            (CLDrive.p_args p)
  /\ CLDrive.p_transfersize p = list_sum (map contribution (CLDrive.p_args p))
  /\ Forall (sized 4) (CLDrive.p_args p)
  /\ CLDrive.p_transfersize p = list_sum (map (expected_bytes 4) protos)
  /\ CLDrive.p_transfersize p = 32.
Proof.
  cbv zeta.
  destruct (transfersize_formula Demo.P_inc
              (CLDrive.create_sequential Demo.P_inc) 4 Demo.m0_inc
              Demo.m1_inc Demo.A1_inc)
    as (H1 & H2 & H3 & H4).
  - left. reflexivity.
  - vm_compute. reflexivity.
  - destruct (H4 (or_introl eq_refl)) as [H5 H6].
    split; [exact H1|]. split; [exact H2|]. split; [exact H3|].
    split; [exact H5|]. split; [exact H6|].
    vm_compute. reflexivity.
Defined.

(** ** [device_to_host]: what is copied and what is returned *)

(** The buffers that [device_to_host] reads back: those of the arguments
    that have a host array and are not const. *)
Definition read_back (args : list CLDrive.KernelArg) : list nat :=
  flat_map
    (fun a =>
       match CLDrive.hostdata a, CLDrive.devdata a with
       | Some _, Some (CLDrive.Buffer id) =>
           if CLDrive.is_const a then [] else [id]
       | _, _ => []
       end)
    args.

Lemma copy_to_host_Ok h d m eh m' :
  CLDrive.enqueue_copy_to_host h d m = (Ok eh, m') ->
  exists id, d = Some (CLDrive.Buffer id) /\
             fst eh = CLDrive.events m /\
             CLDrive.queue m' = CLDrive.queue m ++ [CLDrive.CopyDeviceToHost id].
Proof.
  unfold CLDrive.enqueue_copy_to_host.
  destruct d as [[t v|id|id n]|]; try discriminate.
  unfold CLDrive.bindM, CLDrive.read, CLDrive.enqueue, CLDrive.ret,
    CLDrive.raise.
  destruct (PyDict.get Nat.eqb (CLDrive.memory m) id); [|discriminate].
  intros H; injection H as <- <-. simpl. eauto.
Qed.

Lemma get_event_time_state P ev m :
  snd (CLDrive.get_event_time P ev m) = m.
Proof.
  unfold CLDrive.get_event_time.
  destruct (CLDrive.profiling_info P ev) as [[a b]|]; reflexivity.
Qed.

Lemma device_to_host_loop_Ok P args elapsed m r m' :
  CLDrive.device_to_host_loop P args elapsed m = (Ok r, m') ->
  fst r = elapsed /\
  CLDrive.queue m'
  = CLDrive.queue m ++ map CLDrive.CopyDeviceToHost (read_back args).
Proof.
  revert m r m'; induction args as [|a args IH]; simpl; intros m r m' H.
  - apply ret_Ok in H as [<- <-]. rewrite app_nil_r. auto.
  - destruct (CLDrive.hostdata a) as [h|] eqn:Hh.
    + destruct (CLDrive.is_const a) eqn:Hc.
      * apply bindM_Ok in H as (r1 & m1 & H1 & H).
        apply ret_Ok in H as [<- <-]. apply IH in H1 as [E Hq]. simpl.
        split; [exact E|]. rewrite Hq.
        destruct (CLDrive.devdata a) as [[? ?|?|? ?]|]; reflexivity.
      * apply bindM_Ok in H as (eh & m1 & He & H).
        apply bindM_Ok in H as (t & m2 & Ht & H).
        apply bindM_Ok in H as (r1 & m3 & H1 & H).
        apply ret_Ok in H as [<- <-]. apply IH in H1 as [E Hq]. simpl.
        split; [exact E|]. rewrite Hq.
        apply copy_to_host_Ok in He as (id & -> & _ & Hq1).
        pose proof (get_event_time_state P (fst eh) m1) as Hs.
        rewrite Ht in Hs. simpl in Hs. subst m2.
        rewrite Hq1, <- app_assoc. reflexivity.
    + apply bindM_Ok in H as (r1 & m1 & H1 & H).
      apply ret_Ok in H as [<- <-]. apply IH in H1 as [E Hq]. simpl.
      split; [exact E|]. rewrite Hq. reflexivity.
Qed.

(** When [device_to_host] returns, it has enqueued one copy from the device
    for every argument with a host array that is not const, and nothing
    else; what it returns is zero. *)
Lemma device_to_host_Ok P p m r m' :
  CLDrive.device_to_host P p m = (Ok r, m') ->
  fst r = 0%Q /\
  CLDrive.queue m'
  = CLDrive.queue m
    ++ map CLDrive.CopyDeviceToHost (read_back (CLDrive.p_args p)).
Proof.
  unfold CLDrive.device_to_host. intros H.
  apply bindM_Ok in H as (r1 & m1 & H1 & H).
  apply ret_Ok in H as [<- <-]. simpl.
  apply device_to_host_loop_Ok in H1. exact H1.
Qed.

(** C5. The code departs from the claim. [device_to_host] does enqueue a
    copy from the device for every argument that has a host array and is not
    const, but it returns zero whatever the events took. On the payload for
    [__global int* a, const int n] the copy of [a] is enqueued, its event
    takes three milliseconds, and the result is zero; [host_to_device] on
    the same payload returns the three milliseconds of its copy. *)
Theorem device_to_host_returns_zero :
  (forall P p m,
     match CLDrive.device_to_host P p m with
     | (Ok r, m') =>
         fst r = 0%Q /\
         CLDrive.queue m'
         = CLDrive.queue m
           ++ map CLDrive.CopyDeviceToHost (read_back (CLDrive.p_args p))
     | (Raise _, _) => True
     end)
  /\ (let r := CLDrive.device_to_host Demo.P_inc Demo.A1_inc Demo.m1_inc in
      (exists p', fst r = Ok (0%Q, p')) /\
      CLDrive.queue (snd r)
      = CLDrive.queue Demo.m1_inc ++ [CLDrive.CopyDeviceToHost 0] /\
      (exists t,
         fst (CLDrive.get_event_time Demo.P_inc
                (CLDrive.events Demo.m1_inc) Demo.m1_inc) = Ok t
         /\ (t == 3)%Q) /\
      (exists t,
         fst (CLDrive.host_to_device Demo.P_inc Demo.A1_inc Demo.m1_inc)
         = Ok t /\ (t == 3)%Q)).
Proof.
  split.
  - intros P p m.
    destruct (CLDrive.device_to_host P p m) as [[r|e] m'] eqn:E; [|exact I].
    apply (device_to_host_Ok P p m r m' E).
  - cbv zeta. split; [|split; [|split]].
    + eexists. vm_compute. reflexivity.
    + vm_compute. reflexivity.
    + eexists. split; [vm_compute; reflexivity|]. vm_compute. reflexivity.
    + eexists. split; [vm_compute; reflexivity|]. vm_compute. reflexivity.
Qed.

(** ** A payload and its deep copy under [__eq__] *)

Lemma Qeq_bool_refl (q : Q) : Qeq_bool q q = true.
Proof. apply Qeq_bool_iff. reflexivity. Qed.

Definition is_nan (x : CLDrive.number) : bool :=
  match x with
  | CLDrive.NaN => true
  | _ => false
  end.

(** A number differs from itself exactly when it is a NaN. *)
Lemma number_ne_same (x : CLDrive.number) : CLDrive.number_ne x x = is_nan x.
Proof.
  destruct x as [q|s|]; simpl; [|destruct s|]; try reflexivity.
  rewrite Qeq_bool_refl. reflexivity.
Qed.

Lemma zip_self_equal (l : list CLDrive.number) :
  existsb (fun e => CLDrive.number_ne (fst e) (snd e)) (zip l l)
  = existsb is_nan l.
Proof.
  induction l as [|x l IH]; simpl; [reflexivity|].
  rewrite number_ne_same, IH. reflexivity.
Qed.

(** Whether a NaN is among the numbers of the argument that [__eq__] looks
    at: those of the host array, or else the scalar. *)
Definition holds_nan (a : CLDrive.KernelArg) : bool :=
  match CLDrive.hostdata a with
  | Some h => existsb is_nan (CLDrive.elems h)
  | None =>
      match CLDrive.devdata a with
      | Some (CLDrive.Scalar _ v) => is_nan v
      | _ => false
      end
  end.

(** No conversion makes a NaN of a number that is none. *)
Lemma cast_not_nan t x : is_nan x = false -> is_nan (CLDrive.cast t x) = false.
Proof.
  intros Hx.
  assert (Hr : forall prec emin emax q,
             is_nan (CLDrive.round_float prec emin emax q) = false).
  { intros prec emin emax q. unfold CLDrive.round_float.
    destruct (Qeq_bool q 0); [reflexivity|]. cbv zeta.
    destruct (Qle_bool _ _); reflexivity. }
  unfold CLDrive.cast.
  destruct t; destruct x as [q|s|]; try reflexivity; try discriminate;
    apply Hr.
Qed.

Lemma of_int_not_nan t n : is_nan (CLDrive.of_int t n) = false.
Proof.
  unfold CLDrive.of_int. destruct t; repeat apply cast_not_nan; reflexivity.
Qed.

(** An array generator whose arrays hold no NaN. *)
Definition nan_free (nparray : nat -> CLDrive.M CLDrive.ndarray) : Prop :=
  forall n m a m',
    nparray n m = (Ok a, m') -> existsb is_nan (CLDrive.elems a) = false.

Lemma existsb_map_false {A B : Type} (f : A -> B) (g : B -> bool) l :
  (forall x, g (f x) = false) -> existsb g (map f l) = false.
Proof.
  intros H. induction l as [|x l IH]; simpl; [reflexivity|].
  rewrite H, IH. reflexivity.
Qed.

Lemma np_arange_nan_free : nan_free CLDrive.np_arange.
Proof.
  intros n m a m' H. unfold CLDrive.np_arange, CLDrive.ret in H.
  injection H as <- _. simpl. apply existsb_map_false. reflexivity.
Qed.

Lemma np_random_rand_nan_free P : nan_free (CLDrive.np_random_rand P).
Proof.
  intros n m a m' H. unfold CLDrive.np_random_rand in H.
  injection H as <- _. cbn [CLDrive.elems]. apply existsb_map_false.
  intros q.
  exact (cast_not_nan CLDrive.float64 (CLDrive.Finite q) eq_refl).
Qed.

Lemma astype_nan_free a t :
  existsb is_nan (CLDrive.elems a) = false ->
  existsb is_nan (CLDrive.elems (CLDrive.astype a t)) = false.
Proof.
  simpl. induction (CLDrive.elems a) as [|x l IH]; simpl; [reflexivity|].
  intros H. apply orb_false_iff in H as [Hx Hl].
  rewrite (cast_not_nan t x Hx). apply IH, Hl.
Qed.

(** The generators put no NaN into a payload. *)
Lemma create_arg_no_nan P nparray ctx size a m a' t m' :
  nan_free nparray ->
  CLDrive.create_arg P nparray ctx size a m = (Ok (a', t), m') ->
  holds_nan a' = false.
Proof.
  intros Hgen. unfold CLDrive.create_arg. simpl.
  destruct (CLDrive.numpy_type a) as [dtype|]; [|discriminate].
  destruct (CLDrive.is_pointer a); destruct (CLDrive.is_local a); simpl;
    intros H.
  - apply bindM_Ok in H as (nonbuf & m1 & _ & H).
    apply bindM_Ok in H as (d & m2 & Hd & H).
    apply LocalMemory_new_Ok in Hd. apply ret_Ok in H as [H _].
    injection H as <- _. subst d. reflexivity.
  - apply bindM_Ok in H as (arr & m1 & Harr & H).
    apply bindM_Ok in H as (d & m2 & _ & H).
    apply ret_Ok in H as [H _]. injection H as <- _.
    unfold holds_nan.
    cbn [CLDrive.hostdata CLDrive.set_devdata CLDrive.set_flags
         CLDrive.set_hostdata].
    apply astype_nan_free, (Hgen _ _ _ _ Harr).
  - apply ret_Ok in H as [H _]. injection H as <- _.
    unfold holds_nan. simpl. apply of_int_not_nan.
  - apply ret_Ok in H as [H _]. injection H as <- _.
    unfold holds_nan. simpl. apply of_int_not_nan.
Qed.

Lemma create_payload_no_nan P nparray size m p m' :
  nan_free nparray ->
  CLDrive._create_payload P nparray size m = (Ok p, m') ->
  existsb holds_nan (CLDrive.p_args p) = false.
Proof.
  intros Hgen H. unfold CLDrive._create_payload in H.
  apply bindM_Ok in H as (m0 & m1 & Hread & H).
  apply ret_Ok in Hread as [<- <-].
  apply bindM_Ok in H as (made & m2 & Hmade & H).
  apply ret_Ok in H as [<- _]. simpl.
  apply except_all_Ok in Hmade. revert Hmade.
  generalize (map CLDrive.KernelArg_of_string
                (CLDrive.d_prototype (CLDrive.driver m))).
  intros args. revert m made m2.
  induction args as [|x args IH]; simpl; intros m made m2 H.
  - apply ret_Ok in H as [<- _]. reflexivity.
  - apply bindM_Ok in H as ([a' t] & m1 & Hx & H).
    apply bindM_Ok in H as (ys & m3 & Hys & H).
    apply ret_Ok in H as [<- _]. simpl.
    rewrite (create_arg_no_nan _ _ _ _ _ _ _ _ _ Hgen Hx).
    apply (IH _ _ _ Hys).
Qed.

(** The test of [__deepcopy__] for a local memory buffer. *)
Definition is_scratch (a : CLDrive.KernelArg) : bool :=
  match CLDrive.hostdata a with
  | None => CLDrive.is_local a
  | Some _ => false
  end.

(** The OpenCL objects of the argument were made before [n] objects
    existed. *)
Definition made_before (n : nat) (a : CLDrive.KernelArg) : Prop :=
  forall id size,
    CLDrive.devdata a = Some (CLDrive.LocalMemory id size) -> id < n.

Lemma LocalMemory_new_next n m d m' :
  CLDrive.LocalMemory_new n m = (Ok d, m') ->
  CLDrive.next_object m' = S (CLDrive.next_object m).
Proof.
  unfold CLDrive.LocalMemory_new, CLDrive.bindM, CLDrive.new_object,
    CLDrive.ret.
  intros H; injection H as _ <-. reflexivity.
Qed.

Lemma Buffer_new_next P ctx fl h m d m' :
  CLDrive.Buffer_new P ctx fl h m = (Ok d, m') ->
  CLDrive.next_object m' = S (CLDrive.next_object m).
Proof.
  unfold CLDrive.Buffer_new.
  destruct (CLDrive.buffer_ok P _); [|discriminate].
  unfold CLDrive.bindM, CLDrive.new_object, CLDrive.store, CLDrive.ret.
  intros H; injection H as _ <-. reflexivity.
Qed.

Lemma attribute_Ok {A : Type} (x : option A) m a m' :
  CLDrive.attribute x m = (Ok a, m') -> x = Some a /\ m' = m.
Proof.
  destruct x; simpl; unfold CLDrive.ret, CLDrive.raise; intros H;
    [injection H as <- <-; auto|discriminate].
Qed.

(** What [__deepcopy__] makes of one argument. *)
Lemma deepcopy_arg_Ok P ctx src m dst m' :
  CLDrive.deepcopy_arg P ctx src m = (Ok dst, m') ->
  CLDrive.next_object m <= CLDrive.next_object m' /\
  match CLDrive.hostdata src with
  | Some h =>
      exists h', CLDrive.hostdata dst = Some h' /\
                 CLDrive.elems h' = CLDrive.elems h
  | None =>
      CLDrive.hostdata dst = None /\
      if CLDrive.is_local src then
        exists size,
          CLDrive.devdata dst
          = Some (CLDrive.LocalMemory (CLDrive.next_object m) size)
      else
        exists t v,
          CLDrive.devdata src = Some (CLDrive.Scalar t v) /\
          CLDrive.devdata dst = Some (CLDrive.Scalar t v)
  end.
Proof.
  unfold CLDrive.deepcopy_arg.
  destruct (CLDrive.hostdata src) as [h|].
  - intros H. apply bindM_Ok in H as (fl & m1 & Hfl & H).
    apply attribute_Ok in Hfl as [_ ->].
    apply bindM_Ok in H as (d & m2 & Hd & H).
    apply ret_Ok in H as [<- <-]. apply Buffer_new_next in Hd.
    split; [lia|]. simpl. eauto.
  - destruct (CLDrive.is_local src).
    + intros H. apply bindM_Ok in H as (size & m1 & Hb & H).
      apply attribute_Ok in Hb as [_ ->].
      apply bindM_Ok in H as (d & m2 & Hd & H).
      apply ret_Ok in H as [<- <-].
      pose proof (LocalMemory_new_next _ _ _ _ Hd) as Hn.
      apply LocalMemory_new_Ok in Hd as ->.
      split; [lia|]. simpl. eauto.
    + intros H. apply bindM_Ok in H as (d & m1 & Hd & H).
      apply ret_Ok in H as [<- <-].
      unfold CLDrive.deepcopy_devdata in Hd.
      destruct (CLDrive.devdata src) as [[t v|id|id n]|]; try discriminate.
      apply ret_Ok in Hd as [<- <-]. split; [lia|]. simpl. eauto.
Qed.

(** The comparison of the arguments of a payload with those of its copy:
    equal exactly when no argument is a local memory buffer. *)
Lemma clone_args_eq P ctx args :
  forall m copies m',
    Forall generated_arg args ->
    existsb holds_nan args = false ->
    Forall (made_before (CLDrive.next_object m)) args ->
    CLDrive.for_each (CLDrive.deepcopy_arg P ctx) args m = (Ok copies, m') ->
    List.length copies = List.length args /\
    CLDrive.args_eq args copies = Ok (negb (existsb is_scratch args)).
Proof.
  induction args as [|a args IH]; simpl; intros m copies m' Hg Hnan Hb H.
  - apply ret_Ok in H as [<- _]. auto.
  - apply bindM_Ok in H as (c & m1 & Hc & H).
    apply bindM_Ok in H as (cs & m2 & Hcs & H).
    apply ret_Ok in H as [<- _].
    inversion Hg as [|? ? Hga Hg']; subst.
    inversion Hb as [|? ? Hba Hb']; subst.
    apply orb_false_iff in Hnan as [Hna Hnan].
    apply deepcopy_arg_Ok in Hc as [Hn Hc].
    assert (Hb1 : Forall (made_before (CLDrive.next_object m1)) args).
    { eapply Forall_impl; [|exact Hb']. intros x Hx id size Hd.
      specialize (Hx id size Hd). lia. }
    destruct (IH m1 cs m2 Hg' Hnan Hb1 Hcs) as [Hlen Heq].
    split; [simpl; congruence|]. simpl.
    unfold is_scratch at 1. unfold generated_arg in Hga.
    unfold holds_nan in Hna.
    destruct (CLDrive.hostdata a) as [h|] eqn:Hh.
    + destruct Hc as (h' & -> & He). rewrite He, Nat.eqb_refl. simpl.
      rewrite zip_self_equal, Hna. exact Heq.
    + destruct Hc as [_ Hc]. destruct (CLDrive.is_local a) eqn:Hl.
      * destruct Hc as (size & ->). simpl.
        destruct Hga as [(_ & _ & id & size' & Hd)|(_ & t & v & Hd)];
          rewrite Hd; simpl; [|reflexivity].
        specialize (Hba id size' Hd).
        destruct (Nat.eqb_spec id (CLDrive.next_object m)); [lia|].
        reflexivity.
      * destruct Hc as (t & v & Hsrc & ->). rewrite Hsrc in Hna |- *. simpl.
        rewrite number_ne_same, Hna. exact Heq.
Qed.

Lemma clone_eq P p m q m' :
  Forall generated_arg (CLDrive.p_args p) ->
  existsb holds_nan (CLDrive.p_args p) = false ->
  Forall (made_before (CLDrive.next_object m)) (CLDrive.p_args p) ->
  CLDrive.deepcopy P p m = (Ok q, m') ->
  CLDrive.payload_eq p q
  = Ok (negb (existsb is_scratch (CLDrive.p_args p))).
Proof.
  intros Hg Hnan Hb H. unfold CLDrive.deepcopy in H.
  apply bindM_Ok in H as (copies & m1 & Hc & H).
  apply ret_Ok in H as [<- _].
  destruct (clone_args_eq P _ _ _ _ _ Hg Hnan Hb Hc) as [Hlen Heq].
  unfold CLDrive.payload_eq. simpl.
  rewrite Nat.eqb_refl, Hlen, Nat.eqb_refl. simpl. exact Heq.
Qed.

(** An array generator that makes no OpenCL object. *)
Definition makes_no_object (nparray : nat -> CLDrive.M CLDrive.ndarray)
  : Prop :=
  forall n m, CLDrive.next_object (snd (nparray n m)) = CLDrive.next_object m.

Lemma create_arg_objects P nparray ctx size a m a' t m' :
  makes_no_object nparray ->
  CLDrive.create_arg P nparray ctx size a m = (Ok (a', t), m') ->
  CLDrive.next_object m <= CLDrive.next_object m' /\
  made_before (CLDrive.next_object m') a'.
Proof.
  intros Hgen. unfold CLDrive.create_arg. simpl.
  destruct (CLDrive.numpy_type a) as [dtype|]; [|discriminate].
  destruct (CLDrive.is_pointer a); destruct (CLDrive.is_local a); simpl;
    intros H.
  - apply bindM_Ok in H as (nonbuf & m1 & Hn & H).
    apply bindM_Ok in H as (d & m2 & Hd & H).
    apply ret_Ok in H as [H <-]. injection H as <- <-.
    pose proof (Hgen (size * CLDrive.vector_width a) m) as H1.
    rewrite Hn in H1. simpl in H1.
    pose proof (LocalMemory_new_next _ _ _ _ Hd) as H2.
    apply LocalMemory_new_Ok in Hd as ->.
    split; [lia|]. intros id sz E. simpl in E. injection E as <- _. lia.
  - apply bindM_Ok in H as (arr & m1 & Hn & H).
    apply bindM_Ok in H as (d & m2 & Hd & H).
    apply ret_Ok in H as [H <-]. injection H as <- <-.
    pose proof (Hgen (size * CLDrive.vector_width a) m) as H1.
    rewrite Hn in H1. simpl in H1.
    pose proof (Buffer_new_next _ _ _ _ _ _ _ Hd) as H2.
    apply Buffer_new_Ok in Hd as ->.
    split; [lia|]. intros id sz E. simpl in E. discriminate.
  - apply ret_Ok in H as [H <-]. injection H as <- <-.
    split; [lia|]. intros id sz E. simpl in E. discriminate.
  - apply ret_Ok in H as [H <-]. injection H as <- <-.
    split; [lia|]. intros id sz E. simpl in E. discriminate.
Qed.

Lemma create_args_objects P nparray ctx size args :
  makes_no_object nparray ->
  forall m made m',
    CLDrive.for_each (CLDrive.create_arg P nparray ctx size) args m
    = (Ok made, m') ->
    CLDrive.next_object m <= CLDrive.next_object m' /\
    Forall (made_before (CLDrive.next_object m')) (map fst made).
Proof.
  intros Hgen. induction args as [|x args IH]; simpl; intros m made m' H.
  - apply ret_Ok in H as [<- <-]. split; [lia|constructor].
  - apply bindM_Ok in H as ([a' t] & m1 & Hx & H).
    apply bindM_Ok in H as (ys & m2 & Hys & H).
    apply ret_Ok in H as [<- <-].
    apply (create_arg_objects P nparray ctx size x m a' t m1 Hgen) in Hx
      as [Hn Hb].
    apply IH in Hys as [Hn' Hbs]. split; [lia|]. simpl. constructor.
    + intros id sz E. specialize (Hb id sz E). lia.
    + exact Hbs.
Qed.

Lemma create_payload_objects P nparray size m p m' :
  makes_no_object nparray ->
  CLDrive._create_payload P nparray size m = (Ok p, m') ->
  Forall (made_before (CLDrive.next_object m')) (CLDrive.p_args p).
Proof.
  intros Hgen H. unfold CLDrive._create_payload in H.
  apply bindM_Ok in H as (m0 & m1 & Hread & H).
  apply ret_Ok in Hread as [<- <-].
  apply bindM_Ok in H as (made & m2 & Hmade & H).
  apply ret_Ok in H as [<- <-]. simpl.
  apply except_all_Ok in Hmade.
  apply (create_args_objects P nparray _ size _ Hgen) in Hmade as [_ H].
  exact H.
Qed.

Lemma np_arange_no_object : makes_no_object CLDrive.np_arange.
Proof. intros n m. reflexivity. Qed.

Lemma np_random_rand_no_object P : makes_no_object (CLDrive.np_random_rand P).
Proof. intros n m. reflexivity. Qed.

(** A payload of a generator and its deep copy, made when as many or more
    objects exist: [__eq__] returns true exactly when no argument is a local
    memory buffer. *)
Lemma generated_clone_eq P generator size m0 p m1 m q m' :
  generator = CLDrive.create_sequential P \/
  generator = CLDrive.create_random P ->
  generator size m0 = (Ok p, m1) ->
  CLDrive.next_object m1 <= CLDrive.next_object m ->
  CLDrive.deepcopy P p m = (Ok q, m') ->
  CLDrive.payload_eq p q
  = Ok (negb (existsb is_scratch (CLDrive.p_args p))).
Proof.
  intros Hgen Hrun Hle Hcopy.
  assert (H : exists nparray,
             makes_no_object nparray /\ nan_free nparray /\
             CLDrive._create_payload P nparray size m0 = (Ok p, m1)).
  { destruct Hgen as [-> | ->]; eexists; (split; [|split; [|exact Hrun]]).
    - apply np_arange_no_object.
    - apply np_arange_nan_free.
    - apply np_random_rand_no_object.
    - apply np_random_rand_nan_free. }
  destruct H as (nparray & Hno & Hnan & H).
  pose proof (create_payload_objects P nparray size m0 p m1 Hno H) as Hb.
  pose proof (create_payload_no_nan P nparray size m0 p m1 Hnan H) as Hn.
  apply create_payload_Ok in H as (_ & Hg & _).
  apply (clone_eq P p m q m' Hg Hn); [|exact Hcopy].
  eapply Forall_impl; [|exact Hb].
  intros a Ha id sz E. specialize (Ha id sz E). lia.
Qed.

(** C4. The code departs from the claim. [__eq__] compares the device side
    of every argument without a host array, local memory buffers included,
    and two [cl.LocalMemory] objects differ unless they are the same object.
    So the deep copy of a generated payload is equal to the payload
    exactly when the payload has no local memory buffer; on the payload for
    [__global float* a, __local int* c] the copy is not equal to the
    payload, in either direction, and [validate] raises [E_BAD_DRIVER]. *)
Theorem clone_of_local_pointer_differs :
  (forall P generator size m0 p m1 q m2,
     generator = CLDrive.create_sequential P \/
     generator = CLDrive.create_random P ->
     generator size m0 = (Ok p, m1) ->
     CLDrive.deepcopy P p m1 = (Ok q, m2) ->
     CLDrive.payload_eq p q
     = Ok (negb (existsb is_scratch (CLDrive.p_args p))))
  /\ (let copy := CLDrive.deepcopy Demo.P_local Demo.A1_local Demo.m1_local in
      exists q, fst copy = Ok q /\
                CLDrive.payload_eq Demo.A1_local q = Ok false /\
                CLDrive.payload_eq q Demo.A1_local = Ok false)
  /\ fst (CLDrive.validate Demo.P_local 3 4 Demo.m0_local) = Raise E_BAD_DRIVER.
Proof.
  split; [|split].
  - intros P generator size m0 p m1 q m2 Hgen Hrun Hcopy.
    apply (generated_clone_eq P generator size m0 p m1 m1 q m2 Hgen Hrun
             (le_n _) Hcopy).
  - cbv zeta. eexists. split; [vm_compute; reflexivity|].
    split; vm_compute; reflexivity.
  - vm_compute. reflexivity.
Qed.

(** ** [validate]: the checks on the outputs *)

(** The host array of [x], if any, has a counterpart in [y]. *)
Definition keeps_host (x y : CLDrive.KernelArg) : Prop :=
  CLDrive.hostdata x <> None -> CLDrive.hostdata y <> None.

Lemma args_eq_raises xs ys e :
  CLDrive.args_eq xs ys = Raise e -> e = TypeError.
Proof.
  revert ys; induction xs as [|x xs IH]; intros [|y ys]; simpl;
    try discriminate.
  destruct (CLDrive.hostdata x) as [hx|].
  - destruct (CLDrive.hostdata y) as [hy|]; [|congruence].
    destruct (negb _); [discriminate|].
    destruct (existsb _ _); [discriminate|apply IH].
  - destruct (CLDrive.devdata_ne _ _); [discriminate|apply IH].
Qed.

Lemma payload_eq_raises x y e :
  CLDrive.payload_eq x y = Raise e -> e = TypeError.
Proof.
  unfold CLDrive.payload_eq.
  destruct (negb _); [discriminate|]. destruct (negb _); [discriminate|].
  apply args_eq_raises.
Qed.

Lemma args_eq_returns xs ys :
  Forall2 keeps_host xs ys -> exists b, CLDrive.args_eq xs ys = Ok b.
Proof.
  induction 1 as [|x y xs ys Hxy _ IH]; simpl; [eauto|].
  unfold keeps_host in Hxy.
  destruct (CLDrive.hostdata x) as [hx|].
  - destruct (CLDrive.hostdata y) as [hy|];
      [|exfalso; apply Hxy; [discriminate|reflexivity]].
    destruct (negb _); [eauto|]. destruct (existsb _ _); [eauto|exact IH].
  - destruct (CLDrive.devdata_ne _ _); [eauto|exact IH].
Qed.

Lemma payload_eq_returns x y :
  Forall2 keeps_host (CLDrive.p_args x) (CLDrive.p_args y) ->
  exists b, CLDrive.payload_eq x y = Ok b.
Proof.
  intros H. unfold CLDrive.payload_eq.
  destruct (negb _); [eauto|]. destruct (negb _); [eauto|].
  apply args_eq_returns, H.
Qed.

Lemma Forall2_keeps_host_trans xs ys zs :
  Forall2 keeps_host xs ys -> Forall2 keeps_host ys zs ->
  Forall2 keeps_host xs zs.
Proof.
  intros H; revert zs; induction H as [|x y xs ys Hxy _ IH]; intros zs Hz;
    inversion Hz; subst; constructor; [|apply IH; assumption].
  unfold keeps_host in *. auto.
Qed.

Lemma deepcopy_keeps_host P p m q m' :
  CLDrive.deepcopy P p m = (Ok q, m') ->
  Forall2 keeps_host (CLDrive.p_args p) (CLDrive.p_args q).
Proof.
  unfold CLDrive.deepcopy. intros H.
  apply bindM_Ok in H as (copies & m1 & Hc & H).
  apply ret_Ok in H as [<- _]. simpl.
  eapply for_each_Ok; [|exact Hc].
  intros x mx y my Hx. apply deepcopy_arg_Ok in Hx as [_ Hx].
  unfold keeps_host. destruct (CLDrive.hostdata x).
  - destruct Hx as (h' & -> & _). discriminate.
  - congruence.
Qed.

Lemma device_to_host_loop_keeps_host P args elapsed m r m' :
  CLDrive.device_to_host_loop P args elapsed m = (Ok r, m') ->
  Forall2 keeps_host args (snd r).
Proof.
  revert m r m'; induction args as [|a args IH]; simpl; intros m r m' H.
  - apply ret_Ok in H as [<- _]. constructor.
  - destruct (CLDrive.hostdata a) as [h|] eqn:Hh.
    + destruct (CLDrive.is_const a).
      * apply bindM_Ok in H as (r1 & m1 & H1 & H).
        apply ret_Ok in H as [<- _]. simpl. constructor; [|eapply IH, H1].
        unfold keeps_host; auto.
      * apply bindM_Ok in H as (eh & m1 & He & H).
        apply bindM_Ok in H as (t & m2 & Ht & H).
        apply bindM_Ok in H as (r1 & m3 & H1 & H).
        apply ret_Ok in H as [<- _]. simpl. constructor; [|eapply IH, H1].
        unfold keeps_host; simpl. discriminate.
    + apply bindM_Ok in H as (r1 & m1 & H1 & H).
      apply ret_Ok in H as [<- _]. simpl. constructor; [|eapply IH, H1].
      unfold keeps_host; auto.
Qed.

(** The output of a single-shot execution has a host array wherever the
    input has one. *)
Lemma call_keeps_host P p m out m' :
  CLDrive.call P p m = (Ok out, m') ->
  Forall2 keeps_host (CLDrive.p_args p) (CLDrive.p_args out).
Proof.
  unfold CLDrive.call. intros H.
  apply bindM_Ok in H as (u1 & m1 & _ & H).
  apply bindM_Ok in H as (output & m2 & Hcopy & H).
  apply bindM_Ok in H as (t & m3 & _ & H).
  apply bindM_Ok in H as (mr & m4 & _ & H).
  apply bindM_Ok in H as (u2 & m5 & _ & H).
  apply bindM_Ok in H as (x & m6 & _ & H).
  apply bindM_Ok in H as (ev & m7 & _ & H).
  apply bindM_Ok in H as (t2 & m8 & _ & H).
  apply bindM_Ok in H as (r & m9 & Hback & H).
  apply bindM_Ok in H as (u3 & m10 & _ & H).
  apply bindM_Ok in H as (u4 & m11 & _ & H).
  apply ret_Ok in H as [<- _].
  apply deepcopy_keeps_host in Hcopy.
  unfold CLDrive.device_to_host in Hback.
  apply bindM_Ok in Hback as (r1 & m12 & Hloop & Hback).
  apply ret_Ok in Hback as [<- _]. simpl.
  apply device_to_host_loop_keeps_host in Hloop.
  eapply Forall2_keeps_host_trans; eassumption.
Qed.

Lemma bindM_lift {A B : Type} (r : result A) (k : A -> CLDrive.M B) m :
  CLDrive.bindM (CLDrive.lift r) k m
  = match r with
    | Ok a => k a m
    | Raise e => (Raise e, m)
    end.
Proof. destruct r; reflexivity. Qed.

Lemma bindM_assert {B : Type} (c : bool) (e : exn) (k : unit -> CLDrive.M B) m :
  CLDrive.bindM (CLDrive.assert_constraint c e) k m
  = if c then k tt m else (Raise e, m).
Proof. destruct c; reflexivity. Qed.

(** The checks of [validate] that follow the four executions. *)
Lemma output_checks_no_outputs A1in B1in A1out B1out A2out B2out m
  (b1 b2 : bool) :
  CLDrive.payload_eq A1in A1out = Ok b1 ->
  CLDrive.payload_eq B1in B1out = Ok b2 ->
  let checks : CLDrive.M unit :=
    (CLDrive.bindM (CLDrive.lift (CLDrive.payload_ne A1in A1out)) (fun c =>
     CLDrive.bindM (CLDrive.assert_constraint c E_NO_OUTPUTS) (fun _ =>
     CLDrive.bindM (CLDrive.lift (CLDrive.payload_ne B1in B1out)) (fun c =>
     CLDrive.bindM (CLDrive.assert_constraint c E_NO_OUTPUTS) (fun _ =>
     CLDrive.bindM (CLDrive.lift (CLDrive.payload_eq A1out A2out)) (fun c =>
     CLDrive.bindM (CLDrive.assert_constraint c E_NONDETERMINISTIC) (fun _ =>
     CLDrive.bindM (CLDrive.lift (CLDrive.payload_eq B1out B2out)) (fun c =>
     CLDrive.bindM (CLDrive.assert_constraint c E_NONDETERMINISTIC) (fun _ =>
     CLDrive.bindM CLDrive.read (fun m =>
       if existsb (fun x => negb (CLDrive.is_const x))
            (CLDrive.d_prototype (CLDrive.driver m))
       then
         CLDrive.bindM (CLDrive.lift (CLDrive.payload_ne A1out B1out))
           (fun c => CLDrive.assert_constraint c E_INPUT_INSENSITIVE)
       else CLDrive.ret tt)))))))))) in
  fst (checks m) = Raise E_NO_OUTPUTS <-> b1 = true \/ b2 = true.
Proof.
  intros H1 H2 checks. unfold checks, CLDrive.payload_ne.
  rewrite bindM_lift, H1. cbn [bind]. rewrite bindM_assert.
  destruct b1; cbn [negb fst]; [tauto|].
  rewrite bindM_lift, H2. cbn [bind]. rewrite bindM_assert.
  destruct b2; cbn [negb fst]; [tauto|].
  split; [|intros [?|?]; discriminate]. intros H. exfalso.
  rewrite bindM_lift in H.
  destruct (CLDrive.payload_eq A1out A2out) as [c|e] eqn:E3.
  2:{ apply payload_eq_raises in E3. subst e. discriminate. }
  rewrite bindM_assert in H. destruct c; [|discriminate].
  rewrite bindM_lift in H.
  destruct (CLDrive.payload_eq B1out B2out) as [c|e] eqn:E4.
  2:{ apply payload_eq_raises in E4. subst e. discriminate. }
  rewrite bindM_assert in H. destruct c; [|discriminate].
  unfold CLDrive.bindM at 1, CLDrive.read in H.
  destruct (existsb _ _); [|discriminate].
  rewrite bindM_lift in H.
  destruct (CLDrive.payload_eq A1out B1out) as [c|e] eqn:E5.
  2:{ apply payload_eq_raises in E5. subst e. discriminate. }
  cbn [bind] in H. destruct c; discriminate.
Qed.

(** C7. Let the payloads be made, let the input constraints
    [A1in == A2in] and [B1in == B2in] hold, and let the four executions
    return. Then [validate] raises [E_NO_OUTPUTS] if and only if
    [A1in == A1out] or [B1in == B1out]: the two assertions on the outputs
    come first, so that the outcome of the later checks (determinism,
    sensitivity to the input) plays no part. *)
Theorem validate_no_outputs (P : CLDrive.Platform) (fuel size : nat)
  (m0 m1 m2 m3 m4 m5 m6 m7 m8 m9 : CLDrive.machine)
  (A1in A2in B0 B1in B2in A1out B1out A2out B2out : CLDrive.KernelPayload) :
  CLDrive.create_sequential P size m0 = (Ok A1in, m1) ->
  CLDrive.deepcopy P A1in m1 = (Ok A2in, m2) ->
  CLDrive.create_random P size m2 = (Ok B0, m3) ->
  CLDrive.regenerate P fuel size A1in B0 m3 = (Ok B1in, m4) ->
  CLDrive.deepcopy P B1in m4 = (Ok B2in, m5) ->
  CLDrive.payload_eq A1in A2in = Ok true ->
  CLDrive.payload_eq B1in B2in = Ok true ->
  CLDrive.call P A1in m5 = (Ok A1out, m6) ->
  CLDrive.call P B1in m6 = (Ok B1out, m7) ->
  CLDrive.call P A2in m7 = (Ok A2out, m8) ->
  CLDrive.call P B2in m8 = (Ok B2out, m9) ->
  (fst (CLDrive.validate P fuel size m0) = Raise E_NO_OUTPUTS <->
   CLDrive.payload_eq A1in A1out = Ok true \/
   CLDrive.payload_eq B1in B1out = Ok true).
Proof.
  intros HA1 HA2 HB0 HB1 HB2 HeqA HeqB HcA1 HcB1 HcA2 HcB2.
  destruct (payload_eq_returns A1in A1out (call_keeps_host _ _ _ _ _ HcA1))
    as (b1 & Hb1).
  destruct (payload_eq_returns B1in B1out (call_keeps_host _ _ _ _ _ HcB1))
    as (b2 & Hb2).
  unfold CLDrive.validate.
  rewrite (bindM_run _ _ _ _ _ HA1).
  rewrite (bindM_run _ _ _ _ _ HA2).
  rewrite (bindM_run _ _ _ _ _ HB0).
  rewrite (bindM_run _ _ _ _ _ HB1).
  rewrite (bindM_run _ _ _ _ _ HB2).
  rewrite bindM_lift, HeqA, bindM_assert.
  rewrite bindM_lift, HeqB, bindM_assert.
  rewrite (bindM_run _ _ _ _ _ HcA1).
  rewrite (bindM_run _ _ _ _ _ HcB1).
  rewrite (bindM_run _ _ _ _ _ HcA2).
  rewrite (bindM_run _ _ _ _ _ HcB2).
  rewrite (output_checks_no_outputs A1in B1in A1out B1out A2out B2out m9
             b1 b2 Hb1 Hb2).
  rewrite Hb1, Hb2. split; intros [H|H]; [left|right|left|right]; congruence.
Qed.

Lemma validate_no_outputs_witness :
  fst (CLDrive.validate Demo.P_empty 3 4 (Demo.boot Demo.P_empty "A"))
  = Raise E_NO_OUTPUTS <->
  CLDrive.payload_eq (Demo.value Demo.no_payload (Demo.v_A1in Demo.P_empty))
    (Demo.value Demo.no_payload (Demo.v_A1out Demo.P_empty)) = Ok true \/
  CLDrive.payload_eq (Demo.value Demo.no_payload (Demo.v_B1in Demo.P_empty))
    (Demo.value Demo.no_payload (Demo.v_B1out Demo.P_empty)) = Ok true.
Proof.
  apply (validate_no_outputs Demo.P_empty 3 4
           (Demo.boot Demo.P_empty "A")
           (snd (Demo.v_A1in Demo.P_empty))
           (snd (Demo.v_A2in Demo.P_empty))
           (snd (Demo.v_B0 Demo.P_empty))
           (snd (Demo.v_B1in Demo.P_empty))
           (snd (Demo.v_B2in Demo.P_empty))
           (snd (Demo.v_A1out Demo.P_empty))
           (snd (Demo.v_B1out Demo.P_empty))
           (snd (Demo.v_A2out Demo.P_empty))
           (snd (Demo.v_B2out Demo.P_empty))
           (Demo.value Demo.no_payload (Demo.v_A1in Demo.P_empty))
           (Demo.value Demo.no_payload (Demo.v_A2in Demo.P_empty))
           (Demo.value Demo.no_payload (Demo.v_B0 Demo.P_empty))
           (Demo.value Demo.no_payload (Demo.v_B1in Demo.P_empty))
           (Demo.value Demo.no_payload (Demo.v_B2in Demo.P_empty))
           (Demo.value Demo.no_payload (Demo.v_A1out Demo.P_empty))
           (Demo.value Demo.no_payload (Demo.v_B1out Demo.P_empty))
           (Demo.value Demo.no_payload (Demo.v_A2out Demo.P_empty))
           (Demo.value Demo.no_payload (Demo.v_B2out Demo.P_empty)));
    vm_compute; reflexivity.
Defined.

(* ================================================================= *)
(** * The claim about the character atomizer *)

(** C8. The code departs from the claim on the empty corpus:
    [CharacterAtomizer.from_text] raises [ValueError] there, where the
    unzipping of no pairs has nothing to unpack, while
    [GreedyAtomizer.from_text] returns the atomizer of the empty
    vocabulary. *)
Theorem character_from_text_empty :
  CharacterAtomizer.from_text "" = Raise ValueError
  /\ (forall order,
        bind (GreedyAtomizerFromText.from_text order "")
          (fun a => Ok (GreedyAtomizer.vocab a)) = Ok []).
Proof.
  split; [reflexivity|]. intros order.
  unfold GreedyAtomizerFromText.from_text, GreedyAtomizer.tokenize,
    Atomizer.tokenize, GreedyAtomizer.atomize.
  reflexivity.
Qed.

(* ================================================================= *)
(** * Further properties of the atomizers *)

(** ** Order of the elements of a list *)

(** [x] stands before [y] in the list. *)
Inductive precedes {A : Type} (x y : A) : list A -> Prop :=
| precedes_here l : In y l -> precedes x y (x :: l)
| precedes_later z l : precedes x y l -> precedes x y (z :: l).

Lemma precedes_In {A : Type} (x y : A) l :
  precedes x y l -> In x l /\ In y l.
Proof.
  induction 1 as [l H|z l _ [IH1 IH2]]; simpl; auto.
Qed.

Lemma precedes_NoDup {A : Type} (x y : A) l :
  NoDup l -> precedes x y l -> precedes y x l -> False.
Proof.
  intros Hnd H; revert Hnd.
  induction H as [l Hy|z l H IH]; intros Hnd H'; inversion Hnd; subst.
  - inversion H'; subst; [contradiction|].
    match goal with H : precedes _ _ l |- _ => apply precedes_In in H end.
    tauto.
  - inversion H'; subst; [|auto].
    apply precedes_In in H. tauto.
Qed.

Lemma precedes_total {A : Type} (x y : A) l :
  In x l -> In y l -> x <> y -> precedes x y l \/ precedes y x l.
Proof.
  induction l as [|z l IH]; simpl; [tauto|].
  intros [->|Hx] [->|Hy] Hne; try congruence.
  - left. constructor. exact Hy.
  - right. constructor. exact Hx.
  - destruct (IH Hx Hy Hne); [left|right]; constructor; assumption.
Qed.

Lemma precedes_map {A B : Type} (f : A -> B) (x y : A) l :
  precedes x y l -> precedes (f x) (f y) (map f l).
Proof.
  induction 1; simpl; constructor; auto using in_map.
Qed.

Lemma precedes_map_inv {A B : Type} (f : A -> B) (u v : B) l :
  precedes u v (map f l) ->
  exists x y, f x = u /\ f y = v /\ precedes x y l.
Proof.
  induction l as [|z l IH]; simpl; intros H; inversion H; subst.
  - match goal with H : In v (map f l) |- _ =>
      apply in_map_iff in H; destruct H as (y & <- & Hy) end.
    exists z, y. repeat split. constructor. exact Hy.
  - match goal with H : precedes u v (map f l) |- _ =>
      destruct (IH H) as (x & y & Hx & Hy & Hp) end.
    exists x, y. repeat split; auto. constructor. exact Hp.
Qed.

(** ** The stable sort *)

Section StableSort.

Context {A : Type}.
Variable le : A -> A -> bool.
Hypothesis le_total : forall x y, le x y = true \/ le y x = true.
Hypothesis le_trans :
  forall x y z, le x y = true -> le y z = true -> le x z = true.

Lemma insert_sorted_perm x (l : list A) :
  Permutation (insert_sorted le x l) (x :: l).
Proof.
  induction l as [|y l IH]; simpl; [reflexivity|].
  destruct (le x y); [reflexivity|].
  rewrite IH. apply perm_swap.
Qed.

Lemma sorted_perm (l : list A) : Permutation (sorted le l) l.
Proof.
  unfold sorted. induction l as [|x l IH]; simpl; [reflexivity|].
  rewrite insert_sorted_perm, IH. reflexivity.
Qed.

(** Where an element stands after its insertion into an ordered list. *)
Lemma insert_sorted_precedes a (l : list A) x y :
  (forall u v, precedes u v l -> le u v = true) ->
  precedes x y (insert_sorted le a l) ->
  precedes x y l
  \/ (x = a /\ In y l /\ le a y = true)
  \/ (y = a /\ In x l /\ le a x = false).
Proof.
  intros Hord. induction l as [|z l IH]; simpl.
  - intros H. inversion H; subst; simpl in *; try contradiction.
    match goal with H : precedes _ _ [] |- _ => inversion H end.
  - destruct (le a z) eqn:Haz; intros H.
    + inversion H; subst; [|left; assumption].
      right; left. split; [reflexivity|]. split; [assumption|].
      match goal with H : In y (z :: l) |- _ => destruct H as [->|Hy] end;
        [exact Haz|].
      apply (le_trans a z y Haz). apply Hord. constructor. exact Hy.
    + inversion H; subst.
      * match goal with H : In y (insert_sorted le a l) |- _ =>
          apply insert_sorted_In in H; destruct H as [->|Hy] end.
        -- right; right. simpl. auto.
        -- left. constructor. exact Hy.
      * match goal with H : precedes x y (insert_sorted le a l) |- _ =>
          destruct (IH (fun u v Huv => Hord u v (precedes_later _ _ _ _ Huv)) H)
            as [Hp|[(-> & Hy & Hle)|(-> & Hx & Hle)]] end.
        -- left. constructor. exact Hp.
        -- right; left. simpl. auto.
        -- right; right. simpl. auto.
Qed.

(** The result is ordered, and elements that compare equal keep the order
    they had. *)
Lemma sorted_precedes (l : list A) x y :
  precedes x y (sorted le l) ->
  le x y = true /\ (le y x = true -> precedes x y l).
Proof.
  revert x y. unfold sorted.
  induction l as [|a l IH]; simpl; intros x y H; [inversion H|].
  apply insert_sorted_precedes in H.
  2:{ intros u v Huv. apply IH, Huv. }
  destruct H as [Hp|[(-> & Hy & Hle)|(-> & Hx & Hle)]].
  - destruct (IH x y Hp) as [H1 H2]. split; [exact H1|].
    intros H3. constructor. auto.
  - split; [exact Hle|]. intros _. constructor.
    apply (sorted_In le y l), Hy.
  - split.
    + destruct (le_total x a) as [H|H]; [exact H|congruence].
    + intros H. congruence.
Qed.

End StableSort.

(** ** [Counter] *)

Section DictUpdate.

Context {K V : Type}.
Variable eqb : K -> K -> bool.
Hypothesis eqb_spec : forall x y, reflect (x = y) (eqb x y).

Lemma get_set (d : PyDict.dict K V) k v k' :
  PyDict.get eqb (PyDict.set eqb d k v) k'
  = if eqb k' k then Some v else PyDict.get eqb d k'.
Proof.
  induction d as [|[k0 v0] d IH]; simpl.
  - reflexivity.
  - destruct (eqb_spec k k0) as [->|Hne]; simpl.
    + destruct (eqb_spec k' k0); reflexivity.
    + rewrite IH. destruct (eqb_spec k' k0) as [->|Hne'];
        [|reflexivity].
      destruct (eqb_spec k0 k); [congruence|reflexivity].
Qed.

Lemma set_keys_present (d : PyDict.dict K V) k v :
  In k (PyDict.keys d) -> PyDict.keys (PyDict.set eqb d k v) = PyDict.keys d.
Proof.
  induction d as [|[k0 v0] d IH]; simpl; [contradiction|].
  destruct (eqb_spec k k0) as [->|Hne]; simpl; [reflexivity|].
  intros [E|Hin]; [congruence|]. rewrite IH by exact Hin. reflexivity.
Qed.

(** A dictionary is determined by its keys and the values found under
    them. *)
Lemma dict_of_keys (d : PyDict.dict K V) (f : K -> V) :
  PyDict.wf d ->
  (forall k v, PyDict.get eqb d k = Some v -> v = f k) ->
  d = map (fun k => (k, f k)) (PyDict.keys d).
Proof.
  unfold PyDict.wf, PyDict.keys.
  induction d as [|[k0 v0] d IH]; simpl; intros Hnd Hf; [reflexivity|].
  inversion Hnd as [|? ? Hk Hnd']; subst.
  rewrite (Hf k0 v0) at 1.
  2:{ destruct (eqb_spec k0 k0); congruence. }
  f_equal. apply IH; [exact Hnd'|].
  intros k v Hget. apply Hf.
  destruct (eqb_spec k k0) as [->|Hne]; [|exact Hget].
  exfalso. apply Hk. apply (get_In eqb eqb_spec) in Hget.
  change k0 with (fst (k0, v)). apply in_map, Hget.
Qed.

End DictUpdate.

(** The distinct elements of a list, each where it occurs first. *)
Fixpoint distinct (l : list string) : list string :=
  match l with
  | [] => []
  | c :: l' => c :: filter (fun x => negb (x =? c)) (distinct l')
  end.

Lemma distinct_In l x : In x (distinct l) <-> In x l.
Proof.
  induction l as [|c l IH]; simpl; [tauto|].
  rewrite filter_In, IH, negb_true_iff, String.eqb_neq.
  destruct (string_dec c x); intuition congruence.
Qed.

Lemma distinct_NoDup l : NoDup (distinct l).
Proof.
  induction l as [|c l IH]; simpl; constructor.
  - rewrite filter_In, String.eqb_refl. simpl. intros [_ H]; discriminate.
  - apply NoDup_filter, IH.
Qed.

(** The counting pass of [Counter], started from a dictionary. *)
Definition count_step (d : PyDict.dict string nat) (c : string)
  : PyDict.dict string nat :=
  PyDict.set String.eqb d c
    (match PyDict.get String.eqb d c with
     | Some n => n + 1
     | None => 1
     end).

Definition unseen (d : PyDict.dict string nat) (x : string) : bool :=
  negb (existsb (String.eqb x) (PyDict.keys d)).

Lemma unseen_spec d x : unseen d x = true <-> ~ In x (PyDict.keys d).
Proof.
  unfold unseen. rewrite negb_true_iff, <- not_true_iff_false, existsb_exists.
  split; intros H.
  - intros Hin. apply H. exists x. rewrite String.eqb_refl. auto.
  - intros (y & Hy & E). apply String.eqb_eq in E. subst. auto.
Qed.

Lemma filter_twice {A : Type} (f g : A -> bool) (l : list A) :
  filter f (filter g l) = filter (fun x => g x && f x) l.
Proof.
  induction l as [|x l IH]; simpl; [reflexivity|].
  destruct (g x); simpl; [destruct (f x)|]; rewrite IH; reflexivity.
Qed.

Lemma unseen_fresh d c v x :
  ~ In c (PyDict.keys d) ->
  unseen (PyDict.set String.eqb d c v) x = negb (x =? c) && unseen d x.
Proof.
  intros H. rewrite (set_fresh String.eqb String.eqb_spec) by exact H.
  unfold unseen, PyDict.keys. rewrite map_app, existsb_app. simpl.
  rewrite orb_false_r, negb_orb. apply andb_comm.
Qed.

Lemma unseen_present d c v x :
  In c (PyDict.keys d) ->
  unseen (PyDict.set String.eqb d c v) x = unseen d x.
Proof.
  intros H. unfold unseen.
  rewrite (set_keys_present String.eqb String.eqb_spec) by exact H.
  reflexivity.
Qed.

Lemma count_keys l : forall d,
  PyDict.keys (fold_left count_step l d)
  = PyDict.keys d ++ filter (unseen d) (distinct l).
Proof.
  induction l as [|c l IH]; intros d; simpl fold_left.
  - simpl. rewrite app_nil_r. reflexivity.
  - rewrite IH. unfold count_step.
    set (v := match PyDict.get String.eqb d c with
              | Some n => n + 1
              | None => 1
              end).
    change (distinct (c :: l))
      with (c :: filter (fun x => negb (x =? c)) (distinct l)).
    cbn [filter]. rewrite filter_twice.
    destruct (unseen d c) eqn:Hc.
    + pose proof (proj1 (unseen_spec d c) Hc) as Hout.
      rewrite (filter_ext _ _ (fun x => unseen_fresh d c v x Hout)).
      rewrite (set_fresh String.eqb String.eqb_spec) by exact Hout.
      unfold PyDict.keys at 1. rewrite map_app, <- app_assoc. reflexivity.
    + assert (Hin : In c (PyDict.keys d)).
      { destruct (in_dec string_dec c (PyDict.keys d)) as [H|H]; [exact H|].
        apply unseen_spec in H. congruence. }
      rewrite (filter_ext _ _ (fun x => unseen_present d c v x Hin)).
      rewrite (set_keys_present String.eqb String.eqb_spec) by exact Hin.
      f_equal. apply filter_ext. intros x.
      destruct (String.eqb_spec x c) as [->|_]; simpl; [|reflexivity].
      exact Hc.
Qed.

Lemma count_get l : forall d c,
  PyDict.get String.eqb (fold_left count_step l d) c
  = match PyDict.get String.eqb d c with
    | Some n => Some (n + count_occ string_dec l c)
    | None =>
        match count_occ string_dec l c with
        | 0 => None
        | S k => Some (S k)
        end
    end.
Proof.
  induction l as [|x l IH]; intros d c; simpl.
  - destruct (PyDict.get String.eqb d c); [rewrite Nat.add_0_r|]; reflexivity.
  - rewrite IH. unfold count_step.
    rewrite (get_set String.eqb String.eqb_spec).
    destruct (string_dec x c) as [->|Hne].
    + rewrite String.eqb_refl.
      destruct (PyDict.get String.eqb d c) as [n|]; f_equal; lia.
    + destruct (String.eqb_spec c x) as [->|_]; [congruence|].
      reflexivity.
Qed.

(** [Counter(text)] holds the distinct characters of the text in the order
    in which they occur first, each with the number of its occurrences. *)
Lemma Counter_closed_form (text : string) :
  CharacterAtomizer.Counter text
  = map (fun c => (c, count_occ string_dec (chars text) c))
        (distinct (chars text)).
Proof.
  unfold CharacterAtomizer.Counter. fold count_step.
  assert (Hk : PyDict.keys (fold_left count_step (chars text) [])
               = distinct (chars text)).
  { rewrite count_keys. simpl.
    induction (distinct (chars text)) as [|x xs IH]; simpl; [reflexivity|].
    f_equal. exact IH. }
  rewrite (dict_of_keys String.eqb String.eqb_spec
             (fold_left count_step (chars text) [])
             (fun c => count_occ string_dec (chars text) c)).
  - rewrite Hk. reflexivity.
  - unfold PyDict.wf. rewrite Hk. apply distinct_NoDup.
  - intros k v. rewrite count_get. simpl.
    destruct (count_occ string_dec (chars text) k); congruence.
Qed.

(** ** The vocabulary of [CharacterAtomizer.from_text] *)

Lemma get_zip_range_bounds (l : list string) s n b i :
  PyDict.get String.eqb (combine l (seq s n)) b = Some i -> s <= i < s + n.
Proof.
  intros H. apply (get_In String.eqb String.eqb_spec) in H.
  apply in_combine_r in H. apply in_seq in H. exact H.
Qed.

(** In [dict(zip(l, range(...)))] an element that stands earlier has the
    smaller index. *)
Lemma zip_range_precedes (l : list string) : forall s n a b ia ib,
  NoDup l ->
  PyDict.get String.eqb (combine l (seq s n)) a = Some ia ->
  PyDict.get String.eqb (combine l (seq s n)) b = Some ib ->
  precedes a b l -> ia < ib.
Proof.
  induction l as [|x l IH]; intros s n a b ia ib Hnd Ha Hb Hp;
    [inversion Hp|].
  destruct n as [|n]; [simpl in Ha; discriminate|].
  inversion Hnd as [|? ? Hx Hnd']; subst. simpl in Ha, Hb.
  assert (Hbl : In b l).
  { inversion Hp; subst; [assumption|].
    match goal with H : precedes _ _ l |- _ => apply precedes_In in H end.
    tauto. }
  destruct (String.eqb_spec b x) as [->|_]; [contradiction|].
  destruct (String.eqb_spec a x) as [->|Hax].
  - injection Ha as <-. apply get_zip_range_bounds in Hb. lia.
  - inversion Hp; subst; [congruence|]. eapply IH; eassumption.
Qed.

Definition by_count (x y : string * nat) : bool := (snd y <=? snd x)%nat.

Lemma by_count_total x y : by_count x y = true \/ by_count y x = true.
Proof. unfold by_count. rewrite !Nat.leb_le. lia. Qed.

Lemma by_count_trans x y z :
  by_count x y = true -> by_count y z = true -> by_count x z = true.
Proof. unfold by_count. rewrite !Nat.leb_le. lia. Qed.

Lemma chars_nonempty text : text <> "" -> chars text <> [].
Proof. destruct text; [congruence|discriminate]. Qed.

Lemma from_text_nonempty (text : string) :
  text <> "" ->
  exists A,
    CharacterAtomizer.from_text text = Ok A /\
    PyDict.wf (Atomizer.vocab A) /\
    (forall c, In c (PyDict.keys (Atomizer.vocab A)) <-> In c (chars text)) /\
    PyDict.values (Atomizer.vocab A)
    = seq 0 (List.length (distinct (chars text))) /\
    forall a b ia ib,
      PyDict.get String.eqb (Atomizer.vocab A) a = Some ia ->
      PyDict.get String.eqb (Atomizer.vocab A) b = Some ib ->
      (count_occ string_dec (chars text) b
       < count_occ string_dec (chars text) a -> ia < ib) /\
      (count_occ string_dec (chars text) a
       = count_occ string_dec (chars text) b ->
       precedes a b (distinct (chars text)) -> ia < ib).
Proof.
  intros Hne. unfold CharacterAtomizer.from_text.
  rewrite Counter_closed_form. unfold PyDict.items.
  set (count := fun c => count_occ string_dec (chars text) c).
  set (pairs := map (fun c => (c, count c)) (distinct (chars text))).
  fold by_count.
  pose proof (sorted_perm by_count pairs) as Hperm.
  set (count_pairs := sorted by_count pairs) in *.
  assert (Hkeys : Permutation (map fst count_pairs) (distinct (chars text))).
  { rewrite Hperm. unfold pairs. rewrite map_map. simpl. rewrite map_id.
    reflexivity. }
  assert (Hnd : NoDup (map fst count_pairs)).
  { eapply Permutation_NoDup;
      [apply Permutation_sym, Hkeys|apply distinct_NoDup]. }
  assert (Hlen : List.length (map fst count_pairs)
                 = List.length (distinct (chars text)))
    by (apply Permutation_length, Hkeys).
  destruct count_pairs as [|p ps] eqn:Ecp.
  { exfalso. apply Permutation_length in Hkeys. simpl in Hkeys.
    pose proof (chars_nonempty text Hne) as Hc.
    destruct (chars text); [congruence|]. simpl in Hkeys. discriminate. }
  rewrite <- Ecp in *. clear Ecp p ps.
  eexists. split; [reflexivity|]. simpl Atomizer.vocab.
  destruct (zip_range_dict (map fst count_pairs) Hnd) as (Hd & Hk & Hv).
  cbv zeta in Hd, Hk, Hv. unfold zip, range in *.
  split; [unfold PyDict.wf; rewrite Hk; exact Hnd|].
  split; [|split].
  - intros c. rewrite Hk, <- (distinct_In (chars text) c). split; intros H.
    + eapply Permutation_in; [exact Hkeys|exact H].
    + eapply Permutation_in; [apply Permutation_sym, Hkeys|exact H].
  - rewrite Hv, Hlen. reflexivity.
  - intros a b ia ib Ha Hb. rewrite Hd in Ha, Hb.
    assert (Hina : In a (map fst count_pairs)).
    { apply (get_In String.eqb String.eqb_spec), in_combine_l in Ha.
      exact Ha. }
    assert (Hinb : In b (map fst count_pairs)).
    { apply (get_In String.eqb String.eqb_spec), in_combine_l in Hb.
      exact Hb. }
    assert (Hwrong : precedes b a (map fst count_pairs) ->
                     count a <= count b /\
                     (count b <= count a ->
                      precedes b a (distinct (chars text)))).
    { intros Hp. apply precedes_map_inv in Hp as (x & y & <- & <- & Hp).
      pose proof (precedes_In _ _ _ Hp) as [Hx Hy].
      assert (Hval : forall z, In z count_pairs -> snd z = count (fst z)).
      { intros z Hz. apply (Permutation_in _ Hperm) in Hz.
        unfold pairs in Hz. apply in_map_iff in Hz as (c & <- & _).
        reflexivity. }
      apply (sorted_precedes by_count by_count_total by_count_trans) in Hp
        as [H1 H2].
      unfold by_count in H1, H2. rewrite Nat.leb_le in H1, H2.
      rewrite (Hval x Hx), (Hval y Hy) in H1, H2. split; [exact H1|].
      intros H. specialize (H2 H).
      apply (precedes_map fst) in H2. unfold pairs in H2.
      rewrite map_map in H2. simpl in H2. rewrite map_id in H2. exact H2. }
    split.
    + intros Hlt.
      assert (a <> b) by (intros ->; lia).
      destruct (precedes_total a b _ Hina Hinb) as [Hp|Hp]; [assumption| |].
      * eapply zip_range_precedes; eassumption.
      * apply Hwrong in Hp. fold (count a) in Hlt. fold (count b) in Hlt. lia.
    + intros Heq Hfirst.
      assert (a <> b).
      { intros ->. exact (precedes_NoDup _ _ _ (distinct_NoDup _) Hfirst
                            Hfirst). }
      destruct (precedes_total a b _ Hina Hinb) as [Hp|Hp]; [assumption| |].
      * eapply zip_range_precedes; eassumption.
      * apply Hwrong in Hp as [_ Hp]. fold (count a) in Heq.
        fold (count b) in Heq. exfalso.
        apply (precedes_NoDup a b _ (distinct_NoDup _) Hfirst).
        apply Hp. lia.
Qed.

(** For every corpus that is not empty, [CharacterAtomizer.from_text]
    returns an atomizer whose vocabulary has the distinct characters of the
    corpus as keys, the indices 0, 1, ... in the order of the keys, a
    smaller index for a character that occurs more often, and among
    characters that occur equally often a smaller index for the one that
    occurs first. *)
Theorem character_from_text_order (text : string) :
  text <> "" ->
  exists A,
    CharacterAtomizer.from_text text = Ok A /\
    PyDict.wf (Atomizer.vocab A) /\
    (forall c, In c (PyDict.keys (Atomizer.vocab A)) <-> In c (chars text)) /\
    PyDict.values (Atomizer.vocab A)
    = seq 0 (List.length (distinct (chars text))) /\
    forall a b ia ib,
      PyDict.get String.eqb (Atomizer.vocab A) a = Some ia ->
      PyDict.get String.eqb (Atomizer.vocab A) b = Some ib ->
      (count_occ string_dec (chars text) b
       < count_occ string_dec (chars text) a -> ia < ib) /\
      (count_occ string_dec (chars text) a
       = count_occ string_dec (chars text) b ->
       precedes a b (distinct (chars text)) -> ia < ib).
Proof. exact (from_text_nonempty text). Qed.

Lemma character_from_text_order_witness :
  exists A,
    CharacterAtomizer.from_text "hello" = Ok A /\
    PyDict.wf (Atomizer.vocab A) /\
    (forall c, In c (PyDict.keys (Atomizer.vocab A)) <-> In c (chars "hello")) /\
    PyDict.values (Atomizer.vocab A)
    = seq 0 (List.length (distinct (chars "hello"))) /\
    forall a b ia ib,
      PyDict.get String.eqb (Atomizer.vocab A) a = Some ia ->
      PyDict.get String.eqb (Atomizer.vocab A) b = Some ib ->
      (count_occ string_dec (chars "hello") b
       < count_occ string_dec (chars "hello") a -> ia < ib) /\
      (count_occ string_dec (chars "hello") a
       = count_occ string_dec (chars "hello") b ->
       precedes a b (distinct (chars "hello")) -> ia < ib).
Proof.
  apply (character_from_text_order "hello"). discriminate.
Defined.

(** ** Looking up a list of keys *)

Section LookupAll.

Context {K V : Type}.
Variable eqb : K -> K -> bool.

Lemma mapM_getitem (d : PyDict.dict K V) (l : list K) :
  match mapM (PyDict.getitem eqb d) l with
  | Ok ys => Forall2 (fun k y => PyDict.get eqb d k = Some y) l ys
  | Raise e =>
      e = KeyError /\ exists k, In k l /\ PyDict.get eqb d k = None
  end.
Proof.
  induction l as [|k l IH]; simpl; [constructor|].
  unfold PyDict.getitem at 1.
  destruct (PyDict.get eqb d k) as [y|] eqn:Ek.
  - destruct (mapM (PyDict.getitem eqb d) l) as [ys|e].
    + constructor; assumption.
    + destruct IH as (-> & k' & Hin & Hk'). split; [reflexivity|].
      exists k'. auto.
  - split; [reflexivity|]. exists k. auto.
Qed.

End LookupAll.

Lemma join_chars (text : string) : join (chars text) = text.
Proof.
  unfold join. induction text as [|c text IH]; simpl; [reflexivity|].
  destruct (chars text) as [|x xs] eqn:E.
  - destruct text; [reflexivity|discriminate].
  - simpl in IH |- *. rewrite IH. reflexivity.
Qed.

Lemma chars_length (text : string) :
  List.length (chars text) = String.length text.
Proof. induction text; simpl; congruence. Qed.

(** ** CharacterAtomizer *)

Lemma character_atomize_cases (self : Atomizer.t) (text : string) :
  match CharacterAtomizer.atomize self text with
  | Ok idx =>
      Forall2 (fun c i => PyDict.get String.eqb (Atomizer.vocab self) c = Some i)
              (chars text) idx
  | Raise e =>
      e = VocabError /\
      exists c, In c (chars text) /\
                PyDict.get String.eqb (Atomizer.vocab self) c = None
  end.
Proof.
  unfold CharacterAtomizer.atomize.
  pose proof (mapM_getitem String.eqb (Atomizer.vocab self) (chars text)) as H.
  destruct (mapM _ (chars text)) as [ys|e]; [exact H|].
  destruct H as (-> & H). auto.
Qed.

(** [CharacterAtomizer.atomize] returns one index for each character of the
    text, the index that the vocabulary gives the character; it raises
    [VocabError], and nothing else, when a character of the text is not in
    the vocabulary. *)
Theorem character_atomize_pointwise (self : Atomizer.t) (text : string) :
  match CharacterAtomizer.atomize self text with
  | Ok idx =>
      List.length idx = String.length text /\
      Forall2 (fun c i => PyDict.get String.eqb (Atomizer.vocab self) c = Some i)
              (chars text) idx
  | Raise e =>
      e = VocabError /\
      exists c, In c (chars text) /\
                PyDict.get String.eqb (Atomizer.vocab self) c = None
  end.
Proof.
  pose proof (character_atomize_cases self text) as H.
  destruct (CharacterAtomizer.atomize self text) as [idx|e]; [|exact H].
  split; [|exact H].
  apply Forall2_length in H. rewrite <- H. apply chars_length.
Qed.

Lemma decode_all (vocab : PyDict.dict string nat) (l : list string) idx :
  PyDict.wf vocab -> NoDup (PyDict.values vocab) ->
  Forall2 (fun c i => PyDict.get String.eqb vocab c = Some i) l idx ->
  mapM (PyDict.getitem Nat.eqb (Atomizer.decoder (Atomizer.init vocab))) idx
  = Ok l.
Proof.
  intros Hwf Hinj H. induction H as [|c i l idx Hc _ IH]; [reflexivity|].
  cbn [mapM]. unfold PyDict.getitem at 1.
  rewrite (decoder_get vocab c i Hwf Hinj Hc), IH. reflexivity.
Qed.

Lemma character_round_trip (vocab : PyDict.dict string nat) text idx :
  PyDict.wf vocab -> NoDup (PyDict.values vocab) ->
  CharacterAtomizer.atomize (Atomizer.init vocab) text = Ok idx ->
  Atomizer.deatomize (Atomizer.init vocab) idx = Ok text.
Proof.
  intros Hwf Hinj H.
  pose proof (character_atomize_cases (Atomizer.init vocab) text) as Hc.
  rewrite H in Hc. simpl in Hc.
  unfold Atomizer.deatomize.
  rewrite (decode_all vocab (chars text) idx Hwf Hinj Hc), join_chars.
  reflexivity.
Qed.

(** Round trip of the character atomizer: over a vocabulary with distinct
    indices, [deatomize] gives back every text that [atomize] accepts. *)
Theorem character_deatomize_atomize (vocab : PyDict.dict string nat)
  (text : string) (idx : list nat) :
  PyDict.wf vocab -> NoDup (PyDict.values vocab) ->
  CharacterAtomizer.atomize (Atomizer.init vocab) text = Ok idx ->
  Atomizer.deatomize (Atomizer.init vocab) idx = Ok text.
Proof. exact (character_round_trip vocab text idx). Qed.

Lemma character_deatomize_atomize_witness :
  Atomizer.deatomize (Atomizer.init [("a", 0); ("b", 1)]) [1; 0; 1] = Ok "bab".
Proof.
  apply (character_deatomize_atomize [("a", 0); ("b", 1)] "bab" [1; 0; 1]).
  - unfold PyDict.wf; simpl.
    repeat (constructor; [simpl; intuition discriminate|]). constructor.
  - simpl. repeat (constructor; [simpl; intuition discriminate|]). constructor.
  - reflexivity.
Defined.

Lemma character_atomize_returns (self : Atomizer.t) (text : string) :
  (forall c, In c (chars text) -> In c (PyDict.keys (Atomizer.vocab self))) ->
  exists idx, CharacterAtomizer.atomize self text = Ok idx.
Proof.
  intros H. pose proof (character_atomize_cases self text) as Hc.
  destruct (CharacterAtomizer.atomize self text) as [idx|e]; [eauto|].
  destruct Hc as (_ & c & Hin & Hnone).
  apply (get_None String.eqb String.eqb_spec) in Hnone.
  exfalso. apply Hnone, H, Hin.
Qed.

(** An atomizer made by [CharacterAtomizer.from_text] from a corpus that is
    not empty encodes every text written with the characters of the corpus,
    the corpus itself among them, and [deatomize] gives the text back. *)
Theorem character_from_text_round_trip (corpus text : string) :
  corpus <> "" ->
  (forall c, In c (chars text) -> In c (chars corpus)) ->
  exists A idx,
    CharacterAtomizer.from_text corpus = Ok A /\
    CharacterAtomizer.atomize A text = Ok idx /\
    Atomizer.deatomize A idx = Ok text.
Proof.
  intros Hne Hsub.
  destruct (from_text_nonempty corpus Hne) as (A & HA & Hwf & Hk & Hv & _).
  assert (HAinit : A = Atomizer.init (Atomizer.vocab A)).
  { unfold CharacterAtomizer.from_text in HA.
    destruct (sorted _ _); [discriminate|]. injection HA as <-. reflexivity. }
  destruct (character_atomize_returns A text) as (idx & Hidx).
  { intros c Hc. apply Hk, Hsub, Hc. }
  exists A, idx. split; [exact HA|]. split; [exact Hidx|].
  rewrite HAinit in Hidx |- *. simpl Atomizer.vocab in *.
  apply character_round_trip; [exact Hwf| |exact Hidx].
  rewrite Hv. apply seq_NoDup.
Qed.

Lemma character_from_text_round_trip_witness :
  exists A idx,
    CharacterAtomizer.from_text "hello world" = Ok A /\
    CharacterAtomizer.atomize A "hold" = Ok idx /\
    Atomizer.deatomize A idx = Ok "hold".
Proof.
  apply (character_from_text_round_trip "hello world" "hold").
  - discriminate.
  - simpl. intuition.
Defined.

(** ** The decoder and [deatomize] *)

Section DictOfPairs.

Context {K V : Type}.
Variable eqb : K -> K -> bool.
Hypothesis eqb_spec : forall x y, reflect (x = y) (eqb x y).

Lemma set_keys_In (d : PyDict.dict K V) k v x :
  In x (PyDict.keys (PyDict.set eqb d k v)) <-> x = k \/ In x (PyDict.keys d).
Proof.
  induction d as [|[k0 v0] d IH]; simpl.
  - intuition congruence.
  - destruct (eqb_spec k k0) as [->|Hne]; simpl.
    + intuition congruence.
    + rewrite IH. intuition congruence.
Qed.

Lemma fold_set_keys_In (l : list (K * V)) : forall (acc : PyDict.dict K V) x,
  In x (PyDict.keys
          (fold_left (fun d kv => PyDict.set eqb d (fst kv) (snd kv)) l acc))
  <-> In x (map fst l) \/ In x (PyDict.keys acc).
Proof.
  induction l as [|[k v] l IH]; intros acc x; simpl; [tauto|].
  rewrite IH, set_keys_In. intuition congruence.
Qed.

(** The keys of [dict(pairs)] are the first components of the pairs. *)
Lemma of_pairs_keys_In (l : list (K * V)) x :
  In x (PyDict.keys (PyDict.of_pairs eqb l)) <-> In x (map fst l).
Proof.
  unfold PyDict.of_pairs. rewrite fold_set_keys_In. simpl. tauto.
Qed.

End DictOfPairs.

Lemma decoder_keys (vocab : PyDict.dict string nat) i :
  In i (PyDict.keys (Atomizer.decoder (Atomizer.init vocab)))
  <-> In i (PyDict.values vocab).
Proof.
  simpl. rewrite (of_pairs_keys_In Nat.eqb Nat.eqb_spec).
  unfold PyDict.items, PyDict.values. rewrite map_map. simpl. tauto.
Qed.

Lemma deatomize_cases (self : Atomizer.t) (encoded : list nat) :
  match Atomizer.deatomize self encoded with
  | Ok s =>
      exists atoms,
        Forall2 (fun i a => PyDict.get Nat.eqb (Atomizer.decoder self) i = Some a)
                encoded atoms /\
        s = join atoms
  | Raise e =>
      e = VocabError /\
      exists i, In i encoded /\
                PyDict.get Nat.eqb (Atomizer.decoder self) i = None
  end.
Proof.
  unfold Atomizer.deatomize.
  pose proof (mapM_getitem Nat.eqb (Atomizer.decoder self) encoded) as H.
  destruct (mapM _ encoded) as [atoms|e]; [eauto|].
  destruct H as (-> & H). auto.
Qed.

(** [deatomize] over any vocabulary: it returns when every index is an
    index of the vocabulary, and then the text is the concatenation of what
    the decoder holds for the indices; it raises [VocabError] when some index
    is not an index of the vocabulary. Nothing else is raised. *)
Theorem deatomize_unknown_index (vocab : PyDict.dict string nat)
  (encoded : list nat) :
  match Atomizer.deatomize (Atomizer.init vocab) encoded with
  | Ok s =>
      Forall (fun i => In i (PyDict.values vocab)) encoded /\
      exists atoms,
        Forall2 (fun i a =>
                   PyDict.get Nat.eqb (Atomizer.decoder (Atomizer.init vocab)) i
                   = Some a) encoded atoms /\
        s = join atoms
  | Raise e =>
      e = VocabError /\
      exists i, In i encoded /\ ~ In i (PyDict.values vocab)
  end.
Proof.
  pose proof (deatomize_cases (Atomizer.init vocab) encoded) as H.
  destruct (Atomizer.deatomize (Atomizer.init vocab) encoded) as [s|e].
  - destruct H as (atoms & Hall & Hs). split; [|eauto].
    clear Hs. induction Hall as [|i a l l' Hi _ IH]; constructor; [|exact IH].
    apply decoder_keys.
    destruct (in_dec Nat.eq_dec i
                (PyDict.keys (Atomizer.decoder (Atomizer.init vocab))))
      as [Hin|Hout]; [exact Hin|].
    apply (get_None Nat.eqb Nat.eqb_spec) in Hout. congruence.
  - destruct H as (-> & i & Hin & Hnone). split; [reflexivity|].
    exists i. split; [exact Hin|].
    rewrite <- decoder_keys. apply (get_None Nat.eqb Nat.eqb_spec), Hnone.
Qed.

(** ** The lookup of the greedy atomizer *)

(** [GreedyAtomizer.__init__]: the lookup has an entry for a character
    exactly when a key of the vocabulary of two or more characters starts with
    it, and the entry lists those keys, each once. *)
Theorem greedy_lookup_entries (vocab : PyDict.dict string nat) (c : string) :
  match PyDict.get String.eqb
          (GreedyAtomizer.lookup (GreedyAtomizer.init vocab)) c with
  | Some l =>
      l <> [] /\ NoDup l /\
      forall x, In x l <->
                In x (PyDict.keys vocab) /\ 1 < String.length x /\
                item x 0 = c
  | None =>
      forall x, In x (PyDict.keys vocab) -> 1 < String.length x ->
                item x 0 <> c
  end.
Proof.
  pose proof (init_cands vocab c) as Hc. unfold cands_of in Hc.
  unfold GreedyAtomizer.init in *. simpl in *.
  set (multichars :=
         pyset (filter (fun k => (1 <? String.length k)%nat)
                       (Atomizer.atoms (Atomizer.init vocab)))) in *.
  rewrite (of_pairs_nodup String.eqb String.eqb_spec) in *
    by (rewrite map_map; simpl; rewrite map_id; apply NoDup_nodup).
  rewrite get_map_key in *.
  destruct (in_dec string_dec c _) as [Hin|Hout].
  - split; [|split; [|exact Hc]].
    + unfold pyset in Hin. rewrite nodup_In, in_map_iff in Hin.
      destruct Hin as (a & Ha & Hm). intros E.
      assert (Hf : In a (filter (fun a0 => item a0 0 =? c) multichars)).
      { apply filter_In. split; [exact Hm|]. apply String.eqb_eq, Ha. }
      rewrite E in Hf. exact Hf.
    + apply NoDup_filter. apply NoDup_nodup.
  - intros x Hx Hl E. apply (proj2 (Hc x)). auto.
Qed.

(** ** When the greedy scan returns *)

Lemma item_In_chars (text : string) : forall i,
  i < String.length text -> In (item text i) (chars text).
Proof.
  unfold item. induction text as [|c text IH]; simpl; intros i Hi; [lia|].
  destruct i as [|i].
  - left. destruct text; reflexivity.
  - right. apply IH. lia.
Qed.

Section GreedyTotal.

Variable vocab : PyDict.dict string nat.
Variable text : string.

Hypothesis chars_known :
  forall c, In c (chars text) -> In c (PyDict.keys vocab).

Let self := GreedyAtomizer.init vocab.

Lemma emit_known a i' j acc :
  In a (PyDict.keys vocab) ->
  exists s', GreedyAtomizer.emit self a i' j acc = Ok s'.
Proof.
  intros H. unfold GreedyAtomizer.emit.
  change (GreedyAtomizer.vocab self) with vocab.
  destruct (get_Some_key String.eqb String.eqb_spec vocab a H) as (v & ->).
  eauto.
Qed.

Lemma shrink_known cands i j acc :
  (forall x, In x cands -> In x (PyDict.keys vocab)) ->
  i < String.length text ->
  exists s', GreedyAtomizer.shrink self text cands i j acc = Ok s'.
Proof.
  intros Hc Hi. induction j as [|j IH]; simpl.
  - apply emit_known, chars_known, item_In_chars, Hi.
  - destruct (i + 1 <? S j)%nat;
      [|apply emit_known, chars_known, item_In_chars, Hi].
    destruct (existsb _ cands) eqn:E; [|exact IH].
    apply existsb_exists in E as (x & Hx & E). apply String.eqb_eq in E.
    apply emit_known. rewrite <- E. apply Hc, Hx.
Qed.

Lemma step_known s :
  GreedyAtomizer.si s < String.length text ->
  exists s', GreedyAtomizer.step self text s = Ok s'.
Proof.
  intros Hi. rewrite step_cands. cbv zeta.
  destruct (cands_of self (item text (GreedyAtomizer.si s))) as [|c cs] eqn:E.
  - apply emit_known, chars_known, item_In_chars, Hi.
  - destruct (_ && _); [eauto|].
    apply shrink_known; [|exact Hi].
    intros x Hx. rewrite <- E in Hx. apply init_cands in Hx. tauto.
Qed.

Lemma loop_known fuel s :
  GreedyAtomizer.loop fuel self text s <> Raise VocabError.
Proof.
  revert s; induction fuel as [|fuel IH]; intros s; simpl;
    destruct (GreedyAtomizer.si s <? String.length text)%nat eqn:Hi;
    try discriminate.
  apply Nat.ltb_lt in Hi. destruct (step_known s Hi) as (s' & ->). apply IH.
Qed.

Lemma atomize_known :
  exists idx, GreedyAtomizer.atomize self text = Ok idx.
Proof.
  destruct (atomize_cases self text) as [H|H]; [exact H|].
  exfalso. exact (loop_known _ _ H).
Qed.

End GreedyTotal.

(** [GreedyAtomizer.atomize] returns, for whatever multi-character atoms the
    vocabulary has, on every text whose characters are all keys of the
    vocabulary: it raises [VocabError] only for a character that is
    missing. *)
Theorem greedy_atomize_known_characters (vocab : PyDict.dict string nat)
  (text : string) :
  (forall c, In c (chars text) -> In c (PyDict.keys vocab)) ->
  exists idx, GreedyAtomizer.atomize (GreedyAtomizer.init vocab) text = Ok idx.
Proof. exact (atomize_known vocab text). Qed.

Lemma greedy_atomize_known_characters_witness :
  exists idx,
    GreedyAtomizer.atomize
      (GreedyAtomizer.init [("ab", 0); ("a", 1); ("b", 2)]) "abba" = Ok idx.
Proof.
  apply (greedy_atomize_known_characters [("ab", 0); ("a", 1); ("b", 2)] "abba").
  simpl. intuition; subst; simpl; auto.
Defined.

(** ** What the greedy scan returns *)

Section GreedyOutput.

Variable self : GreedyAtomizer.t.
Variable text : string.

(** The indices so far are indices of the vocabulary, and there are no more
    of them than characters before the anchor. *)
Definition output_ok (s : GreedyAtomizer.scan) : Prop :=
  Forall (fun v => In v (PyDict.values (GreedyAtomizer.vocab self)))
         (GreedyAtomizer.out s)
  /\ List.length (GreedyAtomizer.out s)
     <= Nat.min (GreedyAtomizer.si s) (String.length text).

Lemma emit_output a i i' j acc s' :
  Forall (fun v => In v (PyDict.values (GreedyAtomizer.vocab self))) acc ->
  List.length acc <= i -> i < String.length text -> i < i' ->
  GreedyAtomizer.emit self a i' j acc = Ok s' ->
  output_ok s'.
Proof.
  intros Hall Hlen Hi Hi'. unfold GreedyAtomizer.emit.
  destruct (PyDict.get String.eqb (GreedyAtomizer.vocab self) a) as [v|] eqn:E;
    [|discriminate].
  intros H; injection H as <-. unfold output_ok; simpl. split.
  - apply Forall_app. split; [exact Hall|]. constructor; [|constructor].
    apply (get_In String.eqb String.eqb_spec) in E.
    change v with (snd (a, v)). apply in_map, E.
  - rewrite length_app. simpl. lia.
Qed.

Lemma shrink_output cands i j acc s' :
  Forall (fun v => In v (PyDict.values (GreedyAtomizer.vocab self))) acc ->
  List.length acc <= i -> i < String.length text ->
  GreedyAtomizer.shrink self text cands i j acc = Ok s' ->
  output_ok s'.
Proof.
  intros Hall Hlen Hi. induction j as [|j IH]; simpl.
  - apply (emit_output _ i); auto; lia.
  - destruct (i + 1 <? S j)%nat eqn:Hlt.
    + apply Nat.ltb_lt in Hlt. destruct (existsb _ cands); [|exact IH].
      apply (emit_output _ i); auto; lia.
    + apply (emit_output _ i); auto; lia.
Qed.

Lemma step_output s s' :
  output_ok s -> GreedyAtomizer.si s < String.length text ->
  GreedyAtomizer.step self text s = Ok s' ->
  output_ok s'.
Proof.
  intros [Hall Hlen] Hi. unfold GreedyAtomizer.step.
  assert (Hlen' : List.length (GreedyAtomizer.out s) <= GreedyAtomizer.si s)
    by lia.
  destruct (PyDict.get _ _ _) as [[|c cs]|].
  - apply (emit_output _ (GreedyAtomizer.si s)); auto; lia.
  - destruct (_ && _).
    + intros H; injection H as <-. split; simpl; assumption.
    + apply shrink_output; auto.
  - apply (emit_output _ (GreedyAtomizer.si s)); auto; lia.
Qed.

Lemma loop_output fuel s idx :
  output_ok s ->
  GreedyAtomizer.loop fuel self text s = Ok idx ->
  Forall (fun v => In v (PyDict.values (GreedyAtomizer.vocab self))) idx
  /\ List.length idx <= String.length text.
Proof.
  revert s; induction fuel as [|fuel IH]; intros s Hs; simpl;
    destruct (GreedyAtomizer.si s <? String.length text)%nat eqn:Hi;
    try discriminate.
  - intros H; injection H as <-. destruct Hs as [H1 H2]. split; [exact H1|lia].
  - apply Nat.ltb_lt in Hi.
    destruct (GreedyAtomizer.step self text s) as [s1|e] eqn:Hstep;
      [|discriminate].
    apply IH. apply (step_output s s1 Hs Hi Hstep).
  - intros H; injection H as <-. destruct Hs as [H1 H2]. split; [exact H1|lia].
Qed.

Lemma atomize_output idx :
  GreedyAtomizer.atomize self text = Ok idx ->
  Forall (fun v => In v (PyDict.values (GreedyAtomizer.vocab self))) idx
  /\ List.length idx <= String.length text.
Proof.
  apply loop_output. split; simpl; [constructor|lia].
Qed.

End GreedyOutput.

(** What [GreedyAtomizer.atomize] returns holds indices of the vocabulary
    only, and no more of them than the text has characters. *)
Theorem greedy_atomize_indices (self : GreedyAtomizer.t) (text : string)
  (idx : list nat) :
  GreedyAtomizer.atomize self text = Ok idx ->
  Forall (fun v => In v (PyDict.values (GreedyAtomizer.vocab self))) idx
  /\ List.length idx <= String.length text.
Proof. exact (atomize_output self text idx). Qed.

Lemma greedy_atomize_indices_witness :
  Forall (fun v =>
            In v (PyDict.values
                    (GreedyAtomizer.vocab
                       (GreedyAtomizer.init [("ab", 0); ("a", 1); ("b", 2)]))))
         [0; 2; 1]
  /\ List.length [0; 2; 1] <= String.length "abba".
Proof.
  apply (greedy_atomize_indices
           (GreedyAtomizer.init [("ab", 0); ("a", 1); ("b", 2)]) "abba"
           [0; 2; 1]).
  vm_compute. reflexivity.
Defined.

(** [tokenize] over a vocabulary with distinct indices: the tokens are keys
    of the vocabulary, there is one for each index of [atomize], and joined
    they are the text. *)
Theorem greedy_tokenize_partition (vocab : PyDict.dict string nat)
  (text : string) (tokens : list string) :
  PyDict.wf vocab -> NoDup (PyDict.values vocab) ->
  GreedyAtomizer.tokenize (GreedyAtomizer.init vocab) text = Ok tokens ->
  join tokens = text /\
  Forall (fun t => In t (PyDict.keys vocab)) tokens /\
  exists idx,
    GreedyAtomizer.atomize (GreedyAtomizer.init vocab) text = Ok idx /\
    Forall2 (fun t i => PyDict.get String.eqb vocab t = Some i) tokens idx.
Proof.
  intros Hwf Hinj. unfold GreedyAtomizer.tokenize, Atomizer.tokenize.
  destruct (GreedyAtomizer.atomize (GreedyAtomizer.init vocab) text)
    as [idx|e] eqn:Hidx; [|discriminate].
  cbn [bind]. intros Htok.
  change (GreedyAtomizer.base (GreedyAtomizer.init vocab))
    with (Atomizer.init vocab) in Htok.
  destruct (atomize_spells vocab _ text Hwf Hinj idx Hidx)
    as (atoms & Hdec & Hjoin).
  rewrite Hdec in Htok. injection Htok as <-.
  split; [exact Hjoin|].
  pose proof (mapM_getitem Nat.eqb (Atomizer.decoder (Atomizer.init vocab)) idx)
    as Hall.
  rewrite Hdec in Hall.
  assert (Hpairs : Forall2 (fun t i => In (t, i) vocab) atoms idx).
  { clear -Hall Hinj. induction Hall as [|i a l l' Hi _ IH]; constructor;
      [|exact IH].
    simpl in Hi. unfold PyDict.items in Hi.
    rewrite (of_pairs_nodup Nat.eqb Nat.eqb_spec) in Hi.
    - apply (get_In Nat.eqb Nat.eqb_spec) in Hi.
      apply in_map_iff in Hi as ([k v] & E & Hin). simpl in E.
      injection E as <- <-. exact Hin.
    - rewrite map_map. simpl. exact Hinj. }
  split.
  - clear -Hpairs. induction Hpairs as [|t i l l' Hi _ IH]; constructor;
      [|exact IH].
    change t with (fst (t, i)). apply in_map, Hi.
  - exists idx. split; [reflexivity|].
    clear -Hpairs Hwf. induction Hpairs as [|t i l l' Hi _ IH]; constructor;
      [|exact IH].
    apply (In_get String.eqb String.eqb_spec); assumption.
Qed.

Lemma greedy_tokenize_partition_witness :
  join ["ab"; "b"; "a"] = "abba" /\
  Forall (fun t => In t (PyDict.keys [("ab", 0); ("a", 1); ("b", 2)]))
         ["ab"; "b"; "a"] /\
  exists idx,
    GreedyAtomizer.atomize
      (GreedyAtomizer.init [("ab", 0); ("a", 1); ("b", 2)]) "abba" = Ok idx /\
    Forall2 (fun t i =>
               PyDict.get String.eqb [("ab", 0); ("a", 1); ("b", 2)] t = Some i)
            ["ab"; "b"; "a"] idx.
Proof.
  apply (greedy_tokenize_partition [("ab", 0); ("a", 1); ("b", 2)] "abba"
           ["ab"; "b"; "a"]).
  - unfold PyDict.wf; simpl.
    repeat (constructor; [simpl; intuition discriminate|]). constructor.
  - simpl. repeat (constructor; [simpl; intuition discriminate|]). constructor.
  - vm_compute. reflexivity.
Defined.

(* ================================================================= *)
(** * Further properties of the kernel driver *)

(** ** [__eq__] *)

Lemma devdata_ne_same d :
  CLDrive.devdata_ne d d
  = match d with
    | Some (CLDrive.Scalar _ v) => is_nan v
    | _ => false
    end.
Proof.
  destruct d as [[t v|id|id n]|]; simpl; try reflexivity.
  - apply number_ne_same.
  - rewrite Nat.eqb_refl. reflexivity.
  - rewrite Nat.eqb_refl. reflexivity.
Qed.

Lemma args_eq_same xs :
  CLDrive.args_eq xs xs = Ok (negb (existsb holds_nan xs)).
Proof.
  induction xs as [|x xs IH]; simpl; [reflexivity|]. unfold holds_nan at 1.
  destruct (CLDrive.hostdata x) as [h|].
  - rewrite Nat.eqb_refl. simpl. rewrite zip_self_equal.
    destruct (existsb is_nan (CLDrive.elems h)); [reflexivity|exact IH].
  - rewrite devdata_ne_same.
    destruct (CLDrive.devdata x) as [[t v|id|id n]|]; try exact IH.
    destruct (is_nan v); [reflexivity|exact IH].
Qed.

Lemma payload_eq_self p :
  CLDrive.payload_eq p p = Ok (negb (existsb holds_nan (CLDrive.p_args p))).
Proof.
  unfold CLDrive.payload_eq. rewrite !Nat.eqb_refl. simpl.
  apply args_eq_same.
Qed.

(** [__eq__] and [__ne__] on payloads. A payload is equal to itself exactly
    when no NaN is among the numbers that the comparison looks at, those of
    its host arrays and its scalars: a NaN differs from itself. Payloads
    with different contexts or different numbers of arguments are not equal;
    the comparison raises nothing but a [TypeError], and it returns whenever
    the second payload has a host array wherever the first has one. *)
Theorem payload_eq_behaviour (p q : CLDrive.KernelPayload) :
  CLDrive.payload_eq p p = Ok (negb (existsb holds_nan (CLDrive.p_args p)))
  /\ CLDrive.payload_ne p p = Ok (existsb holds_nan (CLDrive.p_args p))
  /\ (CLDrive.p_ctx p <> CLDrive.p_ctx q -> CLDrive.payload_eq p q = Ok false)
  /\ (List.length (CLDrive.p_args p) <> List.length (CLDrive.p_args q) ->
      CLDrive.payload_eq p q = Ok false)
  /\ (forall e, CLDrive.payload_eq p q = Raise e -> e = TypeError)
  /\ (Forall2 keeps_host (CLDrive.p_args p) (CLDrive.p_args q) ->
      exists b, CLDrive.payload_eq p q = Ok b /\
                CLDrive.payload_ne p q = Ok (negb b)).
Proof.
  split; [apply payload_eq_self|]. split; [|split; [|split; [|split]]].
  - unfold CLDrive.payload_ne. rewrite payload_eq_self. simpl.
    rewrite negb_involutive. reflexivity.
  - intros H. unfold CLDrive.payload_eq.
    destruct (Nat.eqb_spec (CLDrive.p_ctx p) (CLDrive.p_ctx q));
      [contradiction|reflexivity].
  - intros H. unfold CLDrive.payload_eq.
    destruct (negb (CLDrive.p_ctx p =? CLDrive.p_ctx q)%nat); [reflexivity|].
    destruct (Nat.eqb_spec (List.length (CLDrive.p_args p))
                (List.length (CLDrive.p_args q)));
      [contradiction|reflexivity].
  - intros e. apply payload_eq_raises.
  - intros H. destruct (payload_eq_returns p q H) as (b & Hb).
    exists b. split; [exact Hb|]. unfold CLDrive.payload_ne. rewrite Hb.
    reflexivity.
Qed.

(** ** The payload of a generator, argument by argument *)

(** A payload that a generator returns is determined by the prototype and
    the size, up to the numbers in the arrays and the identity of the OpenCL
    objects: the context is the driver's and the range is [(size,)]; the
    arguments follow the prototype one by one, a local pointer with a local
    memory buffer of eight bytes for each of the [size * vector_width]
    elements, another pointer with a host array of that many elements of the
    argument's type and a device buffer, a scalar with [size] converted to
    its type ([of_int]: an integer type wraps around, a float type rounds to
    the nearest of its numbers); and the transfer size is the sum, over the
    pointers that are not local, of the bytes of the array, counted twice
    unless the pointer is const. The random generator is assumed to return
    arrays of the length asked for. *)
Theorem generated_payload_shape (P : CLDrive.Platform)
  (generator : nat -> CLDrive.M CLDrive.KernelPayload) (size : nat)
  (m m' : CLDrive.machine) (p : CLDrive.KernelPayload) :
  generator = CLDrive.create_sequential P \/
  (generator = CLDrive.create_random P /\
   forall k n, List.length (CLDrive.random_rand P k n) = n) ->
  generator size m = (Ok p, m') ->
  CLDrive.p_ctx p = CLDrive.d_ctx (CLDrive.driver m) /\
  CLDrive.p_ndrange p = [size] /\
  Forall2 (generated_from size)
    (CLDrive.d_prototype (CLDrive.driver m)) (CLDrive.p_args p) /\
  CLDrive.p_transfersize p
  = list_sum (map (expected_bytes size)
                (CLDrive.d_prototype (CLDrive.driver m))).
Proof.
  intros [-> | [-> Hlen]] H.
  - apply (create_payload_shape P _ size m p m' arange_generator H).
  - apply (create_payload_shape P _ size m p m' (random_generator P Hlen) H).
Qed.

Lemma generated_payload_shape_witness :
  let p := Demo.value Demo.no_payload
             (CLDrive.create_random Demo.P_inc 4 Demo.m0_inc) in
  CLDrive.p_ctx p = CLDrive.d_ctx (CLDrive.driver Demo.m0_inc) /\
  CLDrive.p_ndrange p = [4] /\
  Forall2 (generated_from 4)
    (CLDrive.d_prototype (CLDrive.driver Demo.m0_inc)) (CLDrive.p_args p) /\
  CLDrive.p_transfersize p
  = list_sum (map (expected_bytes 4)
                (CLDrive.d_prototype (CLDrive.driver Demo.m0_inc))).
Proof.
  apply (generated_payload_shape Demo.P_inc (CLDrive.create_random Demo.P_inc)
           4 Demo.m0_inc
           (snd (CLDrive.create_random Demo.P_inc 4 Demo.m0_inc))).
  - right. split; [reflexivity|]. intros k n. apply repeat_length.
  - vm_compute. reflexivity.
Defined.

(** ** [__deepcopy__] *)

(** The argument [dst] that [__deepcopy__] makes of [src]: the same
    descriptor and host array; a device buffer or a local memory buffer is a
    new object, numbered from [lo] and below [hi]; a scalar is the same. *)
Definition copy_of (lo hi : nat) (src dst : CLDrive.KernelArg) : Prop :=
  same_descriptor src dst /\
  match CLDrive.hostdata src with
  | Some h =>
      CLDrive.hostdata dst = Some h /\
      CLDrive.flags dst = CLDrive.flags src /\
      exists id, CLDrive.devdata dst = Some (CLDrive.Buffer id) /\
                 lo <= id < hi
  | None =>
      CLDrive.hostdata dst = None /\
      if CLDrive.is_local src then
        exists id size,
          CLDrive.bufsize src = Some size /\
          CLDrive.bufsize dst = Some size /\
          CLDrive.devdata dst = Some (CLDrive.LocalMemory id size) /\
          lo <= id < hi
      else CLDrive.devdata dst = CLDrive.devdata src
  end.

(** The device buffer of an argument with a host array holds the array. *)
Definition holds (mem : CLDrive.devmem) (a : CLDrive.KernelArg) : Prop :=
  forall h id,
    CLDrive.hostdata a = Some h ->
    CLDrive.devdata a = Some (CLDrive.Buffer id) ->
    PyDict.get Nat.eqb mem id = Some (CLDrive.elems h).

(** From [m] to [m'] objects were made, and nothing else happened: the
    driver, the queue, the events, the random generator and the memory of
    the objects of [m] are as they were. *)
Definition only_allocates (m m' : CLDrive.machine) : Prop :=
  CLDrive.next_object m <= CLDrive.next_object m' /\
  CLDrive.driver m' = CLDrive.driver m /\
  CLDrive.queue m' = CLDrive.queue m /\
  CLDrive.events m' = CLDrive.events m /\
  CLDrive.rand_calls m' = CLDrive.rand_calls m /\
  forall id, id < CLDrive.next_object m ->
             PyDict.get Nat.eqb (CLDrive.memory m') id
             = PyDict.get Nat.eqb (CLDrive.memory m) id.

Lemma only_allocates_refl m : only_allocates m m.
Proof. unfold only_allocates. auto 10. Qed.

Lemma only_allocates_trans m1 m2 m3 :
  only_allocates m1 m2 -> only_allocates m2 m3 -> only_allocates m1 m3.
Proof.
  intros (Hn & Hd & Hq & He & Hr & Hm) (Hn' & Hd' & Hq' & He' & Hr' & Hm').
  unfold only_allocates. repeat split; try congruence; try lia.
  intros id Hid. rewrite Hm' by lia. apply Hm, Hid.
Qed.

Lemma Buffer_new_state P ctx fl h m d m' :
  CLDrive.Buffer_new P ctx fl h m = (Ok d, m') ->
  d = CLDrive.Buffer (CLDrive.next_object m) /\
  CLDrive.next_object m' = S (CLDrive.next_object m) /\
  only_allocates m m' /\
  PyDict.get Nat.eqb (CLDrive.memory m') (CLDrive.next_object m)
  = Some (CLDrive.elems h).
Proof.
  unfold CLDrive.Buffer_new.
  destruct (CLDrive.buffer_ok P _); [|discriminate].
  unfold CLDrive.bindM, CLDrive.new_object, CLDrive.store, CLDrive.ret.
  intros H; injection H as <- <-. simpl.
  split; [reflexivity|]. split; [reflexivity|]. split.
  - unfold only_allocates; simpl. repeat split; try lia.
    intros id Hid. rewrite (get_set Nat.eqb Nat.eqb_spec).
    destruct (Nat.eqb_spec id (CLDrive.next_object m)); [lia|reflexivity].
  - rewrite (get_set Nat.eqb Nat.eqb_spec), Nat.eqb_refl. reflexivity.
Qed.

Lemma LocalMemory_new_state n m d m' :
  CLDrive.LocalMemory_new n m = (Ok d, m') ->
  d = CLDrive.LocalMemory (CLDrive.next_object m) n /\
  CLDrive.next_object m' = S (CLDrive.next_object m) /\
  only_allocates m m'.
Proof.
  unfold CLDrive.LocalMemory_new, CLDrive.bindM, CLDrive.new_object,
    CLDrive.ret.
  intros H; injection H as <- <-. simpl.
  split; [reflexivity|]. split; [reflexivity|].
  unfold only_allocates; simpl. repeat split; lia.
Qed.

Lemma ndarray_eta (h : CLDrive.ndarray) :
  {| CLDrive.dt := CLDrive.dt h; CLDrive.elems := CLDrive.elems h |} = h.
Proof. destruct h; reflexivity. Qed.

Lemma deepcopy_arg_shape P ctx src m dst m' :
  CLDrive.deepcopy_arg P ctx src m = (Ok dst, m') ->
  copy_of (CLDrive.next_object m) (CLDrive.next_object m') src dst /\
  only_allocates m m' /\
  holds (CLDrive.memory m') dst.
Proof.
  unfold CLDrive.deepcopy_arg, copy_of, holds.
  destruct (CLDrive.hostdata src) as [h|] eqn:Hh.
  - intros H. apply bindM_Ok in H as (fl & m1 & Hfl & H).
    apply attribute_Ok in Hfl as [Hfl ->].
    apply bindM_Ok in H as (d & m2 & Hd & H).
    apply ret_Ok in H as [<- <-].
    apply Buffer_new_state in Hd as (-> & Hn & Hal & Hmem). simpl.
    rewrite ndarray_eta. split; [|split; [exact Hal|]].
    + split; [unfold same_descriptor; simpl; auto 10|].
      split; [reflexivity|]. split; [congruence|].
      exists (CLDrive.next_object m). split; [reflexivity|lia].
    + intros h' id E1 E2. injection E1 as <-. injection E2 as <-.
      exact Hmem.
  - destruct (CLDrive.is_local src) eqn:Hl.
    + intros H. apply bindM_Ok in H as (size & m1 & Hb & H).
      apply attribute_Ok in Hb as [Hb ->].
      apply bindM_Ok in H as (d & m2 & Hd & H).
      apply ret_Ok in H as [<- <-].
      apply LocalMemory_new_state in Hd as (-> & Hn & Hal). simpl.
      split; [|split; [exact Hal|]].
      * split; [unfold same_descriptor; simpl; auto 10|]. split; [reflexivity|].
        exists (CLDrive.next_object m), size.
        split; [exact Hb|]. split; [reflexivity|].
        split; [reflexivity|lia].
      * intros h' id E1 E2. discriminate.
    + intros H. apply bindM_Ok in H as (d & m1 & Hd & H).
      apply ret_Ok in H as [<- <-].
      unfold CLDrive.deepcopy_devdata in Hd.
      destruct (CLDrive.devdata src) as [[t v|id|id n]|]; try discriminate.
      apply ret_Ok in Hd as [<- <-]. simpl.
      split; [|split; [apply only_allocates_refl|]].
      * split; [unfold same_descriptor; simpl; auto 10|]. split; reflexivity.
      * intros h' id E1 E2. discriminate.
Qed.

Lemma copy_of_wider lo hi lo' hi' src dst :
  lo' <= lo -> hi <= hi' -> copy_of lo hi src dst -> copy_of lo' hi' src dst.
Proof.
  intros Hlo Hhi [Hd H]. split; [exact Hd|].
  destruct (CLDrive.hostdata src).
  - destruct H as (H1 & H2 & id & H3 & H4). repeat split; auto.
    exists id. split; [exact H3|lia].
  - destruct H as [H1 H]. split; [exact H1|].
    destruct (CLDrive.is_local src); [|exact H].
    destruct H as (id & size & H2 & H3 & H4 & H5).
    exists id, size. repeat split; auto; lia.
Qed.

Lemma holds_later m m' a :
  only_allocates m m' ->
  (forall h id, CLDrive.hostdata a = Some h ->
                CLDrive.devdata a = Some (CLDrive.Buffer id) ->
                id < CLDrive.next_object m) ->
  holds (CLDrive.memory m) a -> holds (CLDrive.memory m') a.
Proof.
  intros (_ & _ & _ & _ & _ & Hm) Hid H h id E1 E2.
  rewrite Hm; [apply H; assumption|]. apply (Hid h id E1 E2).
Qed.

Lemma deepcopy_args_shape P ctx args :
  forall m copies m',
    CLDrive.for_each (CLDrive.deepcopy_arg P ctx) args m = (Ok copies, m') ->
    Forall2 (copy_of (CLDrive.next_object m) (CLDrive.next_object m'))
      args copies /\
    only_allocates m m' /\
    Forall (holds (CLDrive.memory m')) copies.
Proof.
  induction args as [|a args IH]; simpl; intros m copies m' H.
  - apply ret_Ok in H as [<- <-].
    split; [constructor|]. split; [apply only_allocates_refl|constructor].
  - apply bindM_Ok in H as (c & m1 & Hc & H).
    apply bindM_Ok in H as (cs & m2 & Hcs & H).
    apply ret_Ok in H as [<- <-].
    apply deepcopy_arg_shape in Hc as (Hc & Hal & Hh).
    apply IH in Hcs as (Hcs & Hal' & Hhs).
    pose proof Hal as (Hn & _). pose proof Hal' as (Hn' & _).
    split; [|split].
    + constructor.
      * eapply copy_of_wider; [| |exact Hc]; lia.
      * eapply Forall2_impl; [|exact Hcs].
        intros x y. apply copy_of_wider; lia.
    + eapply only_allocates_trans; eassumption.
    + constructor; [|exact Hhs].
      apply (holds_later m1 m2 c Hal'); [|exact Hh].
      intros h id E1 E2. destruct Hc as [_ Hc].
      destruct (CLDrive.hostdata a).
      * destruct Hc as (_ & _ & id' & E' & Hlt). rewrite E2 in E'.
        injection E' as <-. lia.
      * destruct Hc as [E _]. congruence.
Qed.

Lemma deepcopy_Ok P p m q m' :
  CLDrive.deepcopy P p m = (Ok q, m') ->
  CLDrive.p_ctx q = CLDrive.p_ctx p /\
  CLDrive.p_ndrange q = CLDrive.p_ndrange p /\
  CLDrive.p_transfersize q = CLDrive.p_transfersize p /\
  Forall2 (copy_of (CLDrive.next_object m) (CLDrive.next_object m'))
    (CLDrive.p_args p) (CLDrive.p_args q) /\
  Forall (holds (CLDrive.memory m')) (CLDrive.p_args q) /\
  only_allocates m m'.
Proof.
  unfold CLDrive.deepcopy. intros H.
  apply bindM_Ok in H as (copies & m1 & Hc & H).
  apply ret_Ok in H as [<- <-]. simpl.
  apply deepcopy_args_shape in Hc as (Hc & Hal & Hh). auto 10.
Qed.

(** When [__deepcopy__] returns, the copy has the context, the range and
    the transfer size of the payload; its arguments follow those of the
    payload one by one, with the same descriptor and the same host array,
    every device buffer and local memory buffer being an object made during
    the copy; the new device buffers hold the host arrays; and the copy
    enqueues nothing and leaves the driver and the memory of the older
    objects as they were. *)
Theorem deepcopy_shape (P : CLDrive.Platform) (p q : CLDrive.KernelPayload)
  (m m' : CLDrive.machine) :
  CLDrive.deepcopy P p m = (Ok q, m') ->
  CLDrive.p_ctx q = CLDrive.p_ctx p /\
  CLDrive.p_ndrange q = CLDrive.p_ndrange p /\
  CLDrive.p_transfersize q = CLDrive.p_transfersize p /\
  Forall2 (copy_of (CLDrive.next_object m) (CLDrive.next_object m'))
    (CLDrive.p_args p) (CLDrive.p_args q) /\
  Forall (holds (CLDrive.memory m')) (CLDrive.p_args q) /\
  only_allocates m m'.
Proof. apply deepcopy_Ok. Qed.

Lemma deepcopy_shape_witness :
  let r := CLDrive.deepcopy Demo.P_local Demo.A1_local Demo.m1_local in
  let q := Demo.value Demo.no_payload r in
  CLDrive.p_ctx q = CLDrive.p_ctx Demo.A1_local /\
  CLDrive.p_ndrange q = CLDrive.p_ndrange Demo.A1_local /\
  CLDrive.p_transfersize q = CLDrive.p_transfersize Demo.A1_local /\
  Forall2 (copy_of (CLDrive.next_object Demo.m1_local)
             (CLDrive.next_object (snd r)))
    (CLDrive.p_args Demo.A1_local) (CLDrive.p_args q) /\
  Forall (holds (CLDrive.memory (snd r))) (CLDrive.p_args q) /\
  only_allocates Demo.m1_local (snd r).
Proof.
  apply (deepcopy_shape Demo.P_local Demo.A1_local
           (Demo.value Demo.no_payload
              (CLDrive.deepcopy Demo.P_local Demo.A1_local Demo.m1_local))
           Demo.m1_local
           (snd (CLDrive.deepcopy Demo.P_local Demo.A1_local Demo.m1_local))).
  vm_compute. reflexivity.
Defined.

(** ** [host_to_device] *)

(** The copies that [host_to_device] enqueues: one for each argument with a
    host array, into its device buffer. *)
Definition copied_in (args : list CLDrive.KernelArg)
  : list CLDrive.command :=
  flat_map
    (fun a =>
       match CLDrive.hostdata a, CLDrive.devdata a with
       | Some h, Some (CLDrive.Buffer id) =>
           [CLDrive.CopyHostToDevice id (CLDrive.elems h)]
       | _, _ => []
       end)
    args.

(** The time of an event, in milliseconds. *)
Definition event_ms (P : CLDrive.Platform) (ev : nat) : Q :=
  match CLDrive.profiling_info P ev with
  | Some (tstart, tend) => (inject_Z (tend - tstart) / inject_Z 1000000)%Q
  | None => 0%Q
  end.

(** The times of the [n] events from [first] on, added to [elapsed] one
    after the other. *)
Definition total_ms (P : CLDrive.Platform) (first n : nat) (elapsed : Q) : Q :=
  fold_left (fun acc ev => (acc + event_ms P ev)%Q) (seq first n) elapsed.

(** Every argument with a host array has a device buffer. *)
Definition buffered (a : CLDrive.KernelArg) : Prop :=
  CLDrive.hostdata a <> None ->
  exists id, CLDrive.devdata a = Some (CLDrive.Buffer id).

Lemma copy_to_device_Ok d h m ev m' :
  CLDrive.enqueue_copy_to_device d h m = (Ok ev, m') ->
  exists id,
    d = Some (CLDrive.Buffer id) /\ ev = CLDrive.events m /\
    CLDrive.queue m'
    = CLDrive.queue m ++ [CLDrive.CopyHostToDevice id (CLDrive.elems h)] /\
    CLDrive.events m' = S (CLDrive.events m) /\
    CLDrive.next_object m' = CLDrive.next_object m /\
    CLDrive.driver m' = CLDrive.driver m.
Proof.
  unfold CLDrive.enqueue_copy_to_device.
  destruct d as [[t v|id|id n]|]; try discriminate.
  unfold CLDrive.bindM, CLDrive.store, CLDrive.enqueue.
  intros H; injection H as <- <-. simpl. exists id. auto 10.
Qed.

Lemma copy_to_device_raises d h m e m' :
  CLDrive.enqueue_copy_to_device d h m = (Raise e, m') -> e = OtherError.
Proof.
  unfold CLDrive.enqueue_copy_to_device.
  destruct d as [[t v|id|id n]|];
    unfold CLDrive.raise, CLDrive.bindM, CLDrive.store, CLDrive.enqueue;
    intros H; try discriminate; injection H as <- _; reflexivity.
Qed.

Lemma get_event_time_Ok P ev m t m' :
  CLDrive.get_event_time P ev m = (Ok t, m') -> t = event_ms P ev /\ m' = m.
Proof.
  unfold CLDrive.get_event_time, event_ms.
  destruct (CLDrive.profiling_info P ev) as [[a b]|]; [|discriminate].
  intros H. apply ret_Ok in H as [<- <-]. auto.
Qed.

Lemma get_event_time_raises P ev m e m' :
  CLDrive.get_event_time P ev m = (Raise e, m') -> e = E_BAD_PROFILE.
Proof.
  unfold CLDrive.get_event_time.
  destruct (CLDrive.profiling_info P ev) as [[a b]|]; [discriminate|].
  unfold CLDrive.raise. intros H; injection H as <- _. reflexivity.
Qed.

Lemma host_to_device_loop_Ok P args :
  forall elapsed m t m',
    CLDrive.host_to_device_loop P args elapsed m = (Ok t, m') ->
    Forall buffered args /\
    CLDrive.queue m' = CLDrive.queue m ++ copied_in args /\
    CLDrive.events m' = CLDrive.events m + List.length (copied_in args) /\
    t = total_ms P (CLDrive.events m) (List.length (copied_in args)) elapsed /\
    CLDrive.next_object m' = CLDrive.next_object m /\
    CLDrive.driver m' = CLDrive.driver m.
Proof.
  induction args as [|a args IH]; simpl; intros elapsed m t m' H.
  - apply ret_Ok in H as [<- <-]. rewrite app_nil_r, Nat.add_0_r.
    repeat split; auto.
  - destruct (CLDrive.hostdata a) as [h|] eqn:Hh.
    + apply bindM_Ok in H as (ev & m1 & Hev & H).
      apply bindM_Ok in H as (t1 & m2 & Ht & H).
      apply copy_to_device_Ok in Hev as (id & Hd & -> & Hq & He & Hn & Hdr).
      apply get_event_time_Ok in Ht as [-> ->].
      apply IH in H as (Hb & Hq' & He' & -> & Hn' & Hdr').
      rewrite Hd. simpl. repeat split.
      * constructor; [|exact Hb]. intros _. eauto.
      * rewrite Hq', Hq, <- app_assoc. reflexivity.
      * lia.
      * rewrite He. reflexivity.
      * congruence.
      * congruence.
    + apply IH in H as (Hb & Hq' & He' & -> & Hn' & Hdr').
      simpl. repeat split; auto.
      constructor; [|exact Hb]. intros E. congruence.
Qed.

Lemma host_to_device_loop_raises P args :
  forall elapsed m e m',
    CLDrive.host_to_device_loop P args elapsed m = (Raise e, m') ->
    e = OtherError \/ e = E_BAD_PROFILE.
Proof.
  induction args as [|a args IH]; simpl; intros elapsed m e m' H.
  - discriminate.
  - destruct (CLDrive.hostdata a) as [h|]; [|eapply IH, H].
    unfold CLDrive.bindM in H.
    destruct (CLDrive.enqueue_copy_to_device _ _ _) as [[ev|e1] m1] eqn:E1.
    + destruct (CLDrive.get_event_time P ev m1) as [[t|e2] m2] eqn:E2.
      * eapply IH, H.
      * injection H as <- _. right. eapply get_event_time_raises, E2.
    + injection H as <- _. left. eapply copy_to_device_raises, E1.
Qed.

(** [host_to_device] enqueues, in the order of the arguments, one copy to
    the device for every argument with a host array, const or not, and
    returns the sum of the times of the events of these copies; every such
    argument has a device buffer. It raises nothing but [E_BAD_PROFILE], when
    the time of an event cannot be read, and the error of a copy that the
    platform refuses. *)
Theorem host_to_device_copies (P : CLDrive.Platform)
  (p : CLDrive.KernelPayload) (m : CLDrive.machine) :
  match CLDrive.host_to_device P p m with
  | (Ok t, m') =>
      Forall buffered (CLDrive.p_args p) /\
      CLDrive.queue m' = CLDrive.queue m ++ copied_in (CLDrive.p_args p) /\
      t = total_ms P (CLDrive.events m)
            (List.length (copied_in (CLDrive.p_args p))) 0
  | (Raise e, _) => e = OtherError \/ e = E_BAD_PROFILE
  end.
Proof.
  unfold CLDrive.host_to_device.
  destruct (CLDrive.host_to_device_loop P (CLDrive.p_args p) 0 m)
    as [[t|e] m'] eqn:E.
  - apply host_to_device_loop_Ok in E as (Hb & Hq & _ & Ht & _). auto.
  - eapply host_to_device_loop_raises, E.
Qed.

(** ** [__call__] *)

Lemma device_to_host_loop_objects P args :
  forall elapsed m r m',
    CLDrive.device_to_host_loop P args elapsed m = (Ok r, m') ->
    CLDrive.next_object m' = CLDrive.next_object m /\
    map CLDrive.devdata (snd r) = map CLDrive.devdata args.
Proof.
  induction args as [|a args IH]; simpl; intros elapsed m r m' H.
  - apply ret_Ok in H as [<- <-]. auto.
  - destruct (CLDrive.hostdata a) as [h|] eqn:Hh.
    + destruct (CLDrive.is_const a).
      * apply bindM_Ok in H as (r1 & m1 & H1 & H).
        apply ret_Ok in H as [<- <-]. apply IH in H1 as [Hn Hd]. simpl.
        rewrite Hd. auto.
      * apply bindM_Ok in H as (eh & m1 & He & H).
        apply bindM_Ok in H as (t & m2 & Ht & H).
        apply bindM_Ok in H as (r1 & m3 & H1 & H).
        apply ret_Ok in H as [<- <-]. apply IH in H1 as [Hn Hd]. simpl.
        rewrite Hd. split; [|reflexivity].
        apply get_event_time_Ok in Ht as [_ ->].
        unfold CLDrive.enqueue_copy_to_host in He.
        destruct (CLDrive.devdata a) as [[? ?|id|? ?]|]; try discriminate.
        unfold CLDrive.bindM, CLDrive.read in He.
        destruct (PyDict.get Nat.eqb (CLDrive.memory m) id);
          [|discriminate].
        unfold CLDrive.enqueue, CLDrive.ret in He.
        injection He as _ <-. exact Hn.
    + apply bindM_Ok in H as (r1 & m1 & H1 & H).
      apply ret_Ok in H as [<- <-]. apply IH in H1 as [Hn Hd]. simpl.
      rewrite Hd. auto.
Qed.

Lemma launch_kernel_Ok nd l ka m ev m' :
  CLDrive.launch_kernel nd l ka m = (Ok ev, m') ->
  ev = CLDrive.events m /\
  CLDrive.queue m'
  = CLDrive.queue m
    ++ [CLDrive.Launch
          (CLDrive.FUNCTION_NAME (CLDrive.d_kernel (CLDrive.driver m)))
          nd l ka] /\
  CLDrive.next_object m' = CLDrive.next_object m /\
  CLDrive.driver m' = CLDrive.driver m.
Proof.
  unfold CLDrive.launch_kernel, CLDrive.bindM, CLDrive.read.
  destruct (CLDrive.launch _ _ _ _ _ _); [|discriminate].
  unfold CLDrive.write, CLDrive.enqueue. intros H; injection H as <- <-.
  simpl. auto.
Qed.

(** A single-shot execution that returns. *)
Lemma call_Ok P payload m out m' :
  CLDrive.call P payload m = (Ok out, m') ->
  exists clone x,
    let n := List.length (copied_in (CLDrive.p_args clone)) in
    let local_size_x := Nat.min x 256 in
    Forall2 (copy_of (CLDrive.next_object m) (CLDrive.next_object m'))
      (CLDrive.p_args payload) (CLDrive.p_args clone) /\
    hd_error (CLDrive.p_ndrange payload) = Some x /\
    CLDrive.set_args (CLDrive.d_kernel (CLDrive.driver m))
      (CLDrive.kargs clone) = true /\
    CLDrive.kargs out = CLDrive.kargs clone /\
    CLDrive.p_ctx out = CLDrive.p_ctx payload /\
    CLDrive.p_ndrange out = CLDrive.p_ndrange payload /\
    CLDrive.p_transfersize out = CLDrive.p_transfersize payload /\
    CLDrive.queue m'
    = CLDrive.queue m
      ++ [CLDrive.Flush]
      ++ copied_in (CLDrive.p_args clone)
      ++ [CLDrive.Launch
            (CLDrive.FUNCTION_NAME (CLDrive.d_kernel (CLDrive.driver m)))
            (CLDrive.p_ndrange payload) local_size_x (CLDrive.kargs clone)]
      ++ map CLDrive.CopyDeviceToHost (read_back (CLDrive.p_args clone))
      ++ [CLDrive.Flush] /\
    CLDrive.d_wgsizes (CLDrive.driver m')
    = CLDrive.d_wgsizes (CLDrive.driver m) ++ [local_size_x] /\
    CLDrive.d_transfers (CLDrive.driver m')
    = CLDrive.d_transfers (CLDrive.driver m)
      ++ [CLDrive.p_transfersize payload] /\
    CLDrive.d_runtimes (CLDrive.driver m')
    = CLDrive.d_runtimes (CLDrive.driver m)
      ++ [(0 + total_ms P (CLDrive.events m) n 0
           + event_ms P (CLDrive.events m + n) + 0)%Q].
Proof.
  unfold CLDrive.call. intros H.
  apply bindM_Ok in H as (u1 & m1 & Hf1 & H).
  apply bindM_Ok in H as (clone & m2 & Hcopy & H).
  apply bindM_Ok in H as (t & m3 & Hin & H).
  apply bindM_Ok in H as (mr & m4 & Hread & H).
  apply bindM_Ok in H as (u2 & m5 & Hset & H).
  apply bindM_Ok in H as (x & m6 & Hx & H).
  apply bindM_Ok in H as (ev & m7 & Hlaunch & H).
  apply bindM_Ok in H as (t2 & m8 & Ht2 & H).
  apply bindM_Ok in H as (r & m9 & Hback & H).
  apply bindM_Ok in H as (u3 & m10 & Hrec & H).
  apply bindM_Ok in H as (u4 & m11 & Hf2 & H).
  apply ret_Ok in H as [<- <-].
  unfold CLDrive.flush in Hf1. injection Hf1 as _ <-.
  apply deepcopy_Ok in Hcopy
    as (Hctx & Hnd & Hts & Hargs & _ & Hn2 & Hd2 & Hq2 & He2 & _).
  simpl in Hargs, Hn2, Hd2, Hq2, He2.
  unfold CLDrive.host_to_device in Hin.
  apply host_to_device_loop_Ok in Hin as (_ & Hq3 & He3 & -> & Hn3 & Hd3).
  apply ret_Ok in Hread as [<- <-].
  assert (Hs : CLDrive.set_args (CLDrive.d_kernel (CLDrive.driver m3))
                 (CLDrive.kargs clone) = true /\ m5 = m3).
  { destruct (CLDrive.set_args _ _); [|discriminate].
    apply ret_Ok in Hset as [_ <-]. auto. }
  destruct Hs as [Hs ->].
  assert (Hx' : hd_error (CLDrive.p_ndrange clone) = Some x /\ m6 = m3).
  { unfold CLDrive.lift in Hx.
    destruct (CLDrive.p_ndrange clone); [discriminate|].
    injection Hx as -> <-. auto. }
  destruct Hx' as [Hx' ->].
  apply launch_kernel_Ok in Hlaunch as (-> & Hq7 & Hn7 & Hd7).
  apply get_event_time_Ok in Ht2 as [-> ->].
  pose proof (unchanged_device_to_host P clone m7) as Hd9.
  rewrite Hback in Hd9. simpl in Hd9.
  pose proof Hback as Hback'.
  apply device_to_host_Ok in Hback as [Hr Hq9].
  unfold CLDrive.device_to_host in Hback'.
  apply bindM_Ok in Hback' as (r1 & m12 & Hloop & Hback').
  apply ret_Ok in Hback' as [<- <-].
  apply device_to_host_loop_objects in Hloop as [Hn9 Hka].
  unfold CLDrive.record in Hrec. injection Hrec as _ <-.
  unfold CLDrive.flush in Hf2. injection Hf2 as _ <-.
  simpl in *.
  exists clone, x. cbv zeta.
  assert (Edrv : CLDrive.driver m12 = CLDrive.driver m) by congruence.
  assert (Edrv3 : CLDrive.driver m3 = CLDrive.driver m) by congruence.
  rewrite Edrv.
  split.
  { replace (CLDrive.next_object m12) with (CLDrive.next_object m2)
      by congruence. exact Hargs. }
  split; [congruence|].
  split; [rewrite <- Edrv3; exact Hs|].
  split; [exact Hka|].
  split; [exact Hctx|]. split; [exact Hnd|]. split; [exact Hts|].
  split.
  { rewrite Hq9, Hq7, Hq3, Hq2, Edrv3, Hnd. rewrite <- !app_assoc.
    reflexivity. }
  split; [reflexivity|]. split; [reflexivity|].
  rewrite Hr, He3, He2. reflexivity.
Qed.

(** When a single-shot execution returns, it has enqueued, in this order: a
    flush, the copies to the device of a deep copy of the payload, one launch
    of the kernel on the device data of that copy, over the range of the
    payload and with the work-group size [min(ndrange[0], 256)], the copies
    back to the host, and a flush. It has recorded that work-group size, the
    transfer size of the payload, and as the run time the times of the
    copies to the device and of the launch, the copies back to the host
    counting for nothing. The result has the device data of the copy, and
    the context, range and transfer size of the payload. *)
Theorem call_sequence (P : CLDrive.Platform)
  (payload out : CLDrive.KernelPayload) (m m' : CLDrive.machine) :
  CLDrive.call P payload m = (Ok out, m') ->
  exists clone x,
    let n := List.length (copied_in (CLDrive.p_args clone)) in
    let local_size_x := Nat.min x 256 in
    Forall2 (copy_of (CLDrive.next_object m) (CLDrive.next_object m'))
      (CLDrive.p_args payload) (CLDrive.p_args clone) /\
    hd_error (CLDrive.p_ndrange payload) = Some x /\
    CLDrive.set_args (CLDrive.d_kernel (CLDrive.driver m))
      (CLDrive.kargs clone) = true /\
    CLDrive.kargs out = CLDrive.kargs clone /\
    CLDrive.p_ctx out = CLDrive.p_ctx payload /\
    CLDrive.p_ndrange out = CLDrive.p_ndrange payload /\
    CLDrive.p_transfersize out = CLDrive.p_transfersize payload /\
    CLDrive.queue m'
    = CLDrive.queue m
      ++ [CLDrive.Flush]
      ++ copied_in (CLDrive.p_args clone)
      ++ [CLDrive.Launch
            (CLDrive.FUNCTION_NAME (CLDrive.d_kernel (CLDrive.driver m)))
            (CLDrive.p_ndrange payload) local_size_x (CLDrive.kargs clone)]
      ++ map CLDrive.CopyDeviceToHost (read_back (CLDrive.p_args clone))
      ++ [CLDrive.Flush] /\
    CLDrive.d_wgsizes (CLDrive.driver m')
    = CLDrive.d_wgsizes (CLDrive.driver m) ++ [local_size_x] /\
    CLDrive.d_transfers (CLDrive.driver m')
    = CLDrive.d_transfers (CLDrive.driver m)
      ++ [CLDrive.p_transfersize payload] /\
    CLDrive.d_runtimes (CLDrive.driver m')
    = CLDrive.d_runtimes (CLDrive.driver m)
      ++ [(0 + total_ms P (CLDrive.events m) n 0
           + event_ms P (CLDrive.events m + n) + 0)%Q].
Proof. apply call_Ok. Qed.

Lemma call_sequence_witness :
  let P := Demo.P_inc in
  let payload := Demo.A1_inc in
  let m := Demo.m1_inc in
  let out := Demo.value Demo.no_payload (CLDrive.call P payload m) in
  let m' := snd (CLDrive.call P payload m) in
  exists clone x,
    let n := List.length (copied_in (CLDrive.p_args clone)) in
    let local_size_x := Nat.min x 256 in
    Forall2 (copy_of (CLDrive.next_object m) (CLDrive.next_object m'))
      (CLDrive.p_args payload) (CLDrive.p_args clone) /\
    hd_error (CLDrive.p_ndrange payload) = Some x /\
    CLDrive.set_args (CLDrive.d_kernel (CLDrive.driver m))
      (CLDrive.kargs clone) = true /\
    CLDrive.kargs out = CLDrive.kargs clone /\
    CLDrive.p_ctx out = CLDrive.p_ctx payload /\
    CLDrive.p_ndrange out = CLDrive.p_ndrange payload /\
    CLDrive.p_transfersize out = CLDrive.p_transfersize payload /\
    CLDrive.queue m'
    = CLDrive.queue m
      ++ [CLDrive.Flush]
      ++ copied_in (CLDrive.p_args clone)
      ++ [CLDrive.Launch
            (CLDrive.FUNCTION_NAME (CLDrive.d_kernel (CLDrive.driver m)))
            (CLDrive.p_ndrange payload) local_size_x (CLDrive.kargs clone)]
      ++ map CLDrive.CopyDeviceToHost (read_back (CLDrive.p_args clone))
      ++ [CLDrive.Flush] /\
    CLDrive.d_wgsizes (CLDrive.driver m')
    = CLDrive.d_wgsizes (CLDrive.driver m) ++ [local_size_x] /\
    CLDrive.d_transfers (CLDrive.driver m')
    = CLDrive.d_transfers (CLDrive.driver m)
      ++ [CLDrive.p_transfersize payload] /\
    CLDrive.d_runtimes (CLDrive.driver m')
    = CLDrive.d_runtimes (CLDrive.driver m)
      ++ [(0 + total_ms P (CLDrive.events m) n 0
           + event_ms P (CLDrive.events m + n) + 0)%Q].
Proof.
  apply (call_sequence Demo.P_inc Demo.A1_inc
           (Demo.value Demo.no_payload
              (CLDrive.call Demo.P_inc Demo.A1_inc Demo.m1_inc))
           Demo.m1_inc
           (snd (CLDrive.call Demo.P_inc Demo.A1_inc Demo.m1_inc))).
  vm_compute. reflexivity.
Defined.

(** ** [validate] on a kernel without pointers *)

(** A scalar argument of a known type. *)
Definition plain_scalar (a : CLDrive.KernelArg) : Prop :=
  CLDrive.is_pointer a = false /\ CLDrive.is_local a = false /\
  CLDrive.numpy_type a <> None.

(** What the generators make of a scalar argument. *)
Definition scalar_arg (size : nat) (proto : CLDrive.KernelArg)
  : CLDrive.KernelArg :=
  match CLDrive.numpy_type proto with
  | Some t =>
      CLDrive.set_devdata
        (CLDrive.set_hostdata (CLDrive.KernelArg_of_string proto) None)
        (CLDrive.Scalar t (CLDrive.of_int t (Z.of_nat size)))
  | None => CLDrive.KernelArg_of_string proto
  end.

Lemma create_arg_scalar P nparray ctx size proto m :
  plain_scalar proto ->
  CLDrive.create_arg P nparray ctx size (CLDrive.KernelArg_of_string proto) m
  = (Ok (scalar_arg size proto, 0), m).
Proof.
  intros (Hp & Hl & Ht). unfold CLDrive.create_arg, scalar_arg. simpl.
  destruct (CLDrive.numpy_type proto) as [t|]; [|congruence].
  rewrite Hp. reflexivity.
Qed.

Lemma create_args_scalar P nparray ctx size protos m :
  Forall plain_scalar protos ->
  CLDrive.for_each (CLDrive.create_arg P nparray ctx size)
    (map CLDrive.KernelArg_of_string protos) m
  = (Ok (map (fun a => (scalar_arg size a, 0)) protos), m).
Proof.
  induction 1 as [|a protos Ha _ IH]; simpl; [reflexivity|].
  rewrite (bindM_run _ _ _ _ _ (create_arg_scalar P nparray ctx size a m Ha)).
  rewrite (bindM_run _ _ _ _ _ IH). reflexivity.
Qed.

(** On scalars only, a generator never calls the array generator: the
    payload is the same whatever the generator, and nothing changes. *)
Lemma create_payload_scalar P size m :
  Forall plain_scalar (CLDrive.d_prototype (CLDrive.driver m)) ->
  exists p,
    CLDrive.p_args p
    = map (scalar_arg size) (CLDrive.d_prototype (CLDrive.driver m)) /\
    forall nparray, CLDrive._create_payload P nparray size m = (Ok p, m).
Proof.
  intros H. eexists. split; [|intros nparray].
  2:{ unfold CLDrive._create_payload, CLDrive.bindM, CLDrive.read,
        CLDrive.except_all.
      rewrite (create_args_scalar P nparray _ size _ m H). reflexivity. }
  simpl. rewrite map_map. reflexivity.
Qed.

Lemma deepcopy_args_scalar P ctx size protos m :
  Forall plain_scalar protos ->
  exists copies,
    CLDrive.for_each (CLDrive.deepcopy_arg P ctx)
      (map (scalar_arg size) protos) m = (Ok copies, m).
Proof.
  induction 1 as [|a protos Ha _ (copies & IH)]; simpl; [eexists; reflexivity|].
  destruct Ha as (Hp & Hl & Ht).
  assert (Ha : exists c,
             CLDrive.deepcopy_arg P ctx (scalar_arg size a) m = (Ok c, m)).
  { unfold CLDrive.deepcopy_arg, scalar_arg.
    destruct (CLDrive.numpy_type a) as [t|]; [|congruence].
    simpl. rewrite Hl. eexists. reflexivity. }
  destruct Ha as (c & Hc).
  rewrite (bindM_run _ _ _ _ _ Hc), (bindM_run _ _ _ _ _ IH).
  eexists. reflexivity.
Qed.

(** A payload of the random generator is equal to itself: it holds no
    NaN. *)
Lemma payload_eq_same P size p m m' :
  CLDrive.create_random P size m = (Ok p, m') ->
  CLDrive.payload_eq p p = Ok true.
Proof.
  intros H. rewrite payload_eq_self.
  rewrite (create_payload_no_nan P _ size m p m'
             (np_random_rand_nan_free P) H).
  reflexivity.
Qed.

Lemma regenerate_same P size p m :
  CLDrive.create_random P size m = (Ok p, m) ->
  forall fuel, CLDrive.regenerate P fuel size p p m = (Raise Diverged, m).
Proof.
  intros Hrand. induction fuel as [|fuel IH]; simpl;
    rewrite bindM_lift, (payload_eq_same P size p m m Hrand).
  - reflexivity.
  - rewrite (bindM_run _ _ _ _ _ Hrand). exact IH.
Qed.

Lemma validate_scalars P size m :
  Forall plain_scalar (CLDrive.d_prototype (CLDrive.driver m)) ->
  forall fuel, fst (CLDrive.validate P fuel size m) = Raise Diverged.
Proof.
  intros H fuel.
  destruct (create_payload_scalar P size m H) as (p & Hargs & Hp).
  destruct (deepcopy_args_scalar P (CLDrive.p_ctx p) size _ m H)
    as (copies & Hcopies).
  unfold CLDrive.validate, CLDrive.create_sequential, CLDrive.create_random.
  rewrite (bindM_run _ _ _ _ _ (Hp CLDrive.np_arange)).
  unfold CLDrive.deepcopy at 1. rewrite Hargs.
  rewrite (bindM_run _ _ _ _ _ (bindM_run _ _ _ _ _ Hcopies)).
  unfold CLDrive.ret at 1.
  rewrite (bindM_run _ _ _ _ _ (Hp (CLDrive.np_random_rand P))).
  unfold CLDrive.bindM at 1.
  rewrite (regenerate_same P size p m (Hp (CLDrive.np_random_rand P)) fuel).
  reflexivity.
Qed.



(** ** [validate] on a kernel with a pointer to local memory *)

(** The argument is a pointer to local memory. *)
Definition local_pointer (a : CLDrive.KernelArg) : Prop :=
  CLDrive.is_pointer a && CLDrive.is_local a = true.

(** The local memory buffer of the argument, if any, was made when [n]
    objects or more existed. *)
Definition made_from (n : nat) (a : CLDrive.KernelArg) : Prop :=
  forall id size,
    CLDrive.devdata a = Some (CLDrive.LocalMemory id size) -> n <= id.

Lemma create_arg_made_from P nparray ctx size a m a' t m' :
  makes_no_object nparray ->
  CLDrive.create_arg P nparray ctx size a m = (Ok (a', t), m') ->
  made_from (CLDrive.next_object m) a'.
Proof.
  intros Hgen. unfold CLDrive.create_arg. simpl.
  destruct (CLDrive.numpy_type a) as [dtype|]; [|discriminate].
  destruct (CLDrive.is_pointer a); destruct (CLDrive.is_local a); simpl;
    intros H.
  - apply bindM_Ok in H as (nonbuf & m1 & Hn & H).
    apply bindM_Ok in H as (d & m2 & Hd & H).
    apply ret_Ok in H as [H <-]. injection H as <- <-.
    pose proof (Hgen (size * CLDrive.vector_width a) m) as H1.
    rewrite Hn in H1. simpl in H1.
    apply LocalMemory_new_Ok in Hd as ->.
    intros id sz E. simpl in E. injection E as <- _. lia.
  - apply bindM_Ok in H as (arr & m1 & Hn & H).
    apply bindM_Ok in H as (d & m2 & Hd & H).
    apply ret_Ok in H as [H <-]. injection H as <- <-.
    apply Buffer_new_Ok in Hd as ->.
    intros id sz E. simpl in E. discriminate.
  - apply ret_Ok in H as [H <-]. injection H as <- <-.
    intros id sz E. simpl in E. discriminate.
  - apply ret_Ok in H as [H <-]. injection H as <- <-.
    intros id sz E. simpl in E. discriminate.
Qed.

Lemma create_args_from P nparray ctx size :
  makes_no_object nparray ->
  forall protos m made m',
    CLDrive.for_each (CLDrive.create_arg P nparray ctx size)
      (map CLDrive.KernelArg_of_string protos) m = (Ok made, m') ->
    Forall2 same_descriptor protos (map fst made) /\
    Forall (made_from (CLDrive.next_object m)) (map fst made).
Proof.
  intros Hgen. induction protos as [|x protos IH]; simpl;
    intros m made m' H.
  - apply ret_Ok in H as [<- _]. split; constructor.
  - apply bindM_Ok in H as ([a t] & m1 & Hx & H).
    apply bindM_Ok in H as (ys & m2 & Hys & H).
    apply ret_Ok in H as [<- _].
    pose proof (create_arg_descriptor _ _ _ _ _ _ _ _ _ Hx) as Hd.
    pose proof (create_arg_made_from _ _ _ _ _ _ _ _ _ Hgen Hx) as Hf.
    apply (create_arg_objects P nparray ctx size _ m a t m1 Hgen) in Hx
      as [Hn _].
    apply IH in Hys as [Hds Hfs]. simpl. split; constructor; auto.
    eapply Forall_impl; [|exact Hfs].
    intros y Hy id sz E. specialize (Hy id sz E). lia.
Qed.

Lemma create_payload_from P nparray size m p m' :
  makes_no_object nparray ->
  CLDrive._create_payload P nparray size m = (Ok p, m') ->
  Forall2 same_descriptor (CLDrive.d_prototype (CLDrive.driver m))
    (CLDrive.p_args p) /\
  Forall (made_from (CLDrive.next_object m)) (CLDrive.p_args p).
Proof.
  intros Hgen H. unfold CLDrive._create_payload in H.
  apply bindM_Ok in H as (m0 & m1 & Hread & H).
  apply ret_Ok in Hread as [<- <-].
  apply bindM_Ok in H as (made & m2 & Hmade & H).
  apply ret_Ok in H as [<- _]. simpl.
  apply except_all_Ok in Hmade.
  apply (create_args_from P nparray _ size Hgen) in Hmade. exact Hmade.
Qed.

(** A generated argument for a pointer to local memory is a local memory
    buffer. *)
Lemma local_pointer_scratch proto a :
  same_descriptor proto a -> generated_arg a -> local_pointer proto ->
  is_scratch a = true /\
  exists id size, CLDrive.devdata a = Some (CLDrive.LocalMemory id size).
Proof.
  intros (_ & _ & _ & Hp & Hl & _) Hg Hloc.
  unfold local_pointer in Hloc. apply andb_true_iff in Hloc as [Hp' Hl'].
  unfold generated_arg, is_scratch in *.
  destruct (CLDrive.hostdata a).
  - destruct Hg as (_ & Hg & _). congruence.
  - destruct Hg as [(_ & _ & H)|(Hg & _)]; [|congruence].
    split; [congruence|exact H].
Qed.

Lemma exists_scratch protos args :
  Forall2 same_descriptor protos args -> Forall generated_arg args ->
  Exists local_pointer protos -> existsb is_scratch args = true.
Proof.
  induction 1 as [|proto a protos args Hd _ IH]; intros Hg Hex;
    inversion Hex; subst; inversion Hg; subst; simpl.
  - destruct (local_pointer_scratch proto a) as [-> _]; auto.
  - rewrite IH by assumption. apply orb_true_r.
Qed.

(** The arguments of two payloads made for the same prototype, the second
    before the first: with a pointer to local memory in the prototype,
    [__eq__] returns false. *)
Lemma args_eq_local_false n protos :
  forall xs ys,
    Forall2 same_descriptor protos xs -> Forall2 same_descriptor protos ys ->
    Forall generated_arg xs -> Forall generated_arg ys ->
    Forall (made_from n) xs -> Forall (made_before n) ys ->
    Exists local_pointer protos ->
    CLDrive.args_eq xs ys = Ok false.
Proof.
  induction protos as [|proto protos IH]; intros xs ys Hx Hy Hgx Hgy Hfx Hby Hex.
  - inversion Hex.
  - inversion Hx as [|? x ? xs' Hdx Hxs]; subst.
    inversion Hy as [|? y ? ys' Hdy Hys]; subst.
    inversion Hgx as [|? ? Hgx1 Hgxs]; subst.
    inversion Hgy as [|? ? Hgy1 Hgys]; subst.
    inversion Hfx as [|? ? Hfx1 Hfxs]; subst.
    inversion Hby as [|? ? Hby1 Hbys]; subst.
    assert (Htail : ~ local_pointer proto ->
                    CLDrive.args_eq xs' ys' = Ok false).
    { intros Hn. inversion Hex; subst; [contradiction|].
      apply (IH xs' ys'); assumption. }
    destruct Hdx as (_ & _ & _ & Hpx & Hlx & _).
    destruct Hdy as (_ & _ & _ & Hpy & Hly & _).
    unfold local_pointer in Htail.
    simpl. unfold generated_arg in Hgx1, Hgy1.
    destruct (CLDrive.hostdata x) as [hx|].
    + destruct Hgx1 as (Hp1 & Hl1 & _).
      destruct (CLDrive.hostdata y) as [hy|].
      * destruct (negb _); [reflexivity|].
        destruct (existsb _ _); [reflexivity|].
        apply Htail. rewrite <- Hlx, Hl1, andb_false_r. discriminate.
      * destruct Hgy1 as [(_ & H & _)|(H & _)]; congruence.
    + destruct Hgx1 as [(Hp1 & Hl1 & idx & sx & Ex)|(Hp1 & tx & vx & Ex)].
      * destruct (CLDrive.hostdata y) as [hy|].
        { destruct Hgy1 as (_ & H & _). congruence. }
        destruct Hgy1 as [(_ & _ & idy & sy & Ey)|(H & _)]; [|congruence].
        rewrite Ex, Ey. simpl.
        specialize (Hfx1 idx sx Ex). specialize (Hby1 idy sy Ey).
        destruct (Nat.eqb_spec idx idy); [lia|reflexivity].
      * destruct (CLDrive.devdata_ne _ _); [reflexivity|].
        apply Htail. rewrite <- Hpx, Hp1. discriminate.
Qed.

Lemma validate_local P fuel size m0 m1 m2 m3 m4 A1in A2in B0 B2in :
  Exists local_pointer (CLDrive.d_prototype (CLDrive.driver m0)) ->
  CLDrive.create_sequential P size m0 = (Ok A1in, m1) ->
  CLDrive.deepcopy P A1in m1 = (Ok A2in, m2) ->
  CLDrive.create_random P size m2 = (Ok B0, m3) ->
  CLDrive.deepcopy P B0 m3 = (Ok B2in, m4) ->
  CLDrive.validate P fuel size m0 = (Raise E_BAD_DRIVER, m4).
Proof.
  intros Hex HA1 HA2 HB0 HB2.
  assert (Hd1 : CLDrive.driver m1 = CLDrive.driver m0).
  { pose proof (unchanged_create_sequential P size m0) as H.
    rewrite HA1 in H. exact H. }
  assert (Hd2 : CLDrive.driver m2 = CLDrive.driver m0).
  { pose proof (unchanged_deepcopy P A1in m1) as H.
    rewrite HA2 in H. simpl in H. congruence. }
  pose proof (deepcopy_Ok _ _ _ _ _ HA2) as (_ & _ & _ & _ & _ & Hn12 & _).
  unfold CLDrive.create_sequential in HA1.
  unfold CLDrive.create_random in HB0.
  pose proof (create_payload_Ok _ _ _ _ _ _ HA1) as (_ & HgA & HcA & _).
  pose proof (create_payload_Ok _ _ _ _ _ _ HB0) as (_ & HgB & HcB & _).
  pose proof (create_payload_from _ _ _ _ _ _ np_arange_no_object HA1)
    as [HdA _].
  pose proof (create_payload_from _ _ _ _ _ _
                (np_random_rand_no_object P) HB0) as [HdB HfB].
  pose proof (create_payload_objects _ _ _ _ _ _ np_arange_no_object HA1)
    as HbA.
  rewrite Hd2 in HdB.
  assert (Hscratch : existsb is_scratch (CLDrive.p_args A1in) = true).
  { apply (exists_scratch _ _ HdA HgA Hex). }
  pose proof (create_payload_no_nan _ _ _ _ _ _ np_arange_nan_free HA1)
    as HnA.
  assert (HeqA : CLDrive.payload_eq A1in A2in = Ok false).
  { rewrite (clone_eq P A1in m1 A2in m2 HgA HnA HbA HA2), Hscratch.
    reflexivity. }
  assert (HeqB : CLDrive.payload_eq B0 A1in = Ok false).
  { unfold CLDrive.payload_eq.
    destruct (negb (CLDrive.p_ctx B0 =? CLDrive.p_ctx A1in)%nat);
      [reflexivity|].
    destruct (negb _); [reflexivity|].
    apply (args_eq_local_false (CLDrive.next_object m1) _ _ _ HdB HdA HgB HgA);
      [|exact HbA|exact Hex].
    eapply Forall_impl; [|exact HfB].
    intros a Ha id sz E. specialize (Ha id sz E). lia. }
  assert (Hregen : CLDrive.regenerate P fuel size A1in B0 m3 = (Ok B0, m3)).
  { destruct fuel; simpl; rewrite bindM_lift, HeqB; reflexivity. }
  unfold CLDrive.validate, CLDrive.create_sequential, CLDrive.create_random.
  rewrite (bindM_run _ _ _ _ _ HA1).
  rewrite (bindM_run _ _ _ _ _ HA2).
  rewrite (bindM_run _ _ _ _ _ HB0).
  rewrite (bindM_run _ _ _ _ _ Hregen).
  rewrite (bindM_run _ _ _ _ _ HB2).
  rewrite bindM_lift, HeqA, bindM_assert. reflexivity.
Qed.

(** [validate] rejects every kernel with a pointer to local memory: when
    the four input payloads can be made, the sequential payload and its
    deep copy hold two different local memory buffers, so that
    [A1in == A2in] is false and [E_BAD_DRIVER] is raised, whatever the
    kernel does: it is not run, the machine is left as it was when the fourth
    payload had been made. *)
Theorem validate_local_pointer_bad_driver (P : CLDrive.Platform)
  (fuel size : nat) (m0 m1 m2 m3 m4 : CLDrive.machine)
  (A1in A2in B0 B2in : CLDrive.KernelPayload) :
  Exists local_pointer (CLDrive.d_prototype (CLDrive.driver m0)) ->
  CLDrive.create_sequential P size m0 = (Ok A1in, m1) ->
  CLDrive.deepcopy P A1in m1 = (Ok A2in, m2) ->
  CLDrive.create_random P size m2 = (Ok B0, m3) ->
  CLDrive.deepcopy P B0 m3 = (Ok B2in, m4) ->
  CLDrive.validate P fuel size m0 = (Raise E_BAD_DRIVER, m4).
Proof. apply validate_local. Qed.

Lemma validate_local_pointer_bad_driver_witness :
  CLDrive.validate Demo.P_local 0 4 (Demo.boot Demo.P_local "A")
  = (Raise E_BAD_DRIVER, snd (Demo.v_B2in Demo.P_local)).
Proof.
  apply (validate_local_pointer_bad_driver Demo.P_local 0 4 (Demo.boot Demo.P_local "A")
           (snd (Demo.v_A1in Demo.P_local))
           (snd (Demo.v_A2in Demo.P_local))
           (snd (Demo.v_B0 Demo.P_local))
           (snd (Demo.v_B2in Demo.P_local))
           (Demo.value Demo.no_payload (Demo.v_A1in Demo.P_local))
           (Demo.value Demo.no_payload (Demo.v_A2in Demo.P_local))
           (Demo.value Demo.no_payload (Demo.v_B0 Demo.P_local))
           (Demo.value Demo.no_payload (Demo.v_B2in Demo.P_local))).
  - right. left. reflexivity.
  - vm_compute. reflexivity.
  - vm_compute. reflexivity.
  - vm_compute. reflexivity.
  - vm_compute. reflexivity.
Defined.

(** ** When the generators return *)

(** A payload of the given size can be made for the argument: its type is
    known and, for a pointer that is not local, the platform makes a buffer
    for the bytes of its array. *)
Definition creatable (P : CLDrive.Platform) (size : nat)
  (proto : CLDrive.KernelArg) : Prop :=
  exists t,
    CLDrive.numpy_type proto = Some t /\
    (CLDrive.is_pointer proto && negb (CLDrive.is_local proto) = true ->
     CLDrive.buffer_ok P
       (size * CLDrive.vector_width proto * CLDrive.itemsize t) = true).

(** An array generator that always returns, with an array of the length
    asked for. *)
Definition total_generator (nparray : nat -> CLDrive.M CLDrive.ndarray)
  : Prop :=
  forall n m, exists a m',
    nparray n m = (Ok a, m') /\ List.length (CLDrive.elems a) = n.

Lemma arange_total : total_generator CLDrive.np_arange.
Proof.
  intros n m. do 2 eexists. split; [reflexivity|]. simpl.
  rewrite length_map, length_seq. reflexivity.
Qed.

Lemma random_total P :
  (forall k n, List.length (CLDrive.random_rand P k n) = n) ->
  total_generator (CLDrive.np_random_rand P).
Proof.
  intros Hlen n m. do 2 eexists. split; [reflexivity|].
  cbn [CLDrive.elems]. rewrite length_map. apply Hlen.
Qed.

Lemma create_arg_returns P nparray ctx size proto m :
  total_generator nparray ->
  (exists r m',
     CLDrive.create_arg P nparray ctx size
       (CLDrive.KernelArg_of_string proto) m = (Ok r, m'))
  <-> creatable P size proto.
Proof.
  intros Hgen. unfold CLDrive.create_arg, creatable. simpl.
  destruct (CLDrive.numpy_type proto) as [dtype|].
  2:{ split; [intros (r & m' & H); discriminate|].
      intros (t & H & _). discriminate. }
  destruct (Hgen (size * CLDrive.vector_width proto) m)
    as (a & m1 & Ha & Hlen).
  destruct (CLDrive.is_pointer proto); destruct (CLDrive.is_local proto);
    simpl.
  - split.
    + intros _. exists dtype. split; [reflexivity|discriminate].
    + intros _. rewrite (bindM_run _ _ _ _ _ Ha). do 2 eexists. reflexivity.
  - rewrite (bindM_run _ _ _ _ _ Ha). unfold CLDrive.Buffer_new.
    unfold CLDrive.nbytes at 1. simpl. rewrite length_map, Hlen.
    destruct (CLDrive.buffer_ok P _) eqn:Hok.
    + split.
      * intros _. exists dtype. split; [reflexivity|]. intros _.
        first [reflexivity|exact Hok].
      * intros _. do 2 eexists. reflexivity.
    + split.
      * intros (r & m' & H). discriminate.
      * intros (t & Ht & H). injection Ht as <-.
        specialize (H eq_refl). congruence.
  - split.
    + intros _. exists dtype. split; [reflexivity|discriminate].
    + intros _. do 2 eexists. reflexivity.
  - split.
    + intros _. exists dtype. split; [reflexivity|discriminate].
    + intros _. do 2 eexists. reflexivity.
Qed.

Lemma create_args_returns P nparray ctx size :
  total_generator nparray ->
  forall protos m,
    (exists made m',
       CLDrive.for_each (CLDrive.create_arg P nparray ctx size)
         (map CLDrive.KernelArg_of_string protos) m = (Ok made, m'))
    <-> Forall (creatable P size) protos.
Proof.
  intros Hgen. induction protos as [|x protos IH]; intros m; simpl.
  - split; [constructor|]. intros _. do 2 eexists. reflexivity.
  - split.
    + intros (made & m' & H).
      apply bindM_Ok in H as (r & m1 & Hx & H).
      apply bindM_Ok in H as (ys & m2 & Hys & H).
      constructor.
      * apply (create_arg_returns P nparray ctx size x m Hgen). eauto.
      * apply (IH m1). eauto.
    + intros H. inversion H as [|? ? Hx Hs]; subst.
      apply (create_arg_returns P nparray ctx size x m Hgen) in Hx
        as (r & m1 & Hx).
      apply (IH m1) in Hs as (ys & m2 & Hys).
      rewrite (bindM_run _ _ _ _ _ Hx), (bindM_run _ _ _ _ _ Hys).
      do 2 eexists. reflexivity.
Qed.

Lemma create_payload_returns P nparray size m :
  total_generator nparray ->
  match fst (CLDrive._create_payload P nparray size m) with
  | Ok _ =>
      Forall (creatable P size) (CLDrive.d_prototype (CLDrive.driver m))
  | Raise e =>
      e = E_BAD_ARGS /\
      ~ Forall (creatable P size) (CLDrive.d_prototype (CLDrive.driver m))
  end.
Proof.
  intros Hgen.
  pose proof (create_args_returns P nparray (CLDrive.d_ctx (CLDrive.driver m))
                size Hgen (CLDrive.d_prototype (CLDrive.driver m)) m) as H.
  unfold CLDrive._create_payload, CLDrive.bindM, CLDrive.read,
    CLDrive.except_all.
  destruct (CLDrive.for_each _ _ m) as [[made|e] m1]; simpl.
  - apply H. eauto.
  - split; [reflexivity|]. intros Hall. apply H in Hall as (made & m' & E).
    discriminate.
Qed.



(* ================================================================= *)
(** * The greedy atomizer finds the longest match *)

(** ** The longest match, stated on its own *)

(** [a] replaces [best] when [rest] starts with [a] and [a] is longer. *)
Definition longer_prefix (rest best a : string) : string :=
  if prefix a rest && (String.length best <? String.length a)%nat
  then a else best.

(** The longest of the atoms of two or more characters that [rest] starts
    with, and the first character of [rest] when there is none. *)
Definition longest_match (atoms : list string) (rest : string) : string :=
  fold_left (longer_prefix rest) atoms (substring 0 1 rest).

(** [text[i:]] *)
Definition suffix (text : string) (i : nat) : string :=
  substring i (String.length text - i) text.

(** The tokens of [text[i:]]: the longest match, then the tokens of what
    follows it. *)
Fixpoint munch (fuel : nat) (atoms : list string) (text : string) (i : nat)
  : list string :=
  match fuel with
  | 0 => []
  | S fuel' =>
      if (i <? String.length text)%nat then
        let tok := longest_match atoms (suffix text i) in
        tok :: munch fuel' atoms text (i + String.length tok)
      else []
  end.

Definition maximal_munch (atoms : list string) (text : string) : list string :=
  munch (String.length text) atoms text 0.

(** ** Substrings *)

Lemma length_substring (s : string) :
  forall i n,
    String.length (substring i n s) = Nat.min n (String.length s - i).
Proof.
  induction s as [|c s IH]; intros i n.
  - rewrite substring_nil. simpl. lia.
  - destruct i as [|i]; simpl.
    + destruct n as [|n]; simpl; [reflexivity|].
      rewrite IH, Nat.sub_0_r. reflexivity.
    + apply IH.
Qed.

Lemma substring_substring (s : string) :
  forall i k n, k <= n -> substring 0 k (substring i n s) = substring i k s.
Proof.
  induction s as [|c s IH]; intros i k n Hk.
  - rewrite !substring_nil. reflexivity.
  - destruct i as [|i]; simpl.
    + destruct n as [|n].
      * assert (k = 0) as -> by lia. reflexivity.
      * destruct k as [|k]; [reflexivity|]. simpl.
        rewrite IH by lia. reflexivity.
    + apply IH, Hk.
Qed.

Lemma substring_clamp (s : string) :
  forall i n,
    String.length s <= i + n ->
    substring i n s = substring i (String.length s - i) s.
Proof.
  induction s as [|c s IH]; intros i n H.
  - rewrite !substring_nil. reflexivity.
  - destruct i as [|i]; simpl in *.
    + destruct n as [|n]; [lia|]. rewrite (IH 0 n) by lia.
      rewrite Nat.sub_0_r. reflexivity.
    + apply IH. lia.
Qed.

Lemma prefix_same_length (a b rest : string) :
  prefix a rest = true -> prefix b rest = true ->
  String.length a = String.length b -> a = b.
Proof.
  intros Ha Hb Hlen. apply prefix_correct in Ha, Hb.
  rewrite <- Ha, <- Hb, Hlen. reflexivity.
Qed.

(** [text[i:]] starts with [a] when [a] stands in the text at [i]. *)
Lemma prefix_suffix (text a : string) (i : nat) :
  i <= String.length text ->
  (prefix a (suffix text i) = true <->
   i + String.length a <= String.length text /\
   substring i (String.length a) text = a).
Proof.
  intros Hi. rewrite prefix_correct. unfold suffix. split.
  - intros H.
    assert (Hlen : String.length a <= String.length text - i).
    { pose proof (f_equal String.length H) as E.
      rewrite !length_substring in E. lia. }
    rewrite substring_substring in H by exact Hlen. split; [lia|exact H].
  - intros [Hlen H]. rewrite substring_substring by lia. exact H.
Qed.

Lemma item_suffix (text : string) (i : nat) :
  i < String.length text -> substring 0 1 (suffix text i) = item text i.
Proof.
  intros Hi. unfold suffix, item. apply substring_substring. lia.
Qed.

Lemma length_item (text : string) (i : nat) :
  i < String.length text -> String.length (item text i) = 1.
Proof. intros Hi. unfold item. rewrite length_substring. lia. Qed.

(** ** What the longest match is *)

Lemma fold_longer_prefix (rest : string) (atoms : list string) :
  forall best,
    prefix best rest = true ->
    let r := fold_left (longer_prefix rest) atoms best in
    prefix r rest = true /\
    String.length best <= String.length r /\
    (r = best \/ In r atoms) /\
    (forall a, In a atoms -> prefix a rest = true ->
               String.length a <= String.length r).
Proof.
  induction atoms as [|a atoms IH]; intros best Hbest; simpl.
  - repeat split; auto. intros a [].
  - assert (Hnext : prefix (longer_prefix rest best a) rest = true).
    { unfold longer_prefix. destruct (prefix a rest) eqn:Ha; simpl;
        [destruct (_ <? _)%nat|]; assumption. }
    destruct (IH _ Hnext) as (Hp & Hlen & Hin & Hmax).
    assert (Hstep : String.length best
                    <= String.length (longer_prefix rest best a) /\
                    (prefix a rest = true ->
                     String.length a
                     <= String.length (longer_prefix rest best a))).
    { unfold longer_prefix. destruct (prefix a rest); simpl.
      - destruct (String.length best <? String.length a)%nat eqn:E.
        + apply Nat.ltb_lt in E. lia.
        + apply Nat.ltb_ge in E. lia.
      - split; [lia|discriminate]. }
    destruct Hstep as [Hb Ha].
    split; [exact Hp|]. split; [lia|]. split.
    + destruct Hin as [E|Hin]; [|right; right; exact Hin].
      rewrite E. unfold longer_prefix.
      destruct (_ && _); [right; left; reflexivity|left; reflexivity].
    + intros x [<-|Hx] Hpx; [specialize (Ha Hpx); lia|].
      apply Hmax; assumption.
Qed.

(** The atom [a] of two or more characters stands in the text at [i]. *)
Definition is_match (atoms : list string) (text : string) (i : nat)
  (a : string) : Prop :=
  In a atoms /\ 2 <= String.length a /\
  i + String.length a <= String.length text /\
  substring i (String.length a) text = a.

Lemma longest_match_facts (atoms : list string) (text : string) (i : nat) :
  i < String.length text ->
  let T := longest_match atoms (suffix text i) in
  prefix T (suffix text i) = true /\
  1 <= String.length T /\
  (T = item text i \/ is_match atoms text i T) /\
  (forall a, is_match atoms text i a -> String.length a <= String.length T).
Proof.
  intros Hi T.
  assert (H0 : prefix (substring 0 1 (suffix text i)) (suffix text i) = true).
  { apply prefix_correct. rewrite item_suffix by exact Hi.
    rewrite length_item by exact Hi. apply item_suffix, Hi. }
  destruct (fold_longer_prefix (suffix text i) atoms _ H0)
    as (Hp & Hlen & Hin & Hmax).
  fold (longest_match atoms (suffix text i)) in Hp, Hlen, Hin, Hmax.
  fold T in Hp, Hlen, Hin, Hmax.
  rewrite item_suffix in Hlen, Hin by exact Hi.
  rewrite length_item in Hlen by exact Hi.
  split; [exact Hp|]. split; [exact Hlen|]. split.
  - destruct Hin as [E|Hin]; [left; exact E|].
    destruct (Nat.le_gt_cases 2 (String.length T)) as [H2|H1].
    + right. apply prefix_suffix in Hp as [Hle Hsub]; [|lia].
      repeat split; assumption.
    + left. apply (prefix_same_length _ _ (suffix text i)); [exact Hp| |].
      * rewrite <- (item_suffix text i Hi). exact H0.
      * rewrite length_item by exact Hi. lia.
  - intros a (Ha & _ & Hle & Hsub). apply Hmax; [exact Ha|].
    apply prefix_suffix; [lia|]. auto.
Qed.

(** The longest match is the match that no match exceeds. *)
Lemma longest_match_is (atoms : list string) (text : string) (i : nat) a :
  i < String.length text ->
  is_match atoms text i a ->
  (forall b, is_match atoms text i b -> String.length b <= String.length a) ->
  longest_match atoms (suffix text i) = a.
Proof.
  intros Hi Ha Hmax.
  destruct (longest_match_facts atoms text i Hi) as (Hp & _ & Hin & HT).
  pose proof (HT a Ha) as Hle.
  pose proof Ha as (_ & H2 & Hlen & Hsub).
  apply (prefix_same_length _ _ (suffix text i)); [exact Hp| |].
  - apply prefix_suffix; [lia|]. auto.
  - destruct Hin as [E|Hm].
    + rewrite E, length_item in Hle by exact Hi. lia.
    + specialize (Hmax _ Hm). lia.
Qed.

(** Without a match it is the character at [i]. *)
Lemma longest_match_none (atoms : list string) (text : string) (i : nat) :
  i < String.length text ->
  (forall b, ~ is_match atoms text i b) ->
  longest_match atoms (suffix text i) = item text i.
Proof.
  intros Hi Hnone.
  destruct (longest_match_facts atoms text i Hi) as (_ & _ & [E|Hm] & _).
  - exact E.
  - destruct (Hnone _ Hm).
Qed.

Lemma munch_beyond fuel atoms text i :
  String.length text <= i -> munch fuel atoms text i = [].
Proof.
  intros Hi. destruct fuel; simpl; [reflexivity|].
  destruct (Nat.ltb_spec i (String.length text)); [lia|reflexivity].
Qed.

(** ** The scan, pass by pass *)

Section GreedyMunch.

Variable vocab : PyDict.dict string nat.
Variable text : string.

Let self : GreedyAtomizer.t := GreedyAtomizer.init vocab.
Let atoms : list string := PyDict.keys vocab.

(** The loop with the fuel that the state needs. *)
Definition run (s : GreedyAtomizer.scan) : result (list nat) :=
  GreedyAtomizer.loop (scan_measure text s) self text s.

Lemma run_unfold s :
  run s =
  if (GreedyAtomizer.si s <? String.length text)%nat then
    match GreedyAtomizer.step self text s with
    | Ok s' => run s'
    | Raise e => Raise e
    end
  else Ok (GreedyAtomizer.out s).
Proof.
  unfold run.
  destruct (GreedyAtomizer.si s <? String.length text)%nat eqn:Hlt.
  - apply Nat.ltb_lt in Hlt.
    destruct (scan_measure text s) as [|k] eqn:Em.
    { exfalso. unfold scan_measure in Em. nia. }
    simpl. apply Nat.ltb_lt in Hlt. rewrite Hlt. apply Nat.ltb_lt in Hlt.
    destruct (GreedyAtomizer.step self text s) as [s'|e] eqn:Hs;
      [|reflexivity].
    pose proof (step_measure self text s s' Hlt Hs) as Hdec.
    destruct (loop_enough_fuel self text (scan_measure text s') s' (le_n _))
      as [_ Hext].
    rewrite <- (Hext (k - scan_measure text s')). f_equal. lia.
  - destruct (scan_measure text s); simpl; rewrite Hlt; reflexivity.
Qed.

Lemma atomize_run :
  GreedyAtomizer.atomize self text
  = run {| GreedyAtomizer.si := 0; GreedyAtomizer.sj := 2;
           GreedyAtomizer.out := [] |}.
Proof.
  unfold GreedyAtomizer.atomize, run.
  set (s0 := {| GreedyAtomizer.si := 0; GreedyAtomizer.sj := 2;
                GreedyAtomizer.out := [] |}).
  destruct (loop_enough_fuel self text (scan_measure text s0) s0 (le_n _))
    as [_ Hext].
  rewrite <- (Hext (GreedyAtomizer.fuel_for text - scan_measure text s0)).
  f_equal. pose proof (init_measure text). fold s0 in H. lia.
Qed.

Lemma existsb_eqb_In (s : string) (l : list string) :
  existsb (fun x => x =? s) l = true <-> In s l.
Proof.
  rewrite existsb_exists. split.
  - intros (x & Hin & E). apply String.eqb_eq in E. subst. exact Hin.
  - intros H. exists s. split; [exact H|apply String.eqb_refl].
Qed.

(** The inner loop finds the largest [j'] down from [j] at which a candidate
    stands, or none down to [i + 2]. *)
Lemma shrink_search cands i acc :
  forall j,
    i + 1 <= j ->
    (exists j',
       i + 2 <= j' <= j /\ In (slice text i j') cands /\
       (forall j'', j' < j'' <= j -> ~ In (slice text i j'') cands) /\
       GreedyAtomizer.shrink self text cands i j acc
       = GreedyAtomizer.emit self (slice text i j') j' j' acc)
    \/ ((forall j'', i + 2 <= j'' <= j -> ~ In (slice text i j'') cands) /\
        GreedyAtomizer.shrink self text cands i j acc
        = GreedyAtomizer.emit self (item text i) (i + 1) (i + 1) acc).
Proof.
  induction j as [|j IH]; intros Hj; [lia|]. simpl.
  destruct (Nat.ltb_spec (i + 1) (S j)) as [Hlt|Hge].
  - destruct (existsb (fun x => x =? slice text i (S j)) cands) eqn:Hex.
    + left. exists (S j). apply existsb_eqb_In in Hex.
      split; [lia|]. split; [exact Hex|]. split; [intros; lia|reflexivity].
    + assert (Hno : ~ In (slice text i (S j)) cands).
      { intros Hin. apply existsb_eqb_In in Hin. congruence. }
      destruct (IH ltac:(lia)) as [(j' & Hr & Hin & Hmax & E)|[Hnone E]].
      * left. exists j'. split; [lia|]. split; [exact Hin|].
        split; [|exact E]. intros j'' Hj''.
        destruct (Nat.eq_dec j'' (S j)) as [->|Hne]; [exact Hno|].
        apply Hmax. lia.
      * right. split; [|exact E]. intros j'' Hj''.
        destruct (Nat.eq_dec j'' (S j)) as [->|Hne]; [exact Hno|].
        apply Hnone. lia.
  - right. assert (S j = i + 1) as -> by lia.
    split; [intros; lia|reflexivity].
Qed.

(** A match at [i] is a candidate for the character at [i]. *)
Lemma match_cand i a :
  is_match atoms text i a ->
  In a (cands_of self (item text i)) /\
  slice text i (i + String.length a) = a.
Proof.
  intros (Hin & H2 & Hlen & Hsub). split.
  - apply init_cands. split; [exact Hin|]. split; [lia|].
    unfold item. rewrite <- Hsub at 1. apply substring_substring. lia.
  - unfold slice. replace (i + String.length a - i) with (String.length a)
      by lia. exact Hsub.
Qed.

(** While [j] has not passed the end of a match, the test of the code holds
    and [j] moves on. *)
Lemma match_extends i j a :
  is_match atoms text i a -> i <= j -> j <= i + String.length a ->
  is_prefix_of_atom vocab text i j.
Proof.
  intros (Hin & H2 & Hlen & Hsub) Hij Hj. split; [lia|].
  exists a. split; [exact Hin|]. split; [lia|]. split.
  - unfold item. rewrite <- Hsub at 1. apply substring_substring. lia.
  - apply prefix_correct. unfold slice.
    rewrite length_substring.
    replace (Nat.min (j - i) (String.length text - i)) with (j - i) by lia.
    rewrite <- Hsub at 1. apply substring_substring. lia.
Qed.

(** A candidate that stands at [text[i:j']] is a match, clamped to the end
    of the text. *)
Lemma cand_match i j' :
  i < String.length text -> i + 2 <= j' ->
  In (slice text i j') (cands_of self (item text i)) ->
  is_match atoms text i (slice text i j') /\
  String.length (slice text i j')
  = Nat.min (j' - i) (String.length text - i).
Proof.
  intros Hi Hj Hin. apply init_cands in Hin as (Hk & Hl & _).
  assert (Hlen : String.length (slice text i j')
                 = Nat.min (j' - i) (String.length text - i)).
  { unfold slice. apply length_substring. }
  split; [|exact Hlen]. split; [exact Hk|]. split; [lia|]. split; [lia|].
  rewrite Hlen. unfold slice.
  destruct (Nat.le_gt_cases (j' - i) (String.length text - i)) as [H|H].
  - rewrite Nat.min_l by exact H. reflexivity.
  - rewrite Nat.min_r by lia. symmetry. apply substring_clamp. lia.
Qed.

(** What is returned for the indices [acc] followed by those of the tokens
    that remain. *)
Definition finish (acc : list nat) (r : result (list nat))
  : result (list nat) :=
  match r with
  | Ok l => Ok (acc ++ l)
  | Raise _ => Raise VocabError
  end.

Let lookup_all (toks : list string) : result (list nat) :=
  mapM (PyDict.getitem String.eqb vocab) toks.

Lemma finish_cons acc tok toks v :
  PyDict.get String.eqb vocab tok = Some v ->
  finish acc (lookup_all (tok :: toks)) = finish (acc ++ [v]) (lookup_all toks).
Proof.
  intros H. unfold lookup_all. simpl. unfold PyDict.getitem at 1. rewrite H.
  destruct (mapM _ toks); simpl; [|reflexivity].
  rewrite <- app_assoc. reflexivity.
Qed.

Lemma finish_missing acc tok toks :
  PyDict.get String.eqb vocab tok = None ->
  finish acc (lookup_all (tok :: toks)) = Raise VocabError.
Proof.
  intros H. unfold lookup_all. simpl. unfold PyDict.getitem at 1. rewrite H.
  reflexivity.
Qed.

(** An emission of the longest match [tok] at [i], the anchor moving to
    [i'], which is the end of the match or lies beyond the text. *)
Lemma emit_munch n i i' j' acc tok :
  (forall i0 j0 acc0,
     String.length text - i0 <= n -> i0 + 2 <= j0 ->
     run {| GreedyAtomizer.si := i0; GreedyAtomizer.sj := j0;
            GreedyAtomizer.out := acc0 |}
     = finish acc0 (lookup_all (munch n atoms text i0))) ->
  i < String.length text -> String.length text - i <= S n ->
  longest_match atoms (suffix text i) = tok ->
  i < i' -> i' <= j' ->
  i' = i + String.length tok \/
  (String.length text <= i + String.length tok /\ String.length text <= i') ->
  match GreedyAtomizer.emit self tok i' j' acc with
  | Ok s' => run s'
  | Raise e => Raise e
  end
  = finish acc (lookup_all (munch (S n) atoms text i)).
Proof.
  intros IH Hi Hn Htok Hlt Hj Hi'. simpl munch.
  destruct (Nat.ltb_spec i (String.length text)) as [_|]; [|lia].
  cbv zeta. rewrite Htok. unfold GreedyAtomizer.emit.
  change (GreedyAtomizer.vocab self) with vocab.
  destruct (PyDict.get String.eqb vocab tok) as [v|] eqn:Hget.
  - rewrite (finish_cons _ _ _ v Hget). rewrite IH by lia.
    destruct Hi' as [->|[H1 H2]]; [reflexivity|].
    rewrite !munch_beyond by lia. reflexivity.
  - rewrite (finish_missing _ _ _ Hget). reflexivity.
Qed.

Lemma run_munch n :
  forall i j acc,
    String.length text - i <= n -> i + 2 <= j ->
    run {| GreedyAtomizer.si := i; GreedyAtomizer.sj := j;
           GreedyAtomizer.out := acc |}
    = finish acc (lookup_all (munch n atoms text i)).
Proof.
  induction n as [|n IH]; intros i j acc Hn Hj.
  - rewrite run_unfold. simpl.
    destruct (Nat.ltb_spec i (String.length text)); [lia|].
    rewrite app_nil_r. reflexivity.
  - destruct (Nat.le_gt_cases (String.length text) i) as [Hend|Hi].
    { rewrite run_unfold. simpl GreedyAtomizer.si.
      destruct (Nat.ltb_spec i (String.length text)); [lia|].
      rewrite munch_beyond by lia. simpl. rewrite app_nil_r. reflexivity. }
    remember (String.length text + 1 - j) as k eqn:Ek.
    revert j Hj Ek. induction k as [k IHk] using lt_wf_ind. intros j Hj Ek.
    rewrite run_unfold. simpl GreedyAtomizer.si.
    destruct (Nat.ltb_spec i (String.length text)); [|lia].
    rewrite step_cands. cbv zeta. simpl GreedyAtomizer.si.
    simpl GreedyAtomizer.sj. simpl GreedyAtomizer.out.
    destruct (cands_of self (item text i)) as [|c cs] eqn:Ec.
    + apply (emit_munch n i (i + 1) j acc (item text i) IH Hi Hn);
        [|lia|lia|left; rewrite length_item; lia].
      apply longest_match_none; [exact Hi|]. intros b Hb.
      apply match_cand in Hb as [Hin _]. rewrite Ec in Hin. exact Hin.
    + destruct ((j <=? String.length text)%nat && _) eqn:Htest.
      * apply andb_true_iff in Htest as [Hle _]. apply Nat.leb_le in Hle.
        apply (IHk (String.length text + 1 - (j + 1))); lia.
      * assert (Hfail : ~ is_prefix_of_atom vocab text i j).
        { intros Hp. apply extension_test in Hp. fold self in Hp.
          rewrite Ec in Hp. congruence. }
        assert (Hshort : forall b, is_match atoms text i b ->
                                   i + String.length b < j).
        { intros b Hb.
          destruct (Nat.lt_ge_cases (i + String.length b) j); [assumption|].
          exfalso. apply Hfail. apply (match_extends i j b Hb); lia. }
        rewrite <- Ec.
        destruct (shrink_search (cands_of self (item text i)) i acc j
                    ltac:(lia))
          as [(j' & Hr & Hin & Hmax & E)|[Hnone E]]; rewrite E.
        -- destruct (cand_match i j' Hi ltac:(lia) Hin) as [Hm Hlen].
           apply (emit_munch n i j' j' acc _ IH Hi Hn); [|lia|lia|].
           ++ apply longest_match_is; [exact Hi|exact Hm|]. intros b Hb.
              destruct (Nat.le_gt_cases (String.length b)
                          (String.length (slice text i j')))
                as [|Hgt]; [assumption|]. exfalso.
              pose proof (Hshort b Hb) as Hbj.
              pose proof Hb as (_ & _ & Hble & _).
              apply (Hmax (i + String.length b)).
              { rewrite Hlen in Hgt. lia. }
              { destruct (match_cand i b Hb) as [Hc Hs]. rewrite Hs.
                exact Hc. }
           ++ rewrite Hlen.
              destruct (Nat.le_gt_cases j' (String.length text));
                [left|right]; lia.
        -- apply (emit_munch n i (i + 1) (i + 1) acc (item text i) IH Hi Hn);
             [|lia|lia|left; rewrite length_item; lia].
           apply longest_match_none; [exact Hi|]. intros b Hb.
           pose proof (Hshort b Hb). pose proof Hb as (_ & H2 & _).
           apply (Hnone (i + String.length b)); [lia|].
           destruct (match_cand i b Hb) as [Hc Hs]. rewrite Hs. exact Hc.
Qed.

Lemma atomize_munch :
  GreedyAtomizer.atomize self text
  = match lookup_all (maximal_munch atoms text) with
    | Ok idx => Ok idx
    | Raise _ => Raise VocabError
    end.
Proof.
  rewrite atomize_run. unfold maximal_munch.
  rewrite (run_munch (String.length text)) by lia.
  unfold finish. destruct (lookup_all _); reflexivity.
Qed.

End GreedyMunch.

(** ** Fewer atoms, same tokens *)

(** The tokens of a text stay the same when the atoms are cut down to a set
    that still holds these tokens. *)
Lemma munch_restrict (atoms atoms' : list string) (text : string) :
  (forall a, In a atoms' -> 2 <= String.length a -> In a atoms) ->
  forall fuel i,
    (forall t, In t (munch fuel atoms text i) -> In t atoms') ->
    munch fuel atoms' text i = munch fuel atoms text i.
Proof.
  intros Hsub. induction fuel as [|fuel IH]; intros i Hin; [reflexivity|].
  simpl in *. destruct (Nat.ltb_spec i (String.length text)) as [Hi|Hi];
    [|reflexivity].
  cbv zeta in *.
  set (T := longest_match atoms (suffix text i)) in *.
  assert (HT : longest_match atoms' (suffix text i) = T).
  { destruct (longest_match_facts atoms text i Hi) as (_ & _ & Hcase & Hmax).
    fold T in Hcase, Hmax.
    assert (Hle : forall b, is_match atoms' text i b ->
                            String.length b <= String.length T).
    { intros b (Hb & H2 & Hlen & Hs). apply Hmax.
      repeat split; auto. }
    destruct Hcase as [E|Hm].
    - rewrite E. apply longest_match_none; [exact Hi|].
      intros b Hb. pose proof (Hle b Hb) as H1. destruct Hb as (_ & H2 & _).
      rewrite E, length_item in H1 by exact Hi. lia.
    - apply longest_match_is; [exact Hi| |exact Hle].
      destruct Hm as (_ & H2 & Hlen & Hs).
      split; [apply Hin; left; reflexivity|]. repeat split; auto. }
  rewrite HT. f_equal. apply IH. intros t Ht. apply Hin. right. exact Ht.
Qed.

Lemma mapM_Forall2 {A B : Type} (f : A -> result B) (l : list A) ys :
  mapM f l = Ok ys -> Forall2 (fun x y => f x = Ok y) l ys.
Proof.
  revert ys; induction l as [|x l IH]; simpl; intros ys H.
  - injection H as <-. constructor.
  - destruct (f x) as [y|e] eqn:E; [|discriminate].
    destruct (mapM f l) as [ys'|e]; [|discriminate].
    injection H as <-. constructor; auto.
Qed.

Lemma getitem_Ok {V : Type} (d : PyDict.dict string V) k v :
  PyDict.getitem String.eqb d k = Ok v <-> PyDict.get String.eqb d k = Some v.
Proof.
  unfold PyDict.getitem. destruct (PyDict.get String.eqb d k);
    split; intros H; try discriminate; injection H as <-; reflexivity.
Qed.

Lemma lookup_Forall2 (vocab : PyDict.dict string nat) toks idx :
  mapM (PyDict.getitem String.eqb vocab) toks = Ok idx ->
  Forall2 (fun t i => PyDict.get String.eqb vocab t = Some i) toks idx.
Proof.
  intros H. apply mapM_Forall2 in H.
  eapply Forall2_impl; [|exact H]. intros t i. apply getitem_Ok.
Qed.

Lemma lookup_keys (vocab : PyDict.dict string nat) toks :
  (forall t, In t toks -> In t (PyDict.keys vocab)) ->
  exists idx, mapM (PyDict.getitem String.eqb vocab) toks = Ok idx.
Proof.
  induction toks as [|t toks IH]; intros H; simpl; [eauto|].
  destruct (PyDict.get String.eqb vocab t) as [v|] eqn:E.
  - apply getitem_Ok in E. rewrite E.
    destruct IH as (idx & ->); [intros; apply H; right; assumption|]. eauto.
  - apply (get_None String.eqb String.eqb_spec) in E.
    destruct E. apply H. left. reflexivity.
Qed.

(** The tokens of [tokenize] over a vocabulary with pairwise distinct
    indices are those of the longest match. *)
Lemma tokenize_munch (vocab : PyDict.dict string nat) text toks :
  PyDict.wf vocab -> NoDup (PyDict.values vocab) ->
  GreedyAtomizer.tokenize (GreedyAtomizer.init vocab) text = Ok toks ->
  toks = maximal_munch (PyDict.keys vocab) text /\
  Forall (fun t => In t (PyDict.keys vocab)) toks.
Proof.
  intros Hwf Hinj. unfold GreedyAtomizer.tokenize, Atomizer.tokenize.
  rewrite atomize_munch.
  destruct (mapM (PyDict.getitem String.eqb vocab) _) as [idx|e] eqn:E;
    [|discriminate].
  apply lookup_Forall2 in E. cbn [bind].
  change (Atomizer.decoder (GreedyAtomizer.base (GreedyAtomizer.init vocab)))
    with (Atomizer.decoder (Atomizer.init vocab)).
  rewrite (decode_all vocab _ idx Hwf Hinj E).
  intros H; injection H as <-. split; [reflexivity|].
  clear - E. induction E as [|t i ts idx Ht _ IH]; constructor; [|exact IH].
  apply (get_In String.eqb String.eqb_spec) in Ht.
  change t with (fst (t, i)). apply in_map, Ht.
Qed.

Lemma tokenize_of_munch (vocab : PyDict.dict string nat) text :
  PyDict.wf vocab -> NoDup (PyDict.values vocab) ->
  (forall t, In t (maximal_munch (PyDict.keys vocab) text) ->
             In t (PyDict.keys vocab)) ->
  GreedyAtomizer.tokenize (GreedyAtomizer.init vocab) text
  = Ok (maximal_munch (PyDict.keys vocab) text).
Proof.
  intros Hwf Hinj Hkeys. unfold GreedyAtomizer.tokenize, Atomizer.tokenize.
  rewrite atomize_munch.
  destruct (lookup_keys vocab _ Hkeys) as (idx & E). rewrite E. cbn [bind].
  apply lookup_Forall2 in E.
  change (Atomizer.decoder (GreedyAtomizer.base (GreedyAtomizer.init vocab)))
    with (Atomizer.decoder (Atomizer.init vocab)).
  apply (decode_all vocab _ idx Hwf Hinj E).
Qed.

(** What [GreedyAtomizer.from_text] returns. *)
Lemma from_text_Ok (order : list string) (text : string) a :
  NoDup order ->
  GreedyAtomizerFromText.from_text order text = Ok a ->
  let seed := GreedyAtomizer.init (GreedyAtomizerFromText.opencl_vocab order) in
  let vocab := GreedyAtomizer.vocab a in
  exists toks,
    GreedyAtomizer.tokenize seed text = Ok toks /\
    a = GreedyAtomizer.init vocab /\
    NoDup (PyDict.keys vocab) /\
    (forall t, In t (PyDict.keys vocab) <-> In t toks) /\
    PyDict.values vocab = seq 0 (List.length (PyDict.keys vocab)) /\
    GreedyAtomizer.tokenize a text = Ok toks /\
    bind (GreedyAtomizer.atomize a text) (GreedyAtomizer.deatomize a)
    = Ok text.
Proof.
  intros Hnd. unfold GreedyAtomizerFromText.from_text.
  set (V0 := GreedyAtomizerFromText.opencl_vocab order).
  destruct (zip_range_dict order Hnd) as (_ & Hk0 & Hv0).
  fold (GreedyAtomizerFromText.opencl_vocab order) in Hk0, Hv0.
  fold V0 in Hk0, Hv0.
  assert (Hwf0 : PyDict.wf V0) by (unfold PyDict.wf; rewrite Hk0; exact Hnd).
  assert (Hinj0 : NoDup (PyDict.values V0))
    by (rewrite Hv0; apply seq_NoDup).
  destruct (GreedyAtomizer.tokenize (GreedyAtomizer.init V0) text)
    as [toks|e] eqn:Htok; [|discriminate].
  cbn [bind]. intros H; injection H as <-. cbv zeta.
  change (GreedyAtomizer.vocab (GreedyAtomizer.init ?v)) with v.
  set (tokens := sorted String.leb (pyset toks)).
  assert (Hnd' : NoDup tokens).
  { eapply Permutation_NoDup; [apply Permutation_sym, sorted_perm|].
    apply NoDup_nodup. }
  assert (Hin' : forall t, In t tokens <-> In t toks).
  { intros t. unfold tokens, pyset. rewrite sorted_In, nodup_In. tauto. }
  destruct (zip_range_dict tokens Hnd') as (_ & Hk & Hv).
  set (V := PyDict.of_pairs String.eqb
              (zip tokens (range (List.length tokens)))) in *.
  assert (Hwf : PyDict.wf V) by (unfold PyDict.wf; rewrite Hk; exact Hnd').
  assert (Hinj : NoDup (PyDict.values V)) by (rewrite Hv; apply seq_NoDup).
  destruct (tokenize_munch V0 text toks Hwf0 Hinj0 Htok) as [Hm Hkeys0].
  assert (Hsame : maximal_munch (PyDict.keys V) text = toks).
  { rewrite Hm. unfold maximal_munch. apply munch_restrict.
    - intros b Hb _. rewrite Hk in Hb. apply Hin' in Hb.
      rewrite Forall_forall in Hkeys0. apply Hkeys0, Hb.
    - intros t Ht. rewrite Hk. apply Hin'. rewrite Hm. exact Ht. }
  assert (Htok' : GreedyAtomizer.tokenize (GreedyAtomizer.init V) text
                  = Ok toks).
  { rewrite <- Hsame at 1. apply tokenize_of_munch; [exact Hwf|exact Hinj|].
    rewrite Hsame, Hk. intros t. apply Hin'. }
  exists toks. split; [reflexivity|]. split; [reflexivity|].
  split; [rewrite Hk; exact Hnd'|]. split; [rewrite Hk; exact Hin'|].
  split; [rewrite Hk; exact Hv|]. split; [exact Htok'|].
  unfold GreedyAtomizer.tokenize, Atomizer.tokenize in Htok'.
  destruct (GreedyAtomizer.atomize (GreedyAtomizer.init V) text)
    as [idx|e] eqn:Hidx; [|discriminate].
  cbn [bind] in *.
  destruct (atomize_spells V _ text Hwf Hinj idx Hidx) as (atoms & Hdec & Hj).
  unfold GreedyAtomizer.deatomize, Atomizer.deatomize.
  change (Atomizer.decoder (GreedyAtomizer.base (GreedyAtomizer.init V)))
    with (Atomizer.decoder (Atomizer.init V)).
  rewrite Hdec, Hj. reflexivity.
Qed.

(** The greedy scan is the longest-match tokenizer: at every position it
    takes the longest atom of two or more characters of the vocabulary that
    stands there, and the single character when there is none. [atomize]
    returns the indices that the vocabulary gives these tokens, and raises
    [VocabError] when one of them is not a key of the vocabulary; the
    bookkeeping of [j] across the passes changes nothing to this. The
    second part says what the longest match at [i] is: the text goes on with
    it at [i]; it is the character at [i] or an atom of two or more
    characters that stands at [i]; and no such atom is longer. *)
Theorem greedy_atomize_maximal_munch (vocab : PyDict.dict string nat)
  (text : string) :
  GreedyAtomizer.atomize (GreedyAtomizer.init vocab) text
  = match mapM (PyDict.getitem String.eqb vocab)
            (maximal_munch (PyDict.keys vocab) text) with
    | Ok idx => Ok idx
    | Raise _ => Raise VocabError
    end
  /\ forall i,
       i < String.length text ->
       let T := longest_match (PyDict.keys vocab) (suffix text i) in
       prefix T (suffix text i) = true /\
       1 <= String.length T /\
       (T = item text i \/ is_match (PyDict.keys vocab) text i T) /\
       (forall a, is_match (PyDict.keys vocab) text i a ->
                  String.length a <= String.length T).
Proof.
  split; [apply atomize_munch|].
  intros i Hi. apply longest_match_facts, Hi.
Qed.

(** ** [GreedyAtomizer.from_text] *)

(** [GreedyAtomizer.from_text] on a corpus that the seed atomizer accepts:
    the vocabulary of the result has the distinct tokens of the corpus as its
    keys, each once, and the indices from zero on as its values; the result
    tokenizes the corpus as the seed atomizer does, and its [deatomize] gives
    the corpus back from what its [atomize] returns. This holds whatever the
    order in which the set [OPENCL_ATOMS] is enumerated. *)
Theorem greedy_from_text_specialises (order : list string) (text : string)
  (a : GreedyAtomizer.t) :
  Permutation OPENCL_ATOMS order ->
  GreedyAtomizerFromText.from_text order text = Ok a ->
  let seed := GreedyAtomizer.init (GreedyAtomizerFromText.opencl_vocab order) in
  let vocab := GreedyAtomizer.vocab a in
  exists toks,
    GreedyAtomizer.tokenize seed text = Ok toks /\
    a = GreedyAtomizer.init vocab /\
    NoDup (PyDict.keys vocab) /\
    (forall t, In t (PyDict.keys vocab) <-> In t toks) /\
    PyDict.values vocab = seq 0 (List.length (PyDict.keys vocab)) /\
    GreedyAtomizer.tokenize a text = Ok toks /\
    bind (GreedyAtomizer.atomize a text) (GreedyAtomizer.deatomize a)
    = Ok text.
Proof.
  intros Hperm. apply from_text_Ok.
  eapply Permutation_NoDup; [exact Hperm|apply NoDup_nodup].
Qed.

Lemma greedy_from_text_specialises_witness :
  let a :=
    match GreedyAtomizerFromText.from_text OPENCL_ATOMS "int f(int x)" with
    | Ok a => a
    | Raise _ => GreedyAtomizer.init []
    end in
  let seed :=
    GreedyAtomizer.init (GreedyAtomizerFromText.opencl_vocab OPENCL_ATOMS) in
  let vocab := GreedyAtomizer.vocab a in
  exists toks,
    GreedyAtomizer.tokenize seed "int f(int x)" = Ok toks /\
    a = GreedyAtomizer.init vocab /\
    NoDup (PyDict.keys vocab) /\
    (forall t, In t (PyDict.keys vocab) <-> In t toks) /\
    PyDict.values vocab = seq 0 (List.length (PyDict.keys vocab)) /\
    GreedyAtomizer.tokenize a "int f(int x)" = Ok toks /\
    bind (GreedyAtomizer.atomize a "int f(int x)") (GreedyAtomizer.deatomize a)
    = Ok "int f(int x)".
Proof.
  apply (greedy_from_text_specialises OPENCL_ATOMS "int f(int x)"
           (match GreedyAtomizerFromText.from_text OPENCL_ATOMS
                    "int f(int x)" with
            | Ok a => a
            | Raise _ => GreedyAtomizer.init []
            end)).
  - apply Permutation_refl.
  - vm_compute. reflexivity.
Defined.

(** ** The corpora that [GreedyAtomizer.from_text] accepts *)

Lemma chars_app (a b : string) : chars (a ++ b) = (chars a ++ chars b)%list.
Proof. induction a as [|c a IH]; simpl; [|rewrite IH]; reflexivity. Qed.

Lemma chars_join_In (l : list string) c :
  In c (chars (join l)) -> exists t, In t l /\ In c (chars t).
Proof.
  unfold join. induction l as [|x l IH]; simpl; [contradiction|].
  destruct l as [|y l].
  - intros H. exists x. auto.
  - rewrite chars_app. simpl "++"%string. intros H.
    apply in_app_or in H as [H|H].
    + exists x. auto.
    + destruct (IH H) as (t & Ht & Hc). exists t. auto.
Qed.

(** Every seed atom is written with printable characters. *)
Lemma opencl_atoms_printable a c :
  In a OPENCL_ATOMS -> In c (chars a) -> In c (chars printable).
Proof.
  assert (H : forallb
                (fun a => forallb
                            (fun c => existsb (String.eqb c) (chars printable))
                            (chars a))
                OPENCL_ATOMS = true) by (vm_compute; reflexivity).
  intros Ha Hc. rewrite forallb_forall in H. specialize (H a Ha).
  rewrite forallb_forall in H. specialize (H c Hc).
  apply existsb_exists in H as (x & Hx & E).
  apply String.eqb_eq in E. subst. exact Hx.
Qed.

Lemma printable_atoms c : In c (chars printable) -> In c OPENCL_ATOMS.
Proof.
  intros H. unfold OPENCL_ATOMS, pyset, OPENCL_ATOMS_list.
  apply nodup_In, in_or_app. right. exact H.
Qed.

Lemma from_text_cases (order : list string) (text : string) :
  Permutation OPENCL_ATOMS order ->
  match GreedyAtomizerFromText.from_text order text with
  | Ok _ => forall c, In c (chars text) -> In c (chars printable)
  | Raise e =>
      e = VocabError /\
      ~ (forall c, In c (chars text) -> In c (chars printable))
  end.
Proof.
  intros Hperm.
  assert (Hnd : NoDup order)
    by (eapply Permutation_NoDup; [exact Hperm|apply NoDup_nodup]).
  unfold GreedyAtomizerFromText.from_text.
  set (V0 := GreedyAtomizerFromText.opencl_vocab order).
  destruct (zip_range_dict order Hnd) as (_ & Hk0 & Hv0).
  fold (GreedyAtomizerFromText.opencl_vocab order) in Hk0, Hv0.
  fold V0 in Hk0, Hv0.
  assert (Hwf0 : PyDict.wf V0) by (unfold PyDict.wf; rewrite Hk0; exact Hnd).
  assert (Hinj0 : NoDup (PyDict.values V0))
    by (rewrite Hv0; apply seq_NoDup).
  destruct (GreedyAtomizer.tokenize (GreedyAtomizer.init V0) text)
    as [toks|e] eqn:Htok; cbn [bind].
  - destruct (tokenize_munch V0 text toks Hwf0 Hinj0 Htok) as [_ Hkeys].
    unfold GreedyAtomizer.tokenize, Atomizer.tokenize in Htok.
    destruct (GreedyAtomizer.atomize (GreedyAtomizer.init V0) text)
      as [idx|e] eqn:Hidx; [|discriminate].
    cbn [bind] in Htok.
    destruct (atomize_spells V0 _ text Hwf0 Hinj0 idx Hidx)
      as (atoms & Hdec & Hjoin).
    change (Atomizer.decoder (GreedyAtomizer.base (GreedyAtomizer.init V0)))
      with (Atomizer.decoder (Atomizer.init V0)) in Htok.
    assert (atoms = toks) as -> by congruence.
    intros c Hc. rewrite <- Hjoin in Hc.
    apply chars_join_In in Hc as (t & Ht & Hc).
    rewrite Forall_forall in Hkeys. specialize (Hkeys t Ht).
    rewrite Hk0 in Hkeys.
    apply (opencl_atoms_printable t c); [|exact Hc].
    eapply Permutation_in; [apply Permutation_sym, Hperm|exact Hkeys].
  - unfold GreedyAtomizer.tokenize, Atomizer.tokenize in Htok.
    destruct (GreedyAtomizer.atomize (GreedyAtomizer.init V0) text)
      as [idx|e'] eqn:Hidx; cbn [bind] in Htok.
    + exfalso.
      destruct (atomize_spells V0 _ text Hwf0 Hinj0 idx Hidx)
        as (atoms & Hdec & _).
      change (Atomizer.decoder
                (GreedyAtomizer.base (GreedyAtomizer.init V0)))
        with (Atomizer.decoder (Atomizer.init V0)) in Htok.
      congruence.
    + injection Htok as <-.
      destruct (atomize_cases (GreedyAtomizer.init V0) text)
        as [(idx & E)|E]; [congruence|].
      split; [congruence|]. intros Hall.
      destruct (atomize_known V0 text) as (idx & E'); [|congruence].
      intros c Hc. rewrite Hk0.
      eapply Permutation_in; [exact Hperm|].
      apply printable_atoms, Hall, Hc.
Qed.

(** [GreedyAtomizer.from_text] returns exactly on the corpora written with
    the characters of [string.printable]; on any other corpus it raises
    [VocabError], and nothing else: the [KeyError] that [tokenize] would let
    through cannot occur with the seed vocabulary. *)
Theorem greedy_from_text_returns_iff (order : list string) (text : string) :
  Permutation OPENCL_ATOMS order ->
  match GreedyAtomizerFromText.from_text order text with
  | Ok _ => forall c, In c (chars text) -> In c (chars printable)
  | Raise e =>
      e = VocabError /\
      ~ (forall c, In c (chars text) -> In c (chars printable))
  end.
Proof. apply from_text_cases. Qed.

Lemma greedy_from_text_returns_iff_witness :
  match GreedyAtomizerFromText.from_text (rev OPENCL_ATOMS)
          (String (ascii_of_nat 200) "x") with
  | Ok _ =>
      forall c, In c (chars (String (ascii_of_nat 200) "x")) ->
                In c (chars printable)
  | Raise e =>
      e = VocabError /\
      ~ (forall c, In c (chars (String (ascii_of_nat 200) "x")) ->
                   In c (chars printable))
  end.
Proof.
  apply (greedy_from_text_returns_iff (rev OPENCL_ATOMS)
           (String (ascii_of_nat 200) "x")).
  apply Permutation_rev.
Defined.

(* ================================================================= *)
(** * What [validate] accepts *)

(** An argument that the kernel can write and the driver reads back: a
    pointer that is neither local nor const. *)
Definition output_buffer (a : CLDrive.KernelArg) : bool :=
  CLDrive.is_pointer a && negb (CLDrive.is_local a)
  && negb (CLDrive.is_const a).

(** The argument is not read back: it has no host array, or it is const. *)
Definition not_read_back (a : CLDrive.KernelArg) : Prop :=
  CLDrive.hostdata a = None \/ CLDrive.is_const a = true.

Lemma device_to_host_loop_const P args elapsed m :
  Forall not_read_back args ->
  CLDrive.device_to_host_loop P args elapsed m = (Ok (elapsed, args), m).
Proof.
  induction 1 as [|a args Ha _ IH]; simpl; [reflexivity|].
  destruct (CLDrive.hostdata a) as [h|] eqn:Hh.
  - destruct Ha as [Ha|Ha]; [congruence|]. rewrite Ha.
    rewrite (bindM_run _ _ _ _ _ IH). reflexivity.
  - rewrite (bindM_run _ _ _ _ _ IH). reflexivity.
Qed.

(** A payload without local memory buffers and without NaN is equal to its
    deep copy. *)
Lemma args_eq_copy lo hi xs ys :
  Forall2 (copy_of lo hi) xs ys ->
  existsb is_scratch xs = false ->
  existsb holds_nan xs = false ->
  CLDrive.args_eq xs ys = Ok true.
Proof.
  induction 1 as [|x y xs ys [_ Hxy] _ IH]; simpl; [reflexivity|].
  intros Hs Hn. apply orb_false_iff in Hs as [Hx Hs].
  apply orb_false_iff in Hn as [Hnx Hn].
  unfold is_scratch in Hx. unfold holds_nan in Hnx.
  destruct (CLDrive.hostdata x) as [h|].
  - destruct Hxy as (-> & _). rewrite Nat.eqb_refl. simpl.
    rewrite zip_self_equal, Hnx. apply IH; assumption.
  - destruct Hxy as [_ Hxy]. rewrite Hx in Hxy. rewrite Hxy.
    rewrite devdata_ne_same.
    destruct (CLDrive.devdata x) as [[t v|id|id n]|];
      try (apply IH; assumption).
    rewrite Hnx. apply IH; assumption.
Qed.

Lemma copy_not_read_back lo hi xs ys :
  Forall2 (copy_of lo hi) xs ys ->
  Forall not_read_back xs -> Forall not_read_back ys.
Proof.
  induction 1 as [|x y xs ys [Hd Hxy] _ IH]; intros Hx;
    inversion Hx as [|? ? Hx1 Hxs]; subst; constructor; [|apply IH, Hxs].
  destruct Hd as (_ & _ & _ & _ & _ & Hc). unfold not_read_back in *.
  destruct (CLDrive.hostdata x) as [h|].
  - destruct Hx1 as [Hx1|Hx1]; [congruence|]. right. congruence.
  - left. apply Hxy.
Qed.

(** A single-shot execution on a payload of which nothing is read back and
    that has no local memory buffer and no NaN returns a payload equal to
    its input. *)
Lemma call_no_output P payload m out m' :
  Forall not_read_back (CLDrive.p_args payload) ->
  existsb is_scratch (CLDrive.p_args payload) = false ->
  existsb holds_nan (CLDrive.p_args payload) = false ->
  CLDrive.call P payload m = (Ok out, m') ->
  CLDrive.payload_eq payload out = Ok true.
Proof.
  intros Hnr Hns Hnan. unfold CLDrive.call. intros H.
  apply bindM_Ok in H as (u1 & m1 & _ & H).
  apply bindM_Ok in H as (clone & m2 & Hcopy & H).
  apply bindM_Ok in H as (t & m3 & _ & H).
  apply bindM_Ok in H as (mr & m4 & _ & H).
  apply bindM_Ok in H as (u2 & m5 & _ & H).
  apply bindM_Ok in H as (x & m6 & _ & H).
  apply bindM_Ok in H as (ev & m7 & _ & H).
  apply bindM_Ok in H as (t2 & m8 & _ & H).
  apply bindM_Ok in H as (r & m9 & Hback & H).
  apply bindM_Ok in H as (u3 & m10 & _ & H).
  apply bindM_Ok in H as (u4 & m11 & _ & H).
  apply ret_Ok in H as [<- _].
  apply deepcopy_Ok in Hcopy as (Hctx & _ & _ & Hargs & _).
  pose proof (copy_not_read_back _ _ _ _ Hargs Hnr) as Hnr'.
  unfold CLDrive.device_to_host in Hback.
  rewrite (bindM_run _ _ _ _ _
             (device_to_host_loop_const P _ 0%Q m8 Hnr')) in Hback.
  apply ret_Ok in Hback as [<- _]. simpl.
  unfold CLDrive.payload_eq. simpl.
  rewrite Hctx, Nat.eqb_refl. simpl.
  rewrite (Forall2_length Hargs), Nat.eqb_refl. simpl.
  apply (args_eq_copy _ _ _ _ Hargs Hns Hnan).
Qed.

Lemma lift_Ok {A : Type} (r : result A) m a m' :
  CLDrive.lift r m = (Ok a, m') -> r = Ok a /\ m' = m.
Proof. unfold CLDrive.lift. intros H; injection H as -> <-. auto. Qed.

Lemma assert_Ok c e m u m' :
  CLDrive.assert_constraint c e m = (Ok u, m') -> c = true.
Proof. destruct c; [reflexivity|discriminate]. Qed.

(** The arguments that a generator makes for a prototype without an output
    buffer are not read back. *)
Lemma generated_not_read_back protos args :
  Forall2 same_descriptor protos args -> Forall generated_arg args ->
  existsb output_buffer protos = false ->
  Forall not_read_back args.
Proof.
  induction 1 as [|proto a protos args Hd _ IH]; intros Hg Hno;
    [constructor|].
  inversion Hg as [|? ? Hga Hgs]; subst. simpl in Hno.
  apply orb_false_iff in Hno as [Hp Hno].
  constructor; [|apply IH; assumption].
  destruct Hd as (_ & _ & _ & Hdp & Hdl & Hdc).
  unfold not_read_back, generated_arg, output_buffer in *.
  destruct (CLDrive.hostdata a) as [h|]; [|left; reflexivity].
  destruct Hga as (Hpa & Hla & _). right.
  rewrite <- Hdp, <- Hdl, <- Hdc, Hpa, Hla in Hp. simpl in Hp.
  destruct (CLDrive.is_const a); [reflexivity|discriminate].
Qed.

Lemma validate_Ok_output P fuel size m0 m' :
  CLDrive.validate P fuel size m0 = (Ok tt, m') ->
  existsb output_buffer (CLDrive.d_prototype (CLDrive.driver m0)) = true.
Proof.
  intros H.
  destruct (existsb output_buffer
              (CLDrive.d_prototype (CLDrive.driver m0))) eqn:Hno;
    [reflexivity|exfalso].
  unfold CLDrive.validate in H.
  apply bindM_Ok in H as (A1in & m1 & HA1 & H).
  apply bindM_Ok in H as (A2in & m2 & HA2 & H).
  apply bindM_Ok in H as (B0 & m3 & _ & H).
  apply bindM_Ok in H as (B1in & m4 & _ & H).
  apply bindM_Ok in H as (B2in & m5 & _ & H).
  apply bindM_Ok in H as (c1 & m6 & Hc1 & H).
  apply lift_Ok in Hc1 as [Hc1 ->].
  apply bindM_Ok in H as (u1 & m7 & Ha1 & H).
  apply assert_Ok in Ha1. subst c1.
  apply bindM_Ok in H as (c2 & m8 & _ & H).
  apply bindM_Ok in H as (u2 & m9 & _ & H).
  apply bindM_Ok in H as (A1out & m10 & HcA & H).
  apply bindM_Ok in H as (B1out & m11 & _ & H).
  apply bindM_Ok in H as (A2out & m12 & _ & H).
  apply bindM_Ok in H as (B2out & m13 & _ & H).
  apply bindM_Ok in H as (c3 & m14 & Hc3 & H).
  apply lift_Ok in Hc3 as [Hc3 ->].
  apply bindM_Ok in H as (u3 & m15 & Ha3 & _).
  apply assert_Ok in Ha3. subst c3.
  unfold CLDrive.create_sequential in HA1.
  pose proof (create_payload_Ok _ _ _ _ _ _ HA1) as (_ & Hg & _).
  pose proof (create_payload_from _ _ _ _ _ _ np_arange_no_object HA1)
    as [Hd _].
  pose proof (create_payload_objects _ _ _ _ _ _ np_arange_no_object HA1)
    as Hb.
  pose proof (create_payload_no_nan _ _ _ _ _ _ np_arange_nan_free HA1)
    as Hnan.
  rewrite (clone_eq P A1in m1 A2in m2 Hg Hnan Hb HA2) in Hc1.
  assert (Hns : existsb is_scratch (CLDrive.p_args A1in) = false).
  { destruct (existsb is_scratch (CLDrive.p_args A1in));
      [discriminate|reflexivity]. }
  pose proof (generated_not_read_back _ _ Hd Hg Hno) as Hnr.
  pose proof (call_no_output P A1in _ A1out _ Hnr Hns Hnan HcA) as Heq.
  unfold CLDrive.payload_ne in Hc3. rewrite Heq in Hc3. discriminate.
Qed.

(** [validate] accepts only kernels with an output buffer: when it returns,
    the prototype has a pointer argument that is neither local nor const. In
    particular, no kernel all of whose arguments are const is accepted. *)
Theorem validate_accepts_needs_output (P : CLDrive.Platform)
  (fuel size : nat) (m0 m' : CLDrive.machine) :
  CLDrive.validate P fuel size m0 = (Ok tt, m') ->
  exists a,
    In a (CLDrive.d_prototype (CLDrive.driver m0)) /\
    CLDrive.is_pointer a = true /\ CLDrive.is_local a = false /\
    CLDrive.is_const a = false.
Proof.
  intros H. apply validate_Ok_output in H.
  apply existsb_exists in H as (a & Hin & Ha). exists a.
  split; [exact Hin|]. unfold output_buffer in Ha.
  apply andb_true_iff in Ha as [Ha Hc].
  apply andb_true_iff in Ha as [Hp Hl].
  apply negb_true_iff in Hc, Hl. auto.
Qed.

Lemma validate_accepts_needs_output_witness :
  exists a,
    In a (CLDrive.d_prototype (CLDrive.driver Demo.m0_inc)) /\
    CLDrive.is_pointer a = true /\ CLDrive.is_local a = false /\
    CLDrive.is_const a = false.
Proof.
  apply (validate_accepts_needs_output Demo.P_inc 3 4 Demo.m0_inc
           (snd (CLDrive.validate Demo.P_inc 3 4 Demo.m0_inc))).
  vm_compute. reflexivity.
Defined.
